(** * goblex: the buffering lexer core, embedded in Rocq

    A shallow embedding of [goblex.go] (the lexer) and of the token
    declarations that accompany it.  The lexer mutates one [*Lexer]; here
    every method takes the lexer state and returns its result together with
    the new state.

    Conventions of the embedding:
    - a [rune] is Go's [int32], kept as a [Z];
    - a Go [string] is kept as the sequence of runes it decodes to (what
      [[]rune(s)], [utf8.RuneCountInString] and [ReadRune] see), so the empty
      string is [[]];
    - [inputBuffer], a [bufio.Reader] over the input text, is the list of
      runes it has not delivered yet: [ReadRune] takes the head and fails
      on [[]];
    - [tokens], a [chan Token] of capacity 3, is the queue of tokens that
      were sent and not yet received, with a flag for [close];
    - [ignoreTokens], a [map[string]bool], is an association list whose
      order stands for the order in which [range] visits the map;
    - the trace helpers [enterDebug], [exitDebug] and [logDebug] only
      print, and [logIndent] only counts their nesting: they are left out. *)

From Stdlib Require Import String Ascii ZArith Bool Lia Arith List Permutation.
Import ListNotations.

Set Implicit Arguments.

(** ** Runes, strings and tokens *)

Definition rune := Z.
Definition gostring := list rune.

Definition rune_of_ascii (a : ascii) : rune := Z.of_N (N_of_ascii a).

(** The runes of an ASCII literal. *)
Definition runes (s : string) : gostring :=
  List.map rune_of_ascii (list_ascii_of_string s).

(** [const RuneEOF rune = 0] *)
Definition RuneEOF : rune := 0%Z.

(** [StringEOF = "EOF"] *)
Definition StringEOF : gostring := runes "EOF".

(** [WhiteSpace = []string{string('\t'), string('\n'), string('\v'),
    string('\f'), string('\r'), string(' ')}] *)
Definition WhiteSpace : list gostring :=
  [[9%Z]; [10%Z]; [11%Z]; [12%Z]; [13%Z]; [32%Z]].

(** [type TokenType int8] *)
Definition TokenType := Z.
Definition TokenTypeError : TokenType := (-2)%Z.
Definition TokenTypeEOF : TokenType := (-1)%Z.

(** The [Token] interface offers [Type()] and [String()]; [defaultToken]
    is the struct the lexer itself emits. *)
Record Token := defaultToken { tokenType : TokenType; value : gostring }.

Definition is_blank (s : gostring) : bool :=
  match s with [] => true | _ => false end.

Fixpoint runes_eqb (a b : list rune) : bool :=
  match a, b with
  | [], [] => true
  | x :: a', y :: b' => (x =? y)%Z && runes_eqb a' b'
  | _, _ => false
  end.

(** Go's [unicode.IsSpace]: the White_Space property. *)
Definition IsSpace (r : rune) : bool :=
  ((9 <=? r) && (r <=? 13) || (r =? 32) || (r =? 133) || (r =? 160)
   || (r =? 5760) || (8192 <=? r) && (r <=? 8202) || (r =? 8232)
   || (r =? 8233) || (r =? 8239) || (r =? 8287) || (r =? 12288))%Z.

(** ** The lexer state *)

Record Lexer := mkLexer {
  Name : gostring;
  Debug : bool;
  AutoEatWhitespace : bool;
  ignoreTokens : list (gostring * bool);
  inputBuffer : list rune;
  tokens : list Token;
  tokensClosed : bool;
  tokenBuffer : list rune;
  currentRune : rune;
  lastKnownToken : gostring;
  runeCache : list rune
}.

Definition with_ignoreTokens (v : list (gostring * bool)) (l : Lexer) : Lexer :=
  mkLexer (Name l) (Debug l) (AutoEatWhitespace l) v (inputBuffer l)
    (tokens l) (tokensClosed l) (tokenBuffer l) (currentRune l)
    (lastKnownToken l) (runeCache l).

Definition with_inputBuffer (v : list rune) (l : Lexer) : Lexer :=
  mkLexer (Name l) (Debug l) (AutoEatWhitespace l) (ignoreTokens l) v
    (tokens l) (tokensClosed l) (tokenBuffer l) (currentRune l)
    (lastKnownToken l) (runeCache l).

Definition with_tokens (v : list Token) (l : Lexer) : Lexer :=
  mkLexer (Name l) (Debug l) (AutoEatWhitespace l) (ignoreTokens l)
    (inputBuffer l) v (tokensClosed l) (tokenBuffer l) (currentRune l)
    (lastKnownToken l) (runeCache l).

Definition with_tokensClosed (v : bool) (l : Lexer) : Lexer :=
  mkLexer (Name l) (Debug l) (AutoEatWhitespace l) (ignoreTokens l)
    (inputBuffer l) (tokens l) v (tokenBuffer l) (currentRune l)
    (lastKnownToken l) (runeCache l).

Definition with_tokenBuffer (v : list rune) (l : Lexer) : Lexer :=
  mkLexer (Name l) (Debug l) (AutoEatWhitespace l) (ignoreTokens l)
    (inputBuffer l) (tokens l) (tokensClosed l) v (currentRune l)
    (lastKnownToken l) (runeCache l).

Definition with_currentRune (v : rune) (l : Lexer) : Lexer :=
  mkLexer (Name l) (Debug l) (AutoEatWhitespace l) (ignoreTokens l)
    (inputBuffer l) (tokens l) (tokensClosed l) (tokenBuffer l) v
    (lastKnownToken l) (runeCache l).

Definition with_lastKnownToken (v : gostring) (l : Lexer) : Lexer :=
  mkLexer (Name l) (Debug l) (AutoEatWhitespace l) (ignoreTokens l)
    (inputBuffer l) (tokens l) (tokensClosed l) (tokenBuffer l)
    (currentRune l) v (runeCache l).

Definition with_runeCache (v : list rune) (l : Lexer) : Lexer :=
  mkLexer (Name l) (Debug l) (AutoEatWhitespace l) (ignoreTokens l)
    (inputBuffer l) (tokens l) (tokensClosed l) (tokenBuffer l)
    (currentRune l) (lastKnownToken l) v.

Definition with_AutoEatWhitespace (v : bool) (l : Lexer) : Lexer :=
  mkLexer (Name l) (Debug l) v (ignoreTokens l)
    (inputBuffer l) (tokens l) (tokensClosed l) (tokenBuffer l)
    (currentRune l) (lastKnownToken l) (runeCache l).

(** [tokenBuffer.WriteRune(ch)] and [tokenBuffer.Reset()] *)
Definition WriteRune (ch : rune) (l : Lexer) : Lexer :=
  with_tokenBuffer (tokenBuffer l ++ [ch]) l.

Definition Reset (l : Lexer) : Lexer := with_tokenBuffer [] l.

(** ** The rune cursor *)

(** [func (lxr *Lexer) read() rune] *)
Definition read (l : Lexer) : rune * Lexer :=
  match runeCache l with
  | ch :: rest => (ch, with_currentRune ch (with_runeCache rest l))
  | [] =>
      match inputBuffer l with
      | ch :: rest => (ch, with_currentRune ch (with_inputBuffer rest l))
      | [] => (RuneEOF, with_currentRune RuneEOF l)
      end
  end.

(** The [for] loop of [peek]: [readBuf] collects what the iterations
    took, from the cache first and from the reader once it is empty. *)
Fixpoint peek_loop (numRunes : nat) (readBuf : list rune) (l : Lexer)
  : list rune * Lexer :=
  match numRunes with
  | O => (readBuf, l)
  | S n =>
      match runeCache l with
      | ch :: rest => peek_loop n (readBuf ++ [ch]) (with_runeCache rest l)
      | [] =>
          match inputBuffer l with
          | ch :: rest => peek_loop n (readBuf ++ [ch]) (with_inputBuffer rest l)
          | [] => peek_loop n readBuf l
          end
      end
  end.

(** [func (lxr *Lexer) peek(numRunes int) []rune] *)
Definition peek (numRunes : nat) (l : Lexer) : list rune * Lexer :=
  let (readBuf, l1) := peek_loop numRunes [] l in
  (readBuf, with_runeCache (runeCache l1 ++ readBuf) l1).

(** [n] calls of [read], results dropped. *)
Fixpoint read_n (n : nat) (l : Lexer) : Lexer :=
  match n with
  | O => l
  | S n' => read_n n' (snd (read l))
  end.

(** [n] calls of [read], results collected. *)
Fixpoint advance (n : nat) (l : Lexer) : list rune * Lexer :=
  match n with
  | O => ([], l)
  | S n' =>
      let (ch, l1) := read l in
      let (chs, l2) := advance n' l1 in
      (ch :: chs, l2)
  end.

(** [func (lxr *Lexer) IsEOF() bool] *)
Definition IsEOF (l : Lexer) : bool := (currentRune l =? RuneEOF)%Z.

(** ** The match engine *)

(** The [range tokens] loop of [CurrentTokenIsOneOf]; the result is
    [found]. *)
Fixpoint CurrentTokenIsOneOf_loop (tkns : list gostring) (l : Lexer)
  : gostring * Lexer :=
  match tkns with
  | [] => ([], l)
  | tkn :: rest =>
      match tkn with
      | [] => CurrentTokenIsOneOf_loop rest l
      | t0 :: ttail =>
          if negb (t0 =? currentRune l)%Z then CurrentTokenIsOneOf_loop rest l
          else
            let numPeeks := length ttail in
            let (bufRunes, l1) :=
              if (0 <? numPeeks)%nat
              then let (peeks, l') := peek numPeeks l in
                   (currentRune l :: peeks, l')
              else ([currentRune l], l) in
            if runes_eqb tkn bufRunes then (tkn, l1)
            else CurrentTokenIsOneOf_loop rest l1
      end
  end.

(** [func (lxr *Lexer) CurrentTokenIsOneOf(tokens ...string) (bool, string)] *)
Definition CurrentTokenIsOneOf (tkns : list gostring) (l : Lexer)
  : (bool * gostring) * Lexer :=
  if (currentRune l =? RuneEOF)%Z then ((false, []), l)
  else
    let (found, l1) := CurrentTokenIsOneOf_loop tkns l in
    ((negb (is_blank found), found), l1).

(** [func (lxr *Lexer) CurrentTokenIs(t string) bool] *)
Definition CurrentTokenIs (t : gostring) (l : Lexer) : bool * Lexer :=
  let (r, l1) := CurrentTokenIsOneOf [t] l in (fst r, l1).

(** ** The ignore filter *)

(** [strings.TrimSpace(tkn) != ""]: some rune of [tkn] is not white space. *)
Definition TrimSpace_nonblank (tkn : gostring) : bool :=
  existsb (fun r => negb (IsSpace r)) tkn.

(** [m[k] = v] on the association list: an entry that exists keeps its
    place. *)
Fixpoint map_set (k : gostring) (v : bool) (m : list (gostring * bool))
  : list (gostring * bool) :=
  match m with
  | [] => [(k, v)]
  | (k', v') :: rest =>
      if runes_eqb k k' then (k', v) :: rest else (k', v') :: map_set k v rest
  end.

Definition set_ignores (v : bool) (tkns : list gostring) (l : Lexer) : Lexer :=
  fold_left
    (fun acc tkn =>
       if TrimSpace_nonblank tkn
       then with_ignoreTokens (map_set tkn v (ignoreTokens acc)) acc
       else acc)
    tkns l.

(** [func (lxr *Lexer) AddIgnoreTokens(tokens ...string)] *)
Definition AddIgnoreTokens (tkns : list gostring) (l : Lexer) : Lexer :=
  set_ignores true tkns l.

(** [func (lxr *Lexer) RemoveIgnoreTokens(tokens ...string)] *)
Definition RemoveIgnoreTokens (tkns : list gostring) (l : Lexer) : Lexer :=
  set_ignores false tkns l.

(** The [range lxr.ignoreTokens] loop of [skipIgnores]. *)
Fixpoint skipIgnores_loop (entries : list (gostring * bool)) (l : Lexer)
  : bool * Lexer :=
  match entries with
  | [] => (false, l)
  | (ignore, doit) :: rest =>
      if doit then
        let (hit, l1) := CurrentTokenIs ignore l in
        if hit then (true, read_n (length ignore) l1)
        else skipIgnores_loop rest l1
      else skipIgnores_loop rest l
  end.

(** [func (lxr *Lexer) skipIgnores() bool] *)
Definition skipIgnores (l : Lexer) : bool * Lexer :=
  if (currentRune l =? RuneEOF)%Z then (false, l)
  else skipIgnores_loop (ignoreTokens l) l.

(** ** Loops over the input

    The [for] loops that read until something turns up are driven by a
    fuel.  [weight] bounds the number of reads that can still change the
    cursor; every loop below is started with [fuel_of], one more than
    that, and the lemmas named [_fuel] show that the answer no longer
    depends on the fuel from there on. *)

Definition weight (l : Lexer) : nat :=
  length (runeCache l) + length (inputBuffer l)
  + (if (currentRune l =? RuneEOF)%Z then 0 else 1).

Definition fuel_of (l : Lexer) : nat := S (weight l).

(** The [for] loop of [EatWhitespace]. *)
Fixpoint EatWhitespace_loop (fuel : nat) (l : Lexer) : bool * Lexer :=
  match fuel with
  | O => (false, l)
  | S n =>
      let l1 := snd (read l) in
      if (currentRune l1 =? RuneEOF)%Z then (false, l1)
      else if negb (IsSpace (currentRune l1)) then (true, l1)
      else EatWhitespace_loop n l1
  end.

(** [func (lxr *Lexer) EatWhitespace() bool] *)
Definition EatWhitespace (l : Lexer) : bool * Lexer :=
  if negb (IsSpace (currentRune l)) then (false, l)
  else EatWhitespace_loop (fuel_of l) l.

(** [if lxr.AutoEatWhitespace { lxr.EatWhitespace() }] *)
Definition autoEat (l : Lexer) : Lexer :=
  if AutoEatWhitespace l then snd (EatWhitespace l) else l.

(** ** Capture primitives *)

(** The [range tokens] loop inside [CaptureUntilOneOf]; the result is
    [foundToken]. *)
Fixpoint find_token (tkns : list gostring) (l : Lexer) : gostring * Lexer :=
  match tkns with
  | [] => ([], l)
  | tkn :: rest =>
      if is_blank tkn then find_token rest l
      else
        let (hit, l1) := CurrentTokenIs tkn l in
        if hit then (tkn, l1) else find_token rest l1
  end.

(** The outer [for] loop of [CaptureUntilOneOf]. *)
Fixpoint CaptureUntilOneOf_loop (fuel : nat) (skipWhitespace : bool)
  (tkns : list gostring) (l : Lexer) : gostring * Lexer :=
  match fuel with
  | O => ([], l)
  | S n =>
      let (ate, l1) := if skipWhitespace then EatWhitespace l else (false, l) in
      if ate then CaptureUntilOneOf_loop n skipWhitespace tkns l1
      else
        let ch := currentRune l1 in
        if (ch =? RuneEOF)%Z then ([], l1)
        else
          let (skipped, l2) := skipIgnores l1 in
          if skipped then CaptureUntilOneOf_loop n skipWhitespace tkns l2
          else
            let (foundToken, l3) := find_token tkns l2 in
            if negb (is_blank foundToken) then (foundToken, l3)
            else
              CaptureUntilOneOf_loop n skipWhitespace tkns
                (snd (read (WriteRune ch l3)))
  end.

(** [func (lxr *Lexer) CaptureUntilOneOf(skipWhitespace bool, tokens ...string) string] *)
Definition CaptureUntilOneOf (skipWhitespace : bool) (tkns : list gostring)
  (l : Lexer) : gostring * Lexer :=
  if (length tkns <? 1)%nat || (currentRune l =? RuneEOF)%Z then ([], l)
  else
    let (foundToken, l1) :=
      CaptureUntilOneOf_loop (fuel_of l) skipWhitespace tkns l in
    (foundToken, with_lastKnownToken foundToken l1).

(** [func (lxr *Lexer) CaptureUntil(skipWhitespace bool, until string) bool] *)
Definition CaptureUntil (skipWhitespace : bool) (until : gostring)
  (l : Lexer) : bool * Lexer :=
  if is_blank until then (false, l)
  else
    let (found, l1) := CaptureUntilOneOf skipWhitespace [until] l in
    (negb (is_blank found), l1).

(** [for lxr.skipIgnores() { if lxr.AutoEatWhitespace { lxr.EatWhitespace() } }] *)
Fixpoint skipIgnores_repeat (fuel : nat) (l : Lexer) : Lexer :=
  match fuel with
  | O => l
  | S n =>
      let (skipped, l1) := skipIgnores l in
      if skipped then skipIgnores_repeat n (autoEat l1) else l1
  end.

(** What [ConsumeCurrentToken] and [SkipCurrentToken] both end with. *)
Definition eat_trailing (l : Lexer) : Lexer :=
  let l1 := autoEat l in skipIgnores_repeat (fuel_of l1) l1.

(** [for i := 0; i < numRunes; i++ { ch := lxr.read(); lxr.tokenBuffer.WriteRune(ch) }] *)
Fixpoint read_write_n (n : nat) (l : Lexer) : Lexer :=
  match n with
  | O => l
  | S n' => let (ch, l1) := read l in read_write_n n' (WriteRune ch l1)
  end.

(** [func (lxr *Lexer) ConsumeCurrentToken(clearPrevious bool) bool] *)
Definition ConsumeCurrentToken (clearPrevious : bool) (l : Lexer)
  : bool * Lexer :=
  if is_blank (lastKnownToken l) then (false, l)
  else
    let (hit, l1) := CurrentTokenIs (lastKnownToken l) l in
    if negb hit then (false, l1)
    else if (currentRune l1 =? RuneEOF)%Z then (false, l1)
    else
      let l2 := if clearPrevious then Reset l1 else l1 in
      let l3 := WriteRune (currentRune l2) l2 in
      let numRunes := (length (lastKnownToken l3) - 1)%nat in
      let l4 := read_write_n numRunes l3 in
      let l5 := snd (read l4) in
      (true, eat_trailing l5).

(** [func (lxr *Lexer) SkipCurrentToken(clearPrevious bool) bool] *)
Definition SkipCurrentToken (clearPrevious : bool) (l : Lexer)
  : bool * Lexer :=
  let (gotLastKnown, l1) := CurrentTokenIs (lastKnownToken l) l in
  if is_blank (lastKnownToken l1) || negb gotLastKnown
     || (currentRune l1 =? RuneEOF)%Z
  then (false, l1)
  else
    let l2 := if clearPrevious then Reset l1 else l1 in
    let numRunes := length (lastKnownToken l2) in
    let l3 := read_n numRunes l2 in
    (true, eat_trailing l3).

(** [func (lxr *Lexer) Flush() string] *)
Definition Flush (l : Lexer) : gostring * Lexer :=
  (tokenBuffer l, Reset l).

Section Ident.

(** Go's [unicode.IsLetter] and [unicode.IsDigit], tables of the
    standard library. *)
Variable IsLetter IsDigit : rune -> bool.

(** The [for] loop of [CaptureIdent]. *)
Fixpoint CaptureIdent_loop (fuel : nat) (foundIdent : bool) (l : Lexer)
  : bool * Lexer :=
  match fuel with
  | O => (foundIdent, l)
  | S n =>
      let ch := currentRune l in
      if (ch =? RuneEOF)%Z then (foundIdent, l)
      else
        let (skipped, l1) := skipIgnores l in
        if skipped then CaptureIdent_loop n foundIdent (autoEat l1)
        else if negb (IsLetter ch) && negb (IsDigit ch) && negb (ch =? 95)%Z
        then (foundIdent, l1)
        else CaptureIdent_loop n true (snd (read (WriteRune ch l1)))
  end.

(** [func (lxr *Lexer) CaptureIdent() bool] *)
Definition CaptureIdent (l : Lexer) : bool * Lexer :=
  let l0 := autoEat l in
  let (foundIdent, l1) := CaptureIdent_loop (fuel_of l0) false l0 in
  let l2 := autoEat l1 in
  let (skipped, l3) := skipIgnores l2 in
  let l4 := if skipped && AutoEatWhitespace l3
            then snd (EatWhitespace l3) else l3 in
  (foundIdent, l4).

End Ident.

(** ** The emission channel

    A send on [tokens] completes when the channel is open and holds fewer
    tokens than its capacity.  The lexer runs on the goroutine of its
    caller, so a send that finds the channel full waits for a receive that
    nobody else can perform ([Blocked]); a send on a closed channel and a
    second [close] panic ([Panicked]). *)

Inductive Outcome (A : Type) : Type :=
| Done (a : A)
| Blocked
| Panicked.

Arguments Blocked {A}.
Arguments Panicked {A}.

Definition bind {A B : Type} (m : Outcome A) (k : A -> Outcome B) : Outcome B :=
  match m with
  | Done a => k a
  | Blocked => Blocked
  | Panicked => Panicked
  end.

Declare Scope outcome_scope.
Delimit Scope outcome_scope with outcome.
Notation "x <- m ;; k" := (bind m (fun x => k))
  (at level 61, m at next level, right associativity) : outcome_scope.
Notation "m >>= k" := (bind m k)
  (at level 58, left associativity) : outcome_scope.

(** [make(chan Token, 3)] *)
Definition tokensCap : nat := 3.

(** [lxr.tokens <- tok] *)
Definition send (tok : Token) (l : Lexer) : Outcome Lexer :=
  if tokensClosed l then Panicked
  else if (length (tokens l) <? tokensCap)%nat
       then Done (with_tokens (tokens l ++ [tok]) l)
       else Blocked.

(** [func (lxr *Lexer) Emit(tokenType TokenType)] *)
Definition Emit (ty : TokenType) (l : Lexer) : Outcome Lexer :=
  (l1 <- send (defaultToken ty (tokenBuffer l)) l ;; Done (Reset l1))%outcome.

(** [func (lxr *Lexer) EmitToken(token Token)] *)
Definition EmitToken (tok : Token) (l : Lexer) : Outcome Lexer :=
  send tok l.

(** [func (lxr *Lexer) shutdown()] *)
Definition shutdown (l : Lexer) : Outcome Lexer :=
  if tokensClosed l then Panicked else Done (with_tokensClosed true l).

(** The struct literal of [NewLexer] followed by its [l.read()]; the two
    [LexFn] fields are kept by the driver below. *)
Definition primed (name input : gostring) : Lexer :=
  snd (read (mkLexer name false true [] input [] false [] 0%Z [] [])).

(** ** The step driver

    [type LexFn func(lexer *Lexer) LexFn] refers to itself through the
    lexer it receives.  Step functions are therefore named by the values of
    a type [LexFn], [call] runs the function of that name on the lexer
    state, and [nil] is [None].  The fields [state] and [begin] of the Go
    struct, which no step function can reach, sit next to the lexer state
    in [Driver]. *)

Section Driver.

Variable LexFn : Type.
Variable call : LexFn -> Lexer -> Outcome (option LexFn * Lexer).

Record Driver := mkDriver {
  lxr : Lexer;
  state : option LexFn;
  begin : option LexFn
}.

(** [func NewLexer(name, input string, begin LexFn) *Lexer] *)
Definition NewLexer (name input : gostring) (begin : option LexFn) : Driver :=
  mkDriver (primed name input) begin begin.

(** [func (lxr *Lexer) Errorf(format string, args ...interface{}) LexFn],
    on the message [fmt.Sprintf] has already formatted. *)
Definition Errorf (msg : gostring) (l : Lexer)
  : Outcome (option LexFn * Lexer) :=
  (l1 <- send (defaultToken TokenTypeError msg) l ;; Done (None, l1))%outcome.

(** [for state := lxr.begin; state != nil; { state = state(lxr) }]; the
    chain of steps need not end, [None] is a chain still running when
    the fuel is spent. *)
Fixpoint Run_loop (fuel : nat) (st : option LexFn) (l : Lexer)
  : option (Outcome Lexer) :=
  match st with
  | None => Some (Done l)
  | Some f =>
      match fuel with
      | O => None
      | S n =>
          match call f l with
          | Done (st', l1) => Run_loop n st' l1
          | Blocked => Some Blocked
          | Panicked => Some Panicked
          end
      end
  end.

(** [func (lxr *Lexer) Run()] *)
Definition Run (fuel : nat) (d : Driver) : option (Outcome Driver) :=
  match Run_loop fuel (begin d) (lxr d) with
  | None => None
  | Some r =>
      Some (l1 <- r ;; l2 <- shutdown l1 ;;
            Done (mkDriver l2 (state d) (begin d)))%outcome
  end.

(** [func (lxr *Lexer) NextEmittedToken() Token]: the [select] takes a
    queued token when there is one, and the zero [Token] ([None]) from a
    channel that is closed and empty; otherwise its [default] runs one
    step, or ends the input once the chain has returned [nil]. *)
Fixpoint NextEmittedToken (fuel : nat) (d : Driver)
  : option (Outcome (option Token * Driver)) :=
  match tokens (lxr d) with
  | token :: rest =>
      Some (Done (Some token,
                  mkDriver (with_tokens rest (lxr d)) (state d) (begin d)))
  | [] =>
      if tokensClosed (lxr d) then Some (Done (None, d))
      else
        match state d with
        | Some f =>
            match fuel with
            | O => None
            | S n =>
                match call f (lxr d) with
                | Done (st', l1) => NextEmittedToken n (mkDriver l1 st' (begin d))
                | Blocked => Some Blocked
                | Panicked => Some Panicked
                end
            end
        | None =>
            Some (Done (Some (defaultToken TokenTypeEOF StringEOF),
                        mkDriver
                          (with_currentRune RuneEOF
                             (with_inputBuffer [] (lxr d)))
                          (state d) (begin d)))
        end
  end.

End Driver.

Arguments mkDriver {LexFn}.
Arguments Errorf {LexFn}.

(** ** Vocabulary of the properties *)

(** What is left to read, as a count. *)
Definition unread (l : Lexer) : nat :=
  length (runeCache l) + length (inputBuffer l).

(** The runes the cursor has yet to deliver, in the order of the input:
    those [peek] cached, then those still in the reader. *)
Definition pending (l : Lexer) : list rune := runeCache l ++ inputBuffer l.

(** Frames: [no_lookahead] forgets the cache and the reader, [no_cursor]
    the current rune as well, [no_capture] the capture buffer too.  Two
    states with the same image differ at most in what was forgotten. *)
Definition no_lookahead (l : Lexer) : Lexer :=
  with_runeCache [] (with_inputBuffer [] l).

Definition no_cursor (l : Lexer) : Lexer :=
  with_currentRune RuneEOF (no_lookahead l).

Definition no_capture (l : Lexer) : Lexer :=
  with_tokenBuffer [] (no_cursor l).

(** [l'] is [l] up to how the runes still to be read are split between
    the cache and the reader: same current rune, same runes to come, same
    capture buffer, same everything else. *)
Definition untouched (l l' : Lexer) : Prop :=
  no_lookahead l' = no_lookahead l /\ pending l' = pending l.

(** The literal [t] stands at the current position: its first rune is the
    current one and the rest are the next runes to be read. *)
Definition matches_here (t : gostring) (l : Lexer) : bool :=
  negb (currentRune l =? RuneEOF)%Z
  && negb (is_blank t)
  && runes_eqb t (currentRune l :: firstn (length t - 1) (pending l)).

(** The cache holds no more runes than [CurrentTokenIs t] peeks for (a
    literal of one rune is compared without a peek). *)
Definition lookahead_fits (t : gostring) (l : Lexer) : Prop :=
  length t <= 1 \/ length (runeCache l) < length t.

(** [l1] is [l] moved past the literal [t] that stood at its current
    position, with [buf] in the capture buffer: the current rune is the
    one that followed the literal (or [RuneEOF]), and the runes after it
    are still to be read. *)
Definition past_literal (t : gostring) (buf : list rune) (l l1 : Lexer) : Prop :=
  no_capture l1 = no_capture l
  /\ tokenBuffer l1 = buf
  /\ currentRune l1 = nth (length t - 1) (pending l) RuneEOF
  /\ pending l1 = skipn (length t) (pending l).

Definition sound_EOF (l : Lexer) : Prop :=
  ~ In RuneEOF (pending l) /\ (currentRune l = RuneEOF -> pending l = []).

(** *** Capture-until without lookahead

    When every terminator is at most one rune long and no ignore literal
    is enabled, a capture-until never peeks, and what it does can be read
    off the current rune [cur] and the runes [p] still to be read. *)

(** The first terminator that is the one rune [r]. *)
Definition terminator_at (tkns : list gostring) (r : rune) : option gostring :=
  find (fun t => runes_eqb t [r]) tkns.

(** The outcome of a capture-until from [cur] and [p]. *)
Record Scan := mkScan {
  captured : list rune;
  found : gostring;
  stop_rune : rune;
  stop_pending : list rune
}.

(** The search stops on the sentinel and on the first rune that is a
    terminator; white space is passed over when [skipWhitespace] is set
    and every other rune is captured.  Running out of runes leaves the
    sentinel as the current rune. *)
Fixpoint scan (skipWhitespace : bool) (tkns : list gostring) (cur : rune)
  (p : list rune) {struct p} : Scan :=
  if (cur =? RuneEOF)%Z then mkScan [] [] cur p
  else if skipWhitespace && IsSpace cur then
    match p with
    | [] => mkScan [] [] RuneEOF []
    | r :: p' => scan skipWhitespace tkns r p'
    end
  else
    match terminator_at tkns cur with
    | Some t => mkScan [] t cur p
    | None =>
        match p with
        | [] => mkScan [cur] [] RuneEOF []
        | r :: p' =>
            let s := scan skipWhitespace tkns r p' in
            mkScan (cur :: captured s) (found s) (stop_rune s) (stop_pending s)
        end
    end.

Definition peek_free (tkns : list gostring) : Prop :=
  Forall (fun t : gostring => length t <= 1) tkns.

Definition ignores_disabled (l : Lexer) : Prop :=
  Forall (fun e : gostring * bool => snd e = false) (ignoreTokens l).

(** [l'] is the lexer [l] after the capture-until that [s] describes. *)
Definition scanned (s : Scan) (l l' : Lexer) : Prop :=
  tokenBuffer l' = tokenBuffer l ++ captured s
  /\ currentRune l' = stop_rune s
  /\ pending l' = stop_pending s.

Definition not_space (r : rune) : bool := negb (IsSpace r).

(** The public operations as calls: what a caller or a step function can
    do to a lexer, one constructor per exported method (and the exported
    flag).  [exec] performs a call and drops its result, [exec_all] a
    sequence of calls. *)
Inductive Call : Type :=
| call_AddIgnoreTokens (tkns : list gostring)
| call_RemoveIgnoreTokens (tkns : list gostring)
| call_Emit (ty : TokenType)
| call_EmitToken (tok : Token)
| call_Errorf (msg : gostring)
| call_Flush
| call_CaptureUntil (skipWhitespace : bool) (until : gostring)
| call_CaptureUntilOneOf (skipWhitespace : bool) (tkns : list gostring)
| call_CaptureIdent
| call_ConsumeCurrentToken (clearPrevious : bool)
| call_SkipCurrentToken (clearPrevious : bool)
| call_CurrentTokenIs (t : gostring)
| call_CurrentTokenIsOneOf (tkns : list gostring)
| call_IsEOF
| call_EatWhitespace
| call_set_AutoEatWhitespace (v : bool).

Section Calls.

Variable IsLetter IsDigit : rune -> bool.

Definition exec (c : Call) (l : Lexer) : Outcome Lexer :=
  match c with
  | call_AddIgnoreTokens tkns => Done (AddIgnoreTokens tkns l)
  | call_RemoveIgnoreTokens tkns => Done (RemoveIgnoreTokens tkns l)
  | call_Emit ty => Emit ty l
  | call_EmitToken tok => EmitToken tok l
  | call_Errorf msg => bind (Errorf (LexFn := unit) msg l) (fun r => Done (snd r))
  | call_Flush => Done (snd (Flush l))
  | call_CaptureUntil sk until => Done (snd (CaptureUntil sk until l))
  | call_CaptureUntilOneOf sk tkns => Done (snd (CaptureUntilOneOf sk tkns l))
  | call_CaptureIdent => Done (snd (CaptureIdent IsLetter IsDigit l))
  | call_ConsumeCurrentToken b => Done (snd (ConsumeCurrentToken b l))
  | call_SkipCurrentToken b => Done (snd (SkipCurrentToken b l))
  | call_CurrentTokenIs t => Done (snd (CurrentTokenIs t l))
  | call_CurrentTokenIsOneOf tkns => Done (snd (CurrentTokenIsOneOf tkns l))
  | call_IsEOF => Done l
  | call_EatWhitespace => Done (snd (EatWhitespace l))
  | call_set_AutoEatWhitespace v => Done (with_AutoEatWhitespace v l)
  end.

Fixpoint exec_all (cs : list Call) (l : Lexer) : Outcome Lexer :=
  match cs with
  | [] => Done l
  | c :: rest => bind (exec c l) (exec_all rest)
  end.

End Calls.

(** Every run of a step function amounts to a sequence of calls: step
    functions live outside the package and reach the lexer through its
    exported operations only. *)
Definition steps_are_calls (IsLetter IsDigit : rune -> bool) {LexFn : Type}
  (call : LexFn -> Lexer -> Outcome (option LexFn * Lexer)) : Prop :=
  forall f l next l', call f l = Done (next, l') ->
    exists cs, exec_all IsLetter IsDigit cs l = Done l'.

(** The calls that send a token. *)
Definition emits (c : Call) : nat :=
  match c with
  | call_Emit _ | call_EmitToken _ | call_Errorf _ => 1
  | _ => 0
  end.


(** The queue of the channel and whether it was closed. *)
Definition channel (l : Lexer) : list Token * bool := (tokens l, tokensClosed l).

(** ** The step functions of the examples *)

(** [var chars TokenType = 1] *)
Definition chars : TokenType := 1%Z.

(** Three step functions:
    - [capture_then_emit skipWhitespace]:
      [if l.CaptureUntil(skipWhitespace, "!") { l.Emit(chars) }; return nil],
      the step of the two [CaptureUntil] examples;
    - [return_nil]: [return nil], the step of [ExampleNewLexer];
    - [emit_each tys]: one [l.Emit] per type of [tys], then [return nil]. *)
Inductive ExampleFn : Type :=
| capture_then_emit (skipWhitespace : bool)
| return_nil
| emit_each (tys : list TokenType).

Definition example_call (f : ExampleFn) (l : Lexer)
  : Outcome (option ExampleFn * Lexer) :=
  match f with
  | capture_then_emit sk =>
      let (found, l1) := CaptureUntil sk (runes "!") l in
      if found then bind (Emit chars l1) (fun l2 => Done (None, l2))
      else Done (None, l1)
  | return_nil => Done (None, l)
  | emit_each tys =>
      bind (exec_all (fun _ => false) (fun _ => false) (map call_Emit tys) l)
        (fun l1 => Done (None, l1))
  end.

(** The token a call of [NextEmittedToken] returned, if it returned. *)
Definition returned_token {LexFn : Type}
  (r : option (Outcome (option Token * Driver LexFn))) : option Token :=
  match r with
  | Some (Done (Some tok, _)) => Some tok
  | _ => None
  end.

(** ** Vocabulary of the further properties *)

(** [m[k]] on the association list, [None] for a key the map does not
    hold. *)
Fixpoint map_get (k : gostring) (m : list (gostring * bool)) : option bool :=
  match m with
  | [] => None
  | (k', v) :: rest => if runes_eqb k k' then Some v else map_get k rest
  end.

(** The runes of [s] from its first rune that is not white space. *)
Fixpoint drop_space (s : list rune) : list rune :=
  match s with
  | [] => []
  | r :: s' => if IsSpace r then drop_space s' else s
  end.

(** The entries [skipIgnores] tries: those that are enabled. *)
Definition enabled_ignores (l : Lexer) : list (gostring * bool) :=
  filter (fun e : gostring * bool => snd e) (ignoreTokens l).

(** Every enabled ignore literal is at most one rune long, so that
    [skipIgnores] never peeks. *)
Definition ignores_peek_free (l : Lexer) : Prop :=
  Forall (fun e : gostring * bool => length (fst e) <= 1) (enabled_ignores l).

(** The rune [r] is an enabled ignore literal (the sentinel never is:
    [skipIgnores] returns at once on it). *)
Definition ignored (l : Lexer) (r : rune) : bool :=
  negb (r =? RuneEOF)%Z
  && existsb (fun e : gostring * bool => runes_eqb (fst e) [r])
       (enabled_ignores l).

(** The runes of [s] that are not ignored. *)
Definition visible (l : Lexer) (s : list rune) : list rune :=
  filter (fun r => negb (ignored l r)) s.

(** [scan] on a stream given as one list; nothing left is the sentinel. *)
Definition scan_list (skipWhitespace : bool) (tkns : list gostring)
  (s : list rune) : Scan :=
  match s with
  | [] => mkScan [] [] RuneEOF []
  | cur :: p => scan skipWhitespace tkns cur p
  end.

Section IdentVocabulary.

Variable IsLetter IsDigit : rune -> bool.

(** The runes [CaptureIdent] keeps:
    [unicode.IsLetter(ch) || unicode.IsDigit(ch) || ch == '_']. *)
Definition is_ident (r : rune) : bool :=
  IsLetter r || IsDigit r || (r =? 95)%Z.

(** The longest prefix of [s] made of identifier runes other than the
    sentinel. *)
Fixpoint ident_run (s : list rune) : list rune :=
  match s with
  | [] => []
  | r :: s' =>
      if negb (r =? RuneEOF)%Z && is_ident r then r :: ident_run s' else []
  end.

End IdentVocabulary.

(** The synthetic token of the end of the input:
    [defaultToken{tokenType: TokenTypeEOF, value: StringEOF}]. *)
Definition tokenEOF : Token := defaultToken TokenTypeEOF StringEOF.

(** A driver whose chain has ended, with nothing queued on the open
    channel. *)
Definition finished {LexFn : Type} (d : Driver LexFn) : Prop :=
  state d = None /\ tokens (lxr d) = [] /\ tokensClosed (lxr d) = false.

(** Some token of [tkns] is the key [t] and passes the [TrimSpace] test
    of [AddIgnoreTokens] and [RemoveIgnoreTokens]. *)
Definition names_ignore (t : gostring) (tkns : list gostring) : bool :=
  existsb (fun x => runes_eqb x t && TrimSpace_nonblank x) tkns.

(** The step of [TestEmitError]: [lexer.Errorf(...)] with the message
    it formats, then [return nil]. *)
Inductive ErrorFn : Type :=
| fail_with (msg : gostring).

Definition error_call (f : ErrorFn) (l : Lexer)
  : Outcome (option ErrorFn * Lexer) :=
  match f with
  | fail_with msg => Errorf msg l
  end.

(** Every terminator of [tkns] is one white-space rune, as the entries of
    [WhiteSpace] are. *)
Definition space_terminators (tkns : list gostring) : Prop :=
  Forall (fun t : gostring => exists r, t = [r] /\ IsSpace r = true) tkns.

(** The candidates come in order of length, the shortest first. *)
Fixpoint by_length (tkns : list gostring) : bool :=
  match tkns with
  | [] => true
  | t :: rest =>
      forallb (fun u : gostring => (length t <=? length u)%nat) rest
      && by_length rest
  end.

(** The first candidate of [tkns] that stands at the current position. *)
Definition first_match (tkns : list gostring) (l : Lexer) : option gostring :=
  find (fun t => matches_here t l) tkns.

(** [k] calls of [NextEmittedToken] in a row and what they returned, when
    all of them returned. *)
Fixpoint receive {LexFn : Type}
  (call : LexFn -> Lexer -> Outcome (option LexFn * Lexer))
  (fuel k : nat) (d : Driver LexFn) : option (list (option Token) * Driver LexFn) :=
  match k with
  | O => Some ([], d)
  | S k' =>
      match NextEmittedToken call fuel d with
      | Some (Done (tok, d1)) =>
          match receive call fuel k' d1 with
          | Some (toks, d2) => Some (tok :: toks, d2)
          | None => None
          end
      | _ => None
      end
  end.

(** The runes of [s] before its first sentinel, and those after it. *)
Fixpoint until_nul (s : list rune) : list rune :=
  match s with
  | [] => []
  | r :: s' => if (r =? RuneEOF)%Z then [] else r :: until_nul s'
  end.

Fixpoint after_nul (s : list rune) : list rune :=
  match s with
  | [] => []
  | r :: s' => if (r =? RuneEOF)%Z then s' else after_nul s'
  end.

(** What a capture keeps of the runes it passes: all of them, or those
    that are not white space when [skipWhitespace] is set. *)
Definition kept_runes (skipWhitespace : bool) (s : list rune) : list rune :=
  if skipWhitespace then filter not_space s else s.

(** The runes of [s] from the first one that the end of
    [ConsumeCurrentToken] and [SkipCurrentToken] does not pass over: one
    that is neither an ignored rune nor, when [auto] is set, white
    space. *)
Fixpoint drop_trailing (auto : bool) (ig : rune -> bool) (s : list rune)
  : list rune :=
  match s with
  | [] => []
  | r :: s' => if ig r || (auto && IsSpace r) then drop_trailing auto ig s' else s
  end.

(** A step that tests for a literal and ends the chain:
    [lexer.CurrentTokenIs(t); return nil]. *)
Inductive TestFn : Type :=
| test_then_nil (t : gostring).

Definition test_call (f : TestFn) (l : Lexer)
  : Outcome (option TestFn * Lexer) :=
  match f with
  | test_then_nil t => Done (None, snd (CurrentTokenIs t l))
  end.

(** * Properties *)

Unset Implicit Arguments.

(** ** Basic facts *)

Lemma runes_eqb_eq (a b : list rune) : runes_eqb a b = true <-> a = b.
Proof.
  revert b; induction a as [|x a IH]; intros [|y b]; simpl;
    try (split; [discriminate | congruence]); try tauto.
  rewrite andb_true_iff, Z.eqb_eq, IH.
  split; [intros [-> ->]; reflexivity | intros [= -> ->]; auto].
Qed.

Lemma runes_eqb_refl (a : list rune) : runes_eqb a a = true.
Proof. apply runes_eqb_eq; reflexivity. Qed.

Lemma is_blank_true (s : gostring) : is_blank s = true <-> s = [].
Proof. destruct s; simpl; split; congruence. Qed.

Lemma IsSpace_RuneEOF : IsSpace RuneEOF = false.
Proof. reflexivity. Qed.

Lemma IsSpace_not_EOF (r : rune) : IsSpace r = true -> r <> RuneEOF.
Proof. intros H ->; discriminate H. Qed.

Lemma IsEOF_true (l : Lexer) : IsEOF l = true <-> currentRune l = RuneEOF.
Proof. unfold IsEOF; apply Z.eqb_eq. Qed.

(** ** The weight of a state and the fuel of the loops *)

Lemma weight_unread (l : Lexer) :
  weight l = unread l + (if (currentRune l =? RuneEOF)%Z then 0 else 1).
Proof. reflexivity. Qed.

Lemma read_weight_le (l : Lexer) : weight (snd (read l)) <= weight l.
Proof.
  unfold read, weight.
  destruct (runeCache l) as [|c cs] eqn:Hc;
    [destruct (inputBuffer l) as [|i irest] eqn:Hi|]; simpl; rewrite ?Hc, ?Hi; simpl;
    repeat match goal with |- context [(?x =? ?y)%Z] => destruct (x =? y)%Z end;
    lia.
Qed.

Lemma read_weight_lt (l : Lexer) :
  currentRune l <> RuneEOF -> weight (snd (read l)) < weight l.
Proof.
  intros Hne. apply Z.eqb_neq in Hne.
  unfold read, weight. rewrite Hne.
  destruct (runeCache l) as [|c cs] eqn:Hc;
    [destruct (inputBuffer l) as [|i irest] eqn:Hi|]; simpl; rewrite ?Hc, ?Hi; simpl;
    repeat match goal with |- context [(?x =? ?y)%Z] => destruct (x =? y)%Z end;
    lia.
Qed.

Lemma WriteRune_weight (ch : rune) (l : Lexer) : weight (WriteRune ch l) = weight l.
Proof. reflexivity. Qed.

Lemma read_n_weight_le (n : nat) (l : Lexer) : weight (read_n n l) <= weight l.
Proof.
  revert l; induction n as [|n IH]; intros l; simpl; [lia|].
  specialize (IH (snd (read l))). pose proof (read_weight_le l). lia.
Qed.

Lemma read_n_weight_lt (n : nat) (l : Lexer) :
  currentRune l <> RuneEOF -> 0 < n -> weight (read_n n l) < weight l.
Proof.
  intros Hne Hn. destruct n as [|n]; [lia|]. simpl.
  pose proof (read_n_weight_le n (snd (read l))).
  pose proof (read_weight_lt l Hne). lia.
Qed.

Lemma peek_loop_frame (n : nat) (buf : list rune) (l : Lexer) :
  let r := peek_loop n buf l in
  unread (snd r) + length (fst r) = unread l + length buf
  /\ currentRune (snd r) = currentRune l.
Proof.
  revert buf l; induction n as [|n IH]; intros buf l; simpl; [auto|].
  destruct (runeCache l) as [|c cs] eqn:Hc.
  - destruct (inputBuffer l) as [|i irest] eqn:Hi.
    + apply IH.
    + destruct (IH (buf ++ [i]) (with_inputBuffer irest l)) as [H1 H2].
      split; [|exact H2]. rewrite H1. unfold unread; simpl.
      rewrite Hc, Hi, length_app; simpl; lia.
  - destruct (IH (buf ++ [c]) (with_runeCache cs l)) as [H1 H2].
    split; [|exact H2]. rewrite H1. unfold unread; simpl.
    rewrite Hc, length_app; simpl; lia.
Qed.

Lemma peek_currentRune (n : nat) (l : Lexer) :
  currentRune (snd (peek n l)) = currentRune l.
Proof.
  unfold peek. pose proof (peek_loop_frame n [] l) as [_ H].
  destruct (peek_loop n [] l); simpl in *; exact H.
Qed.

Lemma peek_weight (n : nat) (l : Lexer) : weight (snd (peek n l)) = weight l.
Proof.
  rewrite !weight_unread, peek_currentRune. f_equal.
  unfold peek. pose proof (peek_loop_frame n [] l) as [H _].
  destruct (peek_loop n [] l) as [buf l1]; simpl in *.
  unfold unread in *; simpl. rewrite length_app. lia.
Qed.

(** ** Frames: what an operation cannot touch *)

Lemma no_lookahead_cursor (l l' : Lexer) :
  no_lookahead l' = no_lookahead l -> no_cursor l' = no_cursor l.
Proof. unfold no_cursor; intros ->; reflexivity. Qed.

Lemma no_cursor_capture (l l' : Lexer) :
  no_cursor l' = no_cursor l -> no_capture l' = no_capture l.
Proof. unfold no_capture; intros ->; reflexivity. Qed.

Lemma no_lookahead_fields (l l' : Lexer) :
  no_lookahead l' = no_lookahead l ->
  currentRune l' = currentRune l /\ tokenBuffer l' = tokenBuffer l
  /\ lastKnownToken l' = lastKnownToken l.
Proof.
  intros H.
  pose proof (f_equal currentRune H) as H1.
  pose proof (f_equal tokenBuffer H) as H2.
  pose proof (f_equal lastKnownToken H) as H3.
  simpl in *; auto.
Qed.

Lemma no_cursor_fields (l l' : Lexer) :
  no_cursor l' = no_cursor l ->
  tokenBuffer l' = tokenBuffer l /\ lastKnownToken l' = lastKnownToken l
  /\ AutoEatWhitespace l' = AutoEatWhitespace l
  /\ ignoreTokens l' = ignoreTokens l.
Proof.
  intros H.
  pose proof (f_equal tokenBuffer H) as H1.
  pose proof (f_equal lastKnownToken H) as H2.
  pose proof (f_equal AutoEatWhitespace H) as H3.
  pose proof (f_equal ignoreTokens H) as H4.
  simpl in *; auto.
Qed.

Lemma no_capture_fields (l l' : Lexer) :
  no_capture l' = no_capture l ->
  lastKnownToken l' = lastKnownToken l
  /\ AutoEatWhitespace l' = AutoEatWhitespace l
  /\ ignoreTokens l' = ignoreTokens l
  /\ tokens l' = tokens l /\ tokensClosed l' = tokensClosed l.
Proof.
  intros H.
  pose proof (f_equal lastKnownToken H) as H2.
  pose proof (f_equal AutoEatWhitespace H) as H3.
  pose proof (f_equal ignoreTokens H) as H4.
  pose proof (f_equal tokens H) as H5.
  pose proof (f_equal tokensClosed H) as H6.
  simpl in *; auto.
Qed.

Lemma read_no_cursor (l : Lexer) : no_cursor (snd (read l)) = no_cursor l.
Proof.
  unfold read. destruct (runeCache l); [destruct (inputBuffer l)|]; reflexivity.
Qed.

Lemma read_n_no_cursor (n : nat) (l : Lexer) : no_cursor (read_n n l) = no_cursor l.
Proof.
  revert l; induction n as [|n IH]; intros l; simpl; [reflexivity|].
  rewrite IH. apply read_no_cursor.
Qed.

Lemma peek_loop_no_lookahead (n : nat) (buf : list rune) (l : Lexer) :
  no_lookahead (snd (peek_loop n buf l)) = no_lookahead l.
Proof.
  revert buf l; induction n as [|n IH]; intros buf l; simpl; [reflexivity|].
  destruct (runeCache l); [destruct (inputBuffer l)|]; rewrite IH; reflexivity.
Qed.

Lemma peek_no_lookahead (n : nat) (l : Lexer) :
  no_lookahead (snd (peek n l)) = no_lookahead l.
Proof.
  unfold peek. pose proof (peek_loop_no_lookahead n [] l) as H.
  destruct (peek_loop n [] l) as [buf l1]; simpl in *. exact H.
Qed.

Lemma CurrentTokenIsOneOf_loop_frame (tkns : list gostring) (l : Lexer) :
  no_lookahead (snd (CurrentTokenIsOneOf_loop tkns l)) = no_lookahead l
  /\ weight (snd (CurrentTokenIsOneOf_loop tkns l)) = weight l.
Proof.
  revert l; induction tkns as [|tkn rest IH]; intros l; [cbn; auto|].
  destruct tkn as [|t0 ttail]; cbn [CurrentTokenIsOneOf_loop]; [apply IH|].
  destruct (negb (t0 =? currentRune l)%Z); [apply IH|].
  destruct (0 <? length ttail).
  - pose proof (peek_no_lookahead (length ttail) l) as Hp.
    pose proof (peek_weight (length ttail) l) as Hw.
    destruct (peek (length ttail) l) as [peeks l']; cbn [fst snd] in *.
    destruct (runes_eqb _ _); cbn [fst snd]; [auto|].
    destruct (IH l') as [H1 H2]. rewrite H1, H2. auto.
  - destruct (runes_eqb _ _); cbn [fst snd]; [auto | apply IH].
Qed.

Lemma CurrentTokenIsOneOf_frame (tkns : list gostring) (l : Lexer) :
  no_lookahead (snd (CurrentTokenIsOneOf tkns l)) = no_lookahead l
  /\ weight (snd (CurrentTokenIsOneOf tkns l)) = weight l.
Proof.
  unfold CurrentTokenIsOneOf.
  destruct (currentRune l =? RuneEOF)%Z; [auto|].
  pose proof (CurrentTokenIsOneOf_loop_frame tkns l) as H.
  destruct (CurrentTokenIsOneOf_loop tkns l); exact H.
Qed.

Lemma CurrentTokenIs_frame (t : gostring) (l : Lexer) :
  no_lookahead (snd (CurrentTokenIs t l)) = no_lookahead l
  /\ weight (snd (CurrentTokenIs t l)) = weight l.
Proof.
  unfold CurrentTokenIs.
  pose proof (CurrentTokenIsOneOf_frame [t] l) as H.
  destruct (CurrentTokenIsOneOf [t] l); exact H.
Qed.

Lemma CurrentTokenIs_currentRune (t : gostring) (l : Lexer) :
  currentRune (snd (CurrentTokenIs t l)) = currentRune l.
Proof.
  destruct (CurrentTokenIs_frame t l) as [H _].
  apply no_lookahead_fields in H; tauto.
Qed.

(** A literal that matched is not the empty string, and the lexer is not
    at the end of the input. *)
Lemma CurrentTokenIs_hit (t : gostring) (l : Lexer) :
  fst (CurrentTokenIs t l) = true -> t <> [] /\ currentRune l <> RuneEOF.
Proof.
  unfold CurrentTokenIs, CurrentTokenIsOneOf.
  destruct (currentRune l =? RuneEOF)%Z eqn:He; [discriminate|].
  apply Z.eqb_neq in He.
  destruct t as [|t0 tt]; cbn [fst snd]; [discriminate|].
  intros _; split; [discriminate | exact He].
Qed.

Lemma find_token_frame (tkns : list gostring) (l : Lexer) :
  no_lookahead (snd (find_token tkns l)) = no_lookahead l
  /\ weight (snd (find_token tkns l)) = weight l.
Proof.
  revert l; induction tkns as [|tkn rest IH]; intros l; cbn [find_token fst snd]; [auto|].
  destruct (is_blank tkn); [apply IH|].
  pose proof (CurrentTokenIs_frame tkn l) as [H1 H2].
  destruct (CurrentTokenIs tkn l) as [hit l1]; cbn [fst snd] in *.
  destruct hit; cbn [fst snd]; [auto|].
  destruct (IH l1) as [H3 H4]. rewrite H3, H4; auto.
Qed.

Lemma skipIgnores_loop_frame (entries : list (gostring * bool)) (l : Lexer) :
  no_cursor (snd (skipIgnores_loop entries l)) = no_cursor l
  /\ weight (snd (skipIgnores_loop entries l)) <= weight l
  /\ (fst (skipIgnores_loop entries l) = true ->
      weight (snd (skipIgnores_loop entries l)) < weight l).
Proof.
  revert l; induction entries as [|[ignore doit] rest IH]; intros l;
    cbn [skipIgnores_loop fst snd].
  - repeat split; [lia | discriminate].
  - destruct doit; [|apply IH].
    pose proof (CurrentTokenIs_frame ignore l) as [H1 H2].
    pose proof (CurrentTokenIs_hit ignore l) as Hh.
    pose proof (CurrentTokenIs_currentRune ignore l) as Hc.
    destruct (CurrentTokenIs ignore l) as [hit l1]; cbn [fst snd] in *.
    destruct hit; cbn [fst snd].
    + destruct (Hh eq_refl) as [Hne Hcur].
      assert (0 < length ignore) by (destruct ignore; simpl; [congruence | lia]).
      rewrite <- Hc in Hcur.
      pose proof (read_n_weight_lt (length ignore) l1 Hcur H).
      rewrite read_n_no_cursor. split; [apply no_lookahead_cursor, H1|].
      split; [lia | intros _; lia].
    + destruct (IH l1) as (H3 & H4 & H5).
      rewrite H3. split; [apply no_lookahead_cursor, H1|].
      split; [lia | intros Ht; specialize (H5 Ht); lia].
Qed.

Lemma skipIgnores_frame (l : Lexer) :
  no_cursor (snd (skipIgnores l)) = no_cursor l
  /\ weight (snd (skipIgnores l)) <= weight l
  /\ (fst (skipIgnores l) = true -> weight (snd (skipIgnores l)) < weight l).
Proof.
  unfold skipIgnores. destruct (currentRune l =? RuneEOF)%Z.
  - simpl; repeat split; [lia | discriminate].
  - apply skipIgnores_loop_frame.
Qed.

(** When no ignore literal matched, [skipIgnores] only looked ahead. *)
Lemma skipIgnores_loop_miss (entries : list (gostring * bool)) (l : Lexer) :
  fst (skipIgnores_loop entries l) = false ->
  no_lookahead (snd (skipIgnores_loop entries l)) = no_lookahead l.
Proof.
  revert l; induction entries as [|[ignore doit] rest IH]; intros l;
    cbn [skipIgnores_loop fst snd]; [reflexivity|].
  destruct doit; [|apply IH].
  pose proof (CurrentTokenIs_frame ignore l) as [H1 _].
  destruct (CurrentTokenIs ignore l) as [hit l1]; cbn [fst snd] in *.
  destruct hit; cbn [fst snd]; [discriminate|].
  intros Hm. rewrite (IH l1 Hm). exact H1.
Qed.

Lemma skipIgnores_miss (l : Lexer) :
  fst (skipIgnores l) = false ->
  no_lookahead (snd (skipIgnores l)) = no_lookahead l.
Proof.
  unfold skipIgnores. destruct (currentRune l =? RuneEOF)%Z; [reflexivity|].
  apply skipIgnores_loop_miss.
Qed.

Lemma EatWhitespace_loop_frame (n : nat) (l : Lexer) :
  no_cursor (snd (EatWhitespace_loop n l)) = no_cursor l
  /\ weight (snd (EatWhitespace_loop n l)) <= weight l.
Proof.
  revert l; induction n as [|n IH]; intros l; cbn [EatWhitespace_loop fst snd];
    [split; [reflexivity | lia]|].
  pose proof (read_no_cursor l) as Hr. pose proof (read_weight_le l) as Hw.
  destruct (currentRune (snd (read l)) =? RuneEOF)%Z; cbn [fst snd]; [auto|].
  destruct (negb (IsSpace (currentRune (snd (read l))))); cbn [fst snd]; [auto|].
  destruct (IH (snd (read l))) as [H1 H2]. rewrite H1. split; [exact Hr | lia].
Qed.

Lemma EatWhitespace_frame (l : Lexer) :
  no_cursor (snd (EatWhitespace l)) = no_cursor l
  /\ weight (snd (EatWhitespace l)) <= weight l
  /\ (fst (EatWhitespace l) = true -> weight (snd (EatWhitespace l)) < weight l).
Proof.
  unfold EatWhitespace.
  destruct (IsSpace (currentRune l)) eqn:Hs; cbn [negb fst snd].
  2:{ repeat split; [lia | discriminate]. }
  apply IsSpace_not_EOF in Hs.
  unfold fuel_of; cbn [EatWhitespace_loop].
  pose proof (read_no_cursor l) as Hr. pose proof (read_weight_lt l Hs) as Hw.
  destruct (currentRune (snd (read l)) =? RuneEOF)%Z; cbn [fst snd];
    [repeat split; [exact Hr | lia | discriminate]|].
  destruct (negb (IsSpace (currentRune (snd (read l))))); cbn [fst snd];
    [repeat split; [exact Hr | lia | lia]|].
  destruct (EatWhitespace_loop_frame (weight l) (snd (read l))) as [H1 H2].
  rewrite H1. repeat split; [exact Hr | lia | lia].
Qed.

Lemma autoEat_frame (l : Lexer) :
  no_cursor (autoEat l) = no_cursor l /\ weight (autoEat l) <= weight l.
Proof.
  unfold autoEat. destruct (AutoEatWhitespace l); [|split; [reflexivity | lia]].
  destruct (EatWhitespace_frame l) as (H1 & H2 & _); auto.
Qed.

(** ** The fuel is enough

    Past [weight l] the loops give the same answer whatever the fuel: the
    branch that runs out of it is not the one that produced the result. *)

Lemma EatWhitespace_loop_fuel (n m : nat) (l : Lexer) :
  currentRune l <> RuneEOF -> weight l < n -> weight l < m ->
  EatWhitespace_loop n l = EatWhitespace_loop m l.
Proof.
  revert m l; induction n as [|n IH]; intros m l Hne Hn Hm; [lia|].
  destruct m as [|m]; [lia|]. cbn [EatWhitespace_loop].
  pose proof (read_weight_lt l Hne) as Hw.
  destruct (currentRune (snd (read l)) =? RuneEOF)%Z eqn:He; [reflexivity|].
  destruct (negb (IsSpace (currentRune (snd (read l))))); [reflexivity|].
  apply Z.eqb_neq in He. apply IH; [exact He | lia | lia].
Qed.

Lemma CaptureUntilOneOf_loop_fuel (n m : nat) (sk : bool)
  (tkns : list gostring) (l : Lexer) :
  weight l < n -> weight l < m ->
  CaptureUntilOneOf_loop n sk tkns l = CaptureUntilOneOf_loop m sk tkns l.
Proof.
  revert m l; induction n as [|n IH]; intros m l Hn Hm; [lia|].
  destruct m as [|m]; [lia|]. cbn [CaptureUntilOneOf_loop].
  assert (Hate : forall ate l1,
             (if sk then EatWhitespace l else (false, l)) = (ate, l1) ->
             weight l1 <= weight l /\ (ate = true -> weight l1 < weight l)).
  { intros ate l1 E. destruct sk.
    - destruct (EatWhitespace_frame l) as (_ & H2 & H3).
      rewrite E in H2, H3; cbn [fst snd] in *; auto.
    - injection E as <- <-. split; [lia | discriminate]. }
  destruct (if sk then EatWhitespace l else (false, l)) as [ate l1].
  destruct (Hate ate l1 eq_refl) as [Hle Hlt].
  destruct ate; [apply IH; specialize (Hlt eq_refl); lia|].
  destruct (currentRune l1 =? RuneEOF)%Z eqn:He; [reflexivity|].
  apply Z.eqb_neq in He.
  destruct (skipIgnores_frame l1) as (_ & Hs2 & Hs3).
  pose proof (skipIgnores_miss l1) as Hmiss.
  destruct (skipIgnores l1) as [skipped l2]; cbn [fst snd] in *.
  destruct skipped; [apply IH; specialize (Hs3 eq_refl); lia|].
  destruct (find_token_frame tkns l2) as [Hf1 Hf2].
  destruct (find_token tkns l2) as [foundToken l3]; cbn [fst snd] in *.
  destruct (negb (is_blank foundToken)); [reflexivity|].
  assert (Hc3 : currentRune (WriteRune (currentRune l1) l3) <> RuneEOF).
  { apply no_lookahead_fields in Hf1. destruct Hf1 as (Hc & _).
    specialize (Hmiss eq_refl). apply no_lookahead_fields in Hmiss.
    destruct Hmiss as (Hc' & _). cbn. congruence. }
  pose proof (read_weight_lt _ Hc3) as Hr.
  rewrite WriteRune_weight in Hr.
  apply IH; lia.
Qed.

Lemma skipIgnores_repeat_fuel (n m : nat) (l : Lexer) :
  weight l < n -> weight l < m ->
  skipIgnores_repeat n l = skipIgnores_repeat m l.
Proof.
  revert m l; induction n as [|n IH]; intros m l Hn Hm; [lia|].
  destruct m as [|m]; [lia|]. cbn [skipIgnores_repeat].
  destruct (skipIgnores_frame l) as (_ & _ & Hs).
  destruct (skipIgnores l) as [skipped l1]; cbn [fst snd] in *.
  destruct skipped; [|reflexivity].
  specialize (Hs eq_refl). destruct (autoEat_frame l1) as [_ Ha].
  apply IH; lia.
Qed.

Lemma CaptureIdent_loop_fuel (IsLetter IsDigit : rune -> bool) (n m : nat)
  (foundIdent : bool) (l : Lexer) :
  weight l < n -> weight l < m ->
  CaptureIdent_loop IsLetter IsDigit n foundIdent l
  = CaptureIdent_loop IsLetter IsDigit m foundIdent l.
Proof.
  revert m foundIdent l; induction n as [|n IH]; intros m b l Hn Hm; [lia|].
  destruct m as [|m]; [lia|]. cbn [CaptureIdent_loop].
  destruct (currentRune l =? RuneEOF)%Z eqn:He; [reflexivity|].
  apply Z.eqb_neq in He.
  destruct (skipIgnores_frame l) as (_ & Hs2 & Hs3).
  pose proof (skipIgnores_miss l) as Hmiss.
  destruct (skipIgnores l) as [skipped l1]; cbn [fst snd] in *.
  destruct skipped.
  - specialize (Hs3 eq_refl). destruct (autoEat_frame l1) as [_ Ha].
    apply IH; lia.
  - destruct (_ && _); [reflexivity|].
    specialize (Hmiss eq_refl). apply no_lookahead_fields in Hmiss.
    destruct Hmiss as (Hc & _).
    assert (Hc1 : currentRune (WriteRune (currentRune l) l1) <> RuneEOF)
      by (cbn; congruence).
    pose proof (read_weight_lt _ Hc1) as Hr. rewrite WriteRune_weight in Hr.
    apply IH; lia.
Qed.

(** The capture loops touch the cursor and the capture buffer only. *)
Lemma CaptureUntilOneOf_loop_frame (n : nat) (sk : bool)
  (tkns : list gostring) (l : Lexer) :
  no_capture (snd (CaptureUntilOneOf_loop n sk tkns l)) = no_capture l.
Proof.
  revert l; induction n as [|n IH]; intros l; cbn [CaptureUntilOneOf_loop];
    [reflexivity|].
  assert (Hate : forall ate l1,
             (if sk then EatWhitespace l else (false, l)) = (ate, l1) ->
             no_cursor l1 = no_cursor l).
  { intros ate l1 E. destruct sk.
    - destruct (EatWhitespace_frame l) as (H1 & _).
      rewrite E in H1; exact H1.
    - injection E as <- <-. reflexivity. }
  destruct (if sk then EatWhitespace l else (false, l)) as [ate l1].
  specialize (Hate ate l1 eq_refl). apply no_cursor_capture in Hate.
  destruct ate; [rewrite IH; exact Hate|].
  destruct (currentRune l1 =? RuneEOF)%Z; [exact Hate|].
  destruct (skipIgnores_frame l1) as (Hs & _).
  destruct (skipIgnores l1) as [skipped l2]; cbn [fst snd] in *.
  apply no_cursor_capture in Hs.
  destruct skipped; [rewrite IH; congruence|].
  destruct (find_token_frame tkns l2) as [Hf _].
  destruct (find_token tkns l2) as [foundToken l3]; cbn [fst snd] in *.
  apply no_lookahead_cursor, no_cursor_capture in Hf.
  destruct (negb (is_blank foundToken)); cbn [snd]; [congruence|].
  rewrite IH.
  pose proof (read_no_cursor (WriteRune (currentRune l1) l3)) as Hr.
  apply no_cursor_capture in Hr. rewrite Hr.
  transitivity (no_capture l3); [reflexivity | congruence].
Qed.

Lemma skipIgnores_repeat_frame (n : nat) (l : Lexer) :
  no_cursor (skipIgnores_repeat n l) = no_cursor l.
Proof.
  revert l; induction n as [|n IH]; intros l; cbn [skipIgnores_repeat];
    [reflexivity|].
  destruct (skipIgnores_frame l) as (Hs & _).
  destruct (skipIgnores l) as [skipped l1]; cbn [fst snd] in *.
  destruct skipped; [|exact Hs].
  rewrite IH. destruct (autoEat_frame l1) as [Ha _]. congruence.
Qed.

Lemma eat_trailing_frame (l : Lexer) : no_cursor (eat_trailing l) = no_cursor l.
Proof.
  unfold eat_trailing. rewrite skipIgnores_repeat_frame.
  apply autoEat_frame.
Qed.

(** ** At the end of the input

    Once [currentRune] is [RuneEOF], the operations that would move the
    cursor return at once and leave the lexer as it is. *)

Lemma CurrentTokenIsOneOf_at_EOF (tkns : list gostring) (l : Lexer) :
  currentRune l = RuneEOF -> CurrentTokenIsOneOf tkns l = ((false, []), l).
Proof. intros H; unfold CurrentTokenIsOneOf; rewrite H; reflexivity. Qed.

Lemma CurrentTokenIs_at_EOF (t : gostring) (l : Lexer) :
  currentRune l = RuneEOF -> CurrentTokenIs t l = (false, l).
Proof.
  intros H; unfold CurrentTokenIs; rewrite CurrentTokenIsOneOf_at_EOF by exact H.
  reflexivity.
Qed.

Lemma EatWhitespace_at_EOF (l : Lexer) :
  currentRune l = RuneEOF -> EatWhitespace l = (false, l).
Proof. intros H; unfold EatWhitespace; rewrite H; reflexivity. Qed.

Lemma autoEat_at_EOF (l : Lexer) : currentRune l = RuneEOF -> autoEat l = l.
Proof.
  intros H; unfold autoEat; rewrite EatWhitespace_at_EOF by exact H.
  destruct (AutoEatWhitespace l); reflexivity.
Qed.

Lemma skipIgnores_at_EOF (l : Lexer) :
  currentRune l = RuneEOF -> skipIgnores l = (false, l).
Proof. intros H; unfold skipIgnores; rewrite H; reflexivity. Qed.

Lemma eat_trailing_at_EOF (l : Lexer) :
  currentRune l = RuneEOF -> eat_trailing l = l.
Proof.
  intros H; unfold eat_trailing, fuel_of. rewrite autoEat_at_EOF by exact H.
  cbn [skipIgnores_repeat]. rewrite skipIgnores_at_EOF by exact H. reflexivity.
Qed.

Lemma CaptureUntilOneOf_at_EOF (sk : bool) (tkns : list gostring) (l : Lexer) :
  currentRune l = RuneEOF -> CaptureUntilOneOf sk tkns l = ([], l).
Proof.
  intros H; unfold CaptureUntilOneOf; rewrite H, orb_true_r; reflexivity.
Qed.

Lemma CaptureUntil_at_EOF (sk : bool) (until : gostring) (l : Lexer) :
  currentRune l = RuneEOF -> CaptureUntil sk until l = (false, l).
Proof.
  intros H; unfold CaptureUntil. destruct (is_blank until); [reflexivity|].
  rewrite CaptureUntilOneOf_at_EOF by exact H. reflexivity.
Qed.

Lemma CaptureIdent_at_EOF (IsLetter IsDigit : rune -> bool) (l : Lexer) :
  currentRune l = RuneEOF -> CaptureIdent IsLetter IsDigit l = (false, l).
Proof.
  intros H; unfold CaptureIdent, fuel_of. rewrite autoEat_at_EOF by exact H.
  cbn [CaptureIdent_loop]. rewrite H; cbn [Z.eqb RuneEOF].
  rewrite autoEat_at_EOF, skipIgnores_at_EOF by exact H. reflexivity.
Qed.

Lemma ConsumeCurrentToken_at_EOF (clearPrevious : bool) (l : Lexer) :
  currentRune l = RuneEOF -> ConsumeCurrentToken clearPrevious l = (false, l).
Proof.
  intros H; unfold ConsumeCurrentToken. destruct (is_blank _); [reflexivity|].
  rewrite CurrentTokenIs_at_EOF by exact H. reflexivity.
Qed.

Lemma SkipCurrentToken_at_EOF (clearPrevious : bool) (l : Lexer) :
  currentRune l = RuneEOF -> SkipCurrentToken clearPrevious l = (false, l).
Proof.
  intros H; unfold SkipCurrentToken.
  rewrite CurrentTokenIs_at_EOF by exact H.
  destruct (is_blank _); reflexivity.
Qed.

(** ** The cursor: what is still to be read *)

Lemma lexer_ext (l l' : Lexer) :
  no_lookahead l' = no_lookahead l ->
  runeCache l' = runeCache l -> inputBuffer l' = inputBuffer l -> l' = l.
Proof.
  destruct l, l'; unfold no_lookahead; cbn.
  intros [= -> -> -> -> -> -> -> -> ->] -> ->. reflexivity.
Qed.

Lemma peek_loop_spec (n : nat) (buf : list rune) (l : Lexer) :
  fst (peek_loop n buf l) = buf ++ firstn n (pending l)
  /\ runeCache (snd (peek_loop n buf l)) = skipn n (runeCache l)
  /\ inputBuffer (snd (peek_loop n buf l))
     = skipn (n - length (runeCache l)) (inputBuffer l).
Proof.
  revert buf l; induction n as [|n IH]; intros buf l; cbn [peek_loop].
  - cbn. rewrite app_nil_r. auto.
  - unfold pending.
    destruct (runeCache l) as [|c cs] eqn:Hc.
    + destruct (inputBuffer l) as [|i irest] eqn:Hi.
      * destruct (IH buf l) as (H1 & H2 & H3).
        rewrite H1, H2, H3. unfold pending. rewrite Hc, Hi.
        cbn. rewrite !firstn_nil, !skipn_nil. auto.
      * destruct (IH (buf ++ [i]) (with_inputBuffer irest l)) as (H1 & H2 & H3).
        rewrite H1, H2, H3. unfold pending. cbn. rewrite Hc. cbn.
        rewrite <- app_assoc. cbn. rewrite Nat.sub_0_r, skipn_nil. auto.
    + destruct (IH (buf ++ [c]) (with_runeCache cs l)) as (H1 & H2 & H3).
      rewrite H1, H2, H3. unfold pending. cbn.
      rewrite <- app_assoc. cbn. auto.
Qed.

(** What [peek] does to the cache in general: the runes it took from the
    cache are put back behind those it left there. *)
Lemma peek_spec (n : nat) (l : Lexer) :
  fst (peek n l) = firstn n (pending l)
  /\ runeCache (snd (peek n l)) = skipn n (runeCache l) ++ firstn n (pending l)
  /\ inputBuffer (snd (peek n l))
     = skipn (n - length (runeCache l)) (inputBuffer l).
Proof.
  unfold peek. destruct (peek_loop_spec n [] l) as (H1 & H2 & H3).
  destruct (peek_loop n [] l) as [buf l1]; cbn [fst snd] in *.
  subst buf. cbn. rewrite H2, H3. auto.
Qed.

(** When the cache holds no more than [peek] is asked for, the runes still
    to be read stay in their order. *)
Lemma peek_keeps_pending (n : nat) (l : Lexer) :
  length (runeCache l) <= n -> pending (snd (peek n l)) = pending l.
Proof.
  intros Hle. destruct (peek_spec n l) as (_ & H2 & H3).
  unfold pending at 1. rewrite H2, H3.
  rewrite skipn_all2 by exact Hle. cbn [app].
  unfold pending. rewrite firstn_app.
  rewrite (firstn_all2 (n:=n) (runeCache l)) by exact Hle.
  rewrite <- app_assoc, firstn_skipn. reflexivity.
Qed.

Lemma read_pending (l : Lexer) :
  fst (read l) = hd RuneEOF (pending l)
  /\ currentRune (snd (read l)) = hd RuneEOF (pending l)
  /\ pending (snd (read l)) = tl (pending l).
Proof.
  unfold read, pending.
  destruct (runeCache l) as [|c cs] eqn:Hc;
    [destruct (inputBuffer l) as [|i irest] eqn:Hi|]; cbn; rewrite ?Hc, ?Hi; auto.
Qed.

Lemma advance_pending (k : nat) (l : Lexer) :
  k <= length (pending l) ->
  fst (advance k l) = firstn k (pending l)
  /\ pending (snd (advance k l)) = skipn k (pending l).
Proof.
  revert l; induction k as [|k IH]; intros l Hk; cbn [advance]; [auto|].
  destruct (read_pending l) as (H1 & _ & H3).
  destruct (read l) as [ch l1]; cbn [fst snd] in *.
  destruct (pending l) as [|p ps] eqn:Hp; cbn in Hk; [lia|].
  cbn in H1, H3. subst ch.
  destruct (IH l1) as [H4 H5]; [rewrite H3; lia|].
  destruct (advance k l1) as [chs l2]; cbn [fst snd] in *.
  rewrite H4, H5, H3. auto.
Qed.

(** Where the claim of the lookahead cache holds: a [peek] for at least as
    many runes as the cache holds is replayed by the reads that follow. *)
Lemma peek_then_advance (n : nat) (l : Lexer) :
  length (runeCache l) <= n ->
  fst (advance (length (fst (peek n l))) (snd (peek n l))) = fst (peek n l).
Proof.
  intros Hle. destruct (peek_spec n l) as (H1 & _).
  pose proof (peek_keeps_pending n l Hle) as Hp.
  rewrite H1 at 2.
  destruct (advance_pending (length (fst (peek n l))) (snd (peek n l))) as [Ha _].
  - rewrite Hp, H1. rewrite length_firstn. lia.
  - rewrite Ha, Hp, H1, length_firstn.
    rewrite <- (firstn_skipn n (pending l)) at 2.
    rewrite firstn_app, length_firstn.
    replace (Nat.min n _ - Nat.min n _) with 0 by lia.
    rewrite firstn_O, app_nil_r. apply firstn_all2. rewrite length_firstn. lia.
Qed.

(** ** Matching a literal at the current position *)

Lemma CurrentTokenIs_spec (t : gostring) (l : Lexer) :
  lookahead_fits t l ->
  fst (CurrentTokenIs t l) = matches_here t l
  /\ pending (snd (CurrentTokenIs t l)) = pending l.
Proof.
  intros Hfit. unfold CurrentTokenIs, CurrentTokenIsOneOf, matches_here.
  destruct (currentRune l =? RuneEOF)%Z eqn:He; [cbn; auto|].
  cbn [negb andb]. destruct t as [|t0 tt]; [cbn; auto|].
  cbn [CurrentTokenIsOneOf_loop is_blank negb andb length].
  rewrite Nat.sub_succ, Nat.sub_0_r.
  destruct (t0 =? currentRune l)%Z eqn:E0; cbn [negb].
  2:{ cbn. rewrite E0. auto. }
  destruct (0 <? length tt) eqn:Hlen.
  - assert (Hle : length (runeCache l) <= length tt).
    { apply Nat.ltb_lt in Hlen. destruct Hfit as [H|H]; cbn in H; lia. }
    destruct (peek_spec (length tt) l) as (Hp & _).
    pose proof (peek_keeps_pending (length tt) l Hle) as Hk.
    destruct (peek (length tt) l) as [peeks l1]; cbn [fst snd] in *.
    subst peeks.
    destruct (runes_eqb _ _); cbn; auto.
  - apply Nat.ltb_ge in Hlen. assert (tt = []) by (destruct tt; cbn in *; [auto | lia]).
    subst tt. cbn. rewrite E0. cbn. auto.
Qed.

Lemma matches_here_true (t : gostring) (l : Lexer) :
  matches_here t l = true ->
  currentRune l <> RuneEOF
  /\ t = currentRune l :: firstn (length t - 1) (pending l)
  /\ length t - 1 <= length (pending l).
Proof.
  unfold matches_here. rewrite !andb_true_iff, !negb_true_iff, Z.eqb_neq, runes_eqb_eq.
  intros [[H1 H2] H3]. repeat split; auto.
  assert (Hl : length t = S (length (firstn (length t - 1) (pending l))))
    by (rewrite H3 at 1; reflexivity).
  rewrite length_firstn in Hl. lia.
Qed.

(** ** Reading and buffering *)

Lemma read_with_tokenBuffer (b : list rune) (l : Lexer) :
  read (with_tokenBuffer b l)
  = (fst (read l), with_tokenBuffer b (snd (read l))).
Proof.
  unfold read. cbn.
  destruct (runeCache l); [destruct (inputBuffer l)|]; reflexivity.
Qed.

Lemma advance_with_tokenBuffer (k : nat) (b : list rune) (l : Lexer) :
  advance k (with_tokenBuffer b l)
  = (fst (advance k l), with_tokenBuffer b (snd (advance k l))).
Proof.
  revert l; induction k as [|k IH]; intros l; cbn [advance]; [reflexivity|].
  rewrite read_with_tokenBuffer.
  destruct (read l) as [ch l1]; cbn [fst snd].
  rewrite IH. destruct (advance k l1); reflexivity.
Qed.

Lemma advance_no_cursor (k : nat) (l : Lexer) :
  no_cursor (snd (advance k l)) = no_cursor l.
Proof.
  revert l; induction k as [|k IH]; intros l; cbn [advance]; [reflexivity|].
  pose proof (read_no_cursor l) as Hr.
  destruct (read l) as [ch l1]; cbn [fst snd] in *.
  specialize (IH l1). destruct (advance k l1); cbn [snd] in *. congruence.
Qed.

Lemma read_n_advance (k : nat) (l : Lexer) : read_n k l = snd (advance k l).
Proof.
  revert l; induction k as [|k IH]; intros l; cbn [advance read_n]; [reflexivity|].
  rewrite IH. destruct (read l) as [ch l1]; cbn [snd].
  destruct (advance k l1); reflexivity.
Qed.

Lemma read_write_n_advance (k : nat) (l : Lexer) :
  read_write_n k l
  = with_tokenBuffer (tokenBuffer l ++ fst (advance k l)) (snd (advance k l)).
Proof.
  revert l; induction k as [|k IH]; intros l; cbn [advance read_write_n].
  - cbn [fst snd]. rewrite app_nil_r. destruct l; reflexivity.
  - pose proof (read_no_cursor l) as Hr.
    destruct (read l) as [ch l1]; cbn [fst snd] in *.
    rewrite IH. unfold WriteRune. rewrite advance_with_tokenBuffer.
    apply no_cursor_fields in Hr. destruct Hr as (Hb & _).
    destruct (advance k l1) as [chs l2]; cbn [fst snd].
    cbn. rewrite Hb, <- app_assoc. reflexivity.
Qed.

(** The current rune after [k] reads, for [0 < k]. *)
Lemma advance_currentRune (k : nat) (l : Lexer) :
  currentRune (snd (advance (S k) l)) = nth k (pending l) RuneEOF.
Proof.
  revert l; induction k as [|k IH]; intros l.
  - cbn [advance]. destruct (read_pending l) as (_ & H2 & _).
    destruct (read l) as [ch l1]; cbn [fst snd] in *.
    rewrite H2. destruct (pending l); reflexivity.
  - specialize (IH (snd (read l))).
    destruct (read_pending l) as (_ & _ & H3).
    change (advance (S (S k)) l)
      with (let (ch, l1) := read l in
            let (chs, l2) := advance (S k) l1 in (ch :: chs, l2)).
    destruct (read l) as [ch l1]; cbn [fst snd] in *.
    destruct (advance (S k) l1) as [chs l2]; cbn [fst snd] in *.
    rewrite IH, H3. destruct (pending l); [destruct k|]; reflexivity.
Qed.

Lemma read_n_snoc (k : nat) (l : Lexer) :
  read_n (S k) l = snd (read (read_n k l)).
Proof.
  revert l; induction k as [|k IH]; intros l; [reflexivity|].
  change (read_n (S (S k)) l) with (read_n (S k) (snd (read l))).
  rewrite IH. reflexivity.
Qed.

Lemma read_n_pending (k : nat) (l : Lexer) :
  pending (read_n k l) = skipn k (pending l).
Proof.
  revert l; induction k as [|k IH]; intros l; cbn [read_n]; [reflexivity|].
  rewrite IH. destruct (read_pending l) as (_ & _ & H). rewrite H.
  destruct (pending l); [rewrite !skipn_nil|]; reflexivity.
Qed.

Lemma commit_skip (kept : list rune) (t : gostring) (l : Lexer) :
  t <> [] ->
  past_literal t kept l (read_n (length t) (with_tokenBuffer kept l)).
Proof.
  intros Hne. destruct t as [|t0 tt]; [congruence|]. cbn [length].
  unfold past_literal. cbn [length]. rewrite Nat.sub_succ, Nat.sub_0_r.
  repeat split.
  - pose proof (read_n_no_cursor (S (length tt)) (with_tokenBuffer kept l)) as H.
    apply no_cursor_capture in H. rewrite H. reflexivity.
  - pose proof (read_n_no_cursor (S (length tt)) (with_tokenBuffer kept l)) as H.
    apply no_cursor_fields in H. destruct H as (H & _). rewrite H. reflexivity.
  - rewrite read_n_advance, advance_currentRune. reflexivity.
  - rewrite read_n_pending. reflexivity.
Qed.

Lemma commit_consume (kept : list rune) (t : gostring) (l : Lexer) :
  matches_here t l = true ->
  past_literal t (kept ++ t) l
    (snd (read (read_write_n (length t - 1)
                  (with_tokenBuffer (kept ++ [currentRune l]) l)))).
Proof.
  intros Hm. apply matches_here_true in Hm. destruct Hm as (Hne & Ht & Hlen).
  set (k := length t - 1) in *.
  assert (HS : length t = S k).
  { rewrite Ht. cbn [length]. rewrite length_firstn. lia. }
  rewrite read_write_n_advance, advance_with_tokenBuffer. cbn [fst snd].
  rewrite !read_with_tokenBuffer. cbn [snd].
  rewrite <- read_n_advance, <- read_n_snoc.
  destruct (advance_pending k l Hlen) as [Ha _].
  repeat split.
  - pose proof (read_n_no_cursor (S k) l) as H.
    apply no_cursor_capture in H. rewrite <- H. reflexivity.
  - cbn. rewrite Ha, <- app_assoc. cbn [app]. rewrite <- Ht. reflexivity.
  - change (currentRune (read_n (S k) l) = nth k (pending l) RuneEOF).
    rewrite read_n_advance, advance_currentRune. reflexivity.
  - rewrite HS. rewrite <- read_n_pending. reflexivity.
Qed.

Lemma past_literal_from (t : gostring) (buf : list rune) (l l1 l2 : Lexer) :
  no_lookahead l1 = no_lookahead l -> pending l1 = pending l ->
  past_literal t buf l1 l2 -> past_literal t buf l l2.
Proof.
  intros Hf Hp (H1 & H2 & H3 & H4).
  apply no_lookahead_cursor, no_cursor_capture in Hf.
  unfold past_literal. rewrite <- Hp. repeat split; congruence.
Qed.

(** With auto-eat off and no ignore literal enabled, nothing is eaten
    after the literal. *)
Lemma skipIgnores_loop_disabled (entries : list (gostring * bool)) (l : Lexer) :
  Forall (fun e => snd e = false) entries ->
  skipIgnores_loop entries l = (false, l).
Proof.
  induction 1 as [|[ignore doit] rest Hd _ IH]; cbn [skipIgnores_loop];
    [reflexivity|].
  cbn in Hd. subst doit. exact IH.
Qed.

Lemma eat_trailing_nothing (l : Lexer) :
  AutoEatWhitespace l = false ->
  Forall (fun e => snd e = false) (ignoreTokens l) ->
  eat_trailing l = l.
Proof.
  intros Ha Hi. unfold eat_trailing, autoEat, fuel_of. rewrite Ha.
  cbn [skipIgnores_repeat]. unfold skipIgnores.
  rewrite skipIgnores_loop_disabled by exact Hi.
  destruct (currentRune l =? RuneEOF)%Z; reflexivity.
Qed.

(** ** Consuming and skipping the matched literal *)

Lemma matches_here_false_iff (t : gostring) (l : Lexer) :
  matches_here t l = false <->
  t = [] \/ currentRune l = RuneEOF
  \/ t <> currentRune l :: firstn (length t - 1) (pending l).
Proof.
  unfold matches_here. rewrite !andb_false_iff, !negb_false_iff.
  rewrite Z.eqb_eq, is_blank_true.
  split.
  - intros [[H|H]|H]; auto. right; right. intros E.
    apply runes_eqb_eq in E. congruence.
  - intros [H|[H|H]]; auto. right.
    destruct (runes_eqb _ _) eqn:E; [|reflexivity].
    apply runes_eqb_eq in E. contradiction.
Qed.

Lemma ConsumeCurrentToken_absent (clearPrevious : bool) (l : Lexer) :
  lastKnownToken l = [] -> ConsumeCurrentToken clearPrevious l = (false, l).
Proof. intros H; unfold ConsumeCurrentToken; rewrite H; reflexivity. Qed.

Lemma CurrentTokenIs_blank (l : Lexer) : CurrentTokenIs [] l = (false, l).
Proof.
  unfold CurrentTokenIs, CurrentTokenIsOneOf.
  destruct (currentRune l =? RuneEOF)%Z; reflexivity.
Qed.

Lemma SkipCurrentToken_absent (clearPrevious : bool) (l : Lexer) :
  lastKnownToken l = [] -> SkipCurrentToken clearPrevious l = (false, l).
Proof.
  intros H; unfold SkipCurrentToken. rewrite H, CurrentTokenIs_blank, H.
  reflexivity.
Qed.

(** Without any assumption on the cache: a call that returns false has
    moved neither the current rune nor the capture buffer. *)
Lemma ConsumeCurrentToken_false_frame (clearPrevious : bool) (l : Lexer) :
  fst (ConsumeCurrentToken clearPrevious l) = false ->
  no_lookahead (snd (ConsumeCurrentToken clearPrevious l)) = no_lookahead l.
Proof.
  unfold ConsumeCurrentToken. destruct (is_blank _); [reflexivity|].
  destruct (CurrentTokenIs_frame (lastKnownToken l) l) as [Hf _].
  destruct (CurrentTokenIs (lastKnownToken l) l) as [hit l1]; cbn [fst snd] in *.
  destruct hit; cbn [negb]; [|intros _; exact Hf].
  destruct (currentRune l1 =? RuneEOF)%Z; [intros _; exact Hf | discriminate].
Qed.

Lemma SkipCurrentToken_false_frame (clearPrevious : bool) (l : Lexer) :
  fst (SkipCurrentToken clearPrevious l) = false ->
  no_lookahead (snd (SkipCurrentToken clearPrevious l)) = no_lookahead l.
Proof.
  unfold SkipCurrentToken.
  destruct (CurrentTokenIs_frame (lastKnownToken l) l) as [Hf _].
  destruct (CurrentTokenIs (lastKnownToken l) l) as [hit l1]; cbn [fst snd] in *.
  destruct (_ || _); [intros _; exact Hf | discriminate].
Qed.

(** ** Capture-until and the Last-Matched-Literal *)

Lemma find_token_all_blank (tkns : list gostring) (l : Lexer) :
  Forall (fun t => t = []) tkns -> find_token tkns l = ([], l).
Proof.
  induction 1 as [|t rest Ht _ IH]; cbn [find_token]; [reflexivity|].
  subst t. exact IH.
Qed.

Lemma CaptureUntilOneOf_loop_all_blank (n : nat) (sk : bool)
  (tkns : list gostring) (l : Lexer) :
  Forall (fun t => t = []) tkns ->
  fst (CaptureUntilOneOf_loop n sk tkns l) = [].
Proof.
  intros Hb. revert l; induction n as [|n IH]; intros l;
    cbn [CaptureUntilOneOf_loop]; [reflexivity|].
  destruct (if sk then EatWhitespace l else (false, l)) as [ate l1].
  destruct ate; [apply IH|].
  destruct (currentRune l1 =? RuneEOF)%Z; [reflexivity|].
  destruct (skipIgnores l1) as [skipped l2].
  destruct skipped; [apply IH|].
  rewrite find_token_all_blank by exact Hb. cbn [is_blank negb]. apply IH.
Qed.

(** What a search returns is one of its terminators, or nothing. *)
Lemma find_token_result (tkns : list gostring) (l : Lexer) :
  fst (find_token tkns l) = [] \/ In (fst (find_token tkns l)) tkns.
Proof.
  revert l; induction tkns as [|t rest IH]; intros l; cbn [find_token];
    [left; reflexivity|].
  destruct (is_blank t); [destruct (IH l); [left | right; right]; assumption|].
  destruct (CurrentTokenIs t l) as [hit l1].
  destruct hit; [right; left; reflexivity|].
  destruct (IH l1); [left | right; right]; assumption.
Qed.

Lemma CaptureUntilOneOf_loop_result (n : nat) (sk : bool)
  (tkns : list gostring) (l : Lexer) :
  fst (CaptureUntilOneOf_loop n sk tkns l) = []
  \/ In (fst (CaptureUntilOneOf_loop n sk tkns l)) tkns.
Proof.
  revert l; induction n as [|n IH]; intros l;
    cbn [CaptureUntilOneOf_loop]; [left; reflexivity|].
  destruct (if sk then EatWhitespace l else (false, l)) as [ate l1].
  destruct ate; [apply IH|].
  destruct (currentRune l1 =? RuneEOF)%Z; [left; reflexivity|].
  destruct (skipIgnores l1) as [skipped l2].
  destruct skipped; [apply IH|].
  pose proof (find_token_result tkns l2) as Hf.
  destruct (find_token tkns l2) as [foundToken l3]; cbn [fst] in Hf.
  destruct (negb (is_blank foundToken)); [exact Hf | apply IH].
Qed.

(** C2 (amended): a call of [CaptureUntilOneOf] with at least one
    terminator, made before the end of the input, overwrites the
    Last-Matched-Literal with what it returns: the terminator it found,
    or the empty string when it found none; [CaptureUntil] with a
    terminator that is not empty does the same.  A call with no
    terminator, with the empty terminator for [CaptureUntil], or made at
    the end of the input returns no-match and leaves the lexer as it
    is, Last-Matched-Literal included; at the end of the input the literal
    left there cannot be acted on, [ConsumeCurrentToken] and
    [SkipCurrentToken] return false. *)
Theorem capture_until_sets_last_known_token
  (sk : bool) (tkns : list gostring) (until : gostring) (l : Lexer) :
  (tkns <> [] -> currentRune l <> RuneEOF ->
   lastKnownToken (snd (CaptureUntilOneOf sk tkns l))
   = fst (CaptureUntilOneOf sk tkns l))
  /\ (until <> [] -> currentRune l <> RuneEOF ->
      lastKnownToken (snd (CaptureUntil sk until l))
      = if fst (CaptureUntil sk until l) then until else [])
  /\ (tkns = [] \/ currentRune l = RuneEOF ->
      CaptureUntilOneOf sk tkns l = ([], l))
  /\ (until = [] \/ currentRune l = RuneEOF ->
      CaptureUntil sk until l = (false, l))
  /\ (currentRune l = RuneEOF -> forall clearPrevious,
      ConsumeCurrentToken clearPrevious l = (false, l)
      /\ SkipCurrentToken clearPrevious l = (false, l)).
Proof.
  assert (H1 : forall ts, ts <> [] -> currentRune l <> RuneEOF ->
            lastKnownToken (snd (CaptureUntilOneOf sk ts l))
            = fst (CaptureUntilOneOf sk ts l)).
  { intros ts Ht He. unfold CaptureUntilOneOf.
    apply Z.eqb_neq in He. rewrite He.
    destruct ts as [|t ts']; [congruence|]. cbn [length Nat.ltb Nat.leb orb].
    destruct (CaptureUntilOneOf_loop _ _ _ _); reflexivity. }
  split; [apply H1|]. split; [|split; [|split]].
  - intros Hu He. unfold CaptureUntil.
    destruct (is_blank until) eqn:Hb; [apply is_blank_true in Hb; congruence|].
    specialize (H1 [until]).
    assert (Hr : fst (CaptureUntilOneOf sk [until] l) = []
                 \/ fst (CaptureUntilOneOf sk [until] l) = until).
    { unfold CaptureUntilOneOf. destruct (_ || _); [left; reflexivity|].
      pose proof (CaptureUntilOneOf_loop_result (fuel_of l) sk [until] l) as Hr.
      destruct (CaptureUntilOneOf_loop _ _ _ _) as [f l1]; cbn [fst] in *.
      destruct Hr as [Hr|[Hr|[]]]; auto. }
    destruct (CaptureUntilOneOf sk [until] l) as [found l1]; cbn [fst snd] in *.
    rewrite H1 by (congruence || assumption).
    destruct Hr as [-> | ->]; [reflexivity | rewrite Hb; reflexivity].
  - intros [-> | He]; [reflexivity | apply CaptureUntilOneOf_at_EOF, He].
  - intros [-> | He]; [reflexivity | apply CaptureUntil_at_EOF, He].
  - intros He b. split;
      [apply ConsumeCurrentToken_at_EOF | apply SkipCurrentToken_at_EOF]; exact He.
Qed.

(** ** End of input on text without NUL

    [sound_EOF]: no rune still to be read is the sentinel, and the
    current rune is the sentinel only when nothing is left to read. *)

Lemma sound_EOF_lookahead (l l' : Lexer) :
  currentRune l' = currentRune l -> incl (pending l') (pending l) ->
  sound_EOF l -> sound_EOF l'.
Proof.
  intros Hc Hi [H1 H2]. split.
  - intros Hin. apply H1, Hi, Hin.
  - intros He. rewrite Hc in He. specialize (H2 He). rewrite H2 in Hi.
    apply incl_l_nil, Hi.
Qed.

Lemma peek_pending_incl (n : nat) (l : Lexer) :
  incl (pending (snd (peek n l))) (pending l).
Proof.
  destruct (peek_spec n l) as (_ & H2 & H3).
  unfold pending at 1. rewrite H2, H3. intros x Hin.
  apply in_app_or in Hin. destruct Hin as [Hin|Hin].
  - apply in_app_or in Hin. destruct Hin as [Hin|Hin].
    + unfold pending. apply in_or_app. left.
      rewrite <- (firstn_skipn n (runeCache l)). apply in_or_app. right. exact Hin.
    + rewrite <- (firstn_skipn n (pending l)). apply in_or_app. left. exact Hin.
  - unfold pending. apply in_or_app. right.
    rewrite <- (firstn_skipn (n - length (runeCache l)) (inputBuffer l)).
    apply in_or_app. right. exact Hin.
Qed.

Lemma CurrentTokenIsOneOf_loop_incl (tkns : list gostring) (l : Lexer) :
  incl (pending (snd (CurrentTokenIsOneOf_loop tkns l))) (pending l).
Proof.
  revert l; induction tkns as [|tkn rest IH]; intros l; [apply incl_refl|].
  destruct tkn as [|t0 ttail]; cbn [CurrentTokenIsOneOf_loop]; [apply IH|].
  destruct (negb (t0 =? currentRune l)%Z); [apply IH|].
  destruct (0 <? length ttail).
  - pose proof (peek_pending_incl (length ttail) l) as Hp.
    destruct (peek (length ttail) l) as [peeks l']; cbn [fst snd] in *.
    destruct (runes_eqb _ _); cbn [fst snd]; [exact Hp|].
    eapply incl_tran; [apply IH | exact Hp].
  - destruct (runes_eqb _ _); cbn [fst snd]; [apply incl_refl | apply IH].
Qed.

Lemma CurrentTokenIs_incl (t : gostring) (l : Lexer) :
  incl (pending (snd (CurrentTokenIs t l))) (pending l).
Proof.
  unfold CurrentTokenIs, CurrentTokenIsOneOf.
  destruct (currentRune l =? RuneEOF)%Z; [apply incl_refl|].
  pose proof (CurrentTokenIsOneOf_loop_incl [t] l) as H.
  destruct (CurrentTokenIsOneOf_loop [t] l); exact H.
Qed.

Lemma sound_EOF_CurrentTokenIsOneOf (tkns : list gostring) (l : Lexer) :
  sound_EOF l -> sound_EOF (snd (CurrentTokenIsOneOf tkns l)).
Proof.
  apply sound_EOF_lookahead.
  - destruct (CurrentTokenIsOneOf_frame tkns l) as [H _].
    apply no_lookahead_fields in H; tauto.
  - unfold CurrentTokenIsOneOf.
    destruct (currentRune l =? RuneEOF)%Z; [apply incl_refl|].
    pose proof (CurrentTokenIsOneOf_loop_incl tkns l) as H.
    destruct (CurrentTokenIsOneOf_loop tkns l); exact H.
Qed.

Lemma sound_EOF_CurrentTokenIs (t : gostring) (l : Lexer) :
  sound_EOF l -> sound_EOF (snd (CurrentTokenIs t l)).
Proof.
  apply sound_EOF_lookahead;
    [apply CurrentTokenIs_currentRune | apply CurrentTokenIs_incl].
Qed.

Lemma sound_EOF_find_token (tkns : list gostring) (l : Lexer) :
  sound_EOF l -> sound_EOF (snd (find_token tkns l)).
Proof.
  revert l; induction tkns as [|t rest IH]; intros l Hs; cbn [find_token];
    [exact Hs|].
  destruct (is_blank t); [apply IH, Hs|].
  pose proof (sound_EOF_CurrentTokenIs t l Hs) as H1.
  destruct (CurrentTokenIs t l) as [hit l1]; cbn [snd] in *.
  destruct hit; [exact H1 | apply IH, H1].
Qed.

Lemma sound_EOF_read (l : Lexer) : sound_EOF l -> sound_EOF (snd (read l)).
Proof.
  intros [H1 H2]. destruct (read_pending l) as (_ & Hc & Hp).
  unfold sound_EOF. rewrite Hc, Hp.
  destruct (pending l) as [|p ps]; cbn in *; [auto|].
  split; [tauto|]. intros ->. tauto.
Qed.

Lemma sound_EOF_read_n (n : nat) (l : Lexer) :
  sound_EOF l -> sound_EOF (read_n n l).
Proof.
  revert l; induction n as [|n IH]; intros l Hs; cbn [read_n]; [exact Hs|].
  apply IH, sound_EOF_read, Hs.
Qed.

Lemma sound_EOF_skipIgnores_loop (entries : list (gostring * bool)) (l : Lexer) :
  sound_EOF l -> sound_EOF (snd (skipIgnores_loop entries l)).
Proof.
  revert l; induction entries as [|[ignore doit] rest IH]; intros l Hs;
    cbn [skipIgnores_loop]; [exact Hs|].
  destruct doit; [|apply IH, Hs].
  pose proof (sound_EOF_CurrentTokenIs ignore l Hs) as H1.
  destruct (CurrentTokenIs ignore l) as [hit l1]; cbn [snd] in *.
  destruct hit; cbn [snd]; [apply sound_EOF_read_n, H1 | apply IH, H1].
Qed.

Lemma sound_EOF_skipIgnores (l : Lexer) :
  sound_EOF l -> sound_EOF (snd (skipIgnores l)).
Proof.
  intros Hs. unfold skipIgnores.
  destruct (currentRune l =? RuneEOF)%Z; [exact Hs|].
  apply sound_EOF_skipIgnores_loop, Hs.
Qed.

Lemma sound_EOF_EatWhitespace_loop (n : nat) (l : Lexer) :
  sound_EOF l -> sound_EOF (snd (EatWhitespace_loop n l)).
Proof.
  revert l; induction n as [|n IH]; intros l Hs; cbn [EatWhitespace_loop];
    [exact Hs|].
  pose proof (sound_EOF_read l Hs) as H1.
  destruct (currentRune (snd (read l)) =? RuneEOF)%Z; [exact H1|].
  destruct (negb (IsSpace (currentRune (snd (read l))))); [exact H1|].
  apply IH, H1.
Qed.

Lemma sound_EOF_EatWhitespace (l : Lexer) :
  sound_EOF l -> sound_EOF (snd (EatWhitespace l)).
Proof.
  intros Hs. unfold EatWhitespace.
  destruct (negb (IsSpace (currentRune l))); [exact Hs|].
  apply sound_EOF_EatWhitespace_loop, Hs.
Qed.

Lemma sound_EOF_autoEat (l : Lexer) : sound_EOF l -> sound_EOF (autoEat l).
Proof.
  intros Hs. unfold autoEat. destruct (AutoEatWhitespace l); [|exact Hs].
  apply sound_EOF_EatWhitespace, Hs.
Qed.

Lemma sound_EOF_skipIgnores_repeat (n : nat) (l : Lexer) :
  sound_EOF l -> sound_EOF (skipIgnores_repeat n l).
Proof.
  revert l; induction n as [|n IH]; intros l Hs; cbn [skipIgnores_repeat];
    [exact Hs|].
  pose proof (sound_EOF_skipIgnores l Hs) as H1.
  destruct (skipIgnores l) as [skipped l1]; cbn [snd] in *.
  destruct skipped; [apply IH, sound_EOF_autoEat, H1 | exact H1].
Qed.

Lemma sound_EOF_eat_trailing (l : Lexer) :
  sound_EOF l -> sound_EOF (eat_trailing l).
Proof.
  intros Hs. apply sound_EOF_skipIgnores_repeat, sound_EOF_autoEat, Hs.
Qed.

Lemma sound_EOF_CaptureUntilOneOf_loop (n : nat) (sk : bool)
  (tkns : list gostring) (l : Lexer) :
  sound_EOF l -> sound_EOF (snd (CaptureUntilOneOf_loop n sk tkns l)).
Proof.
  revert l; induction n as [|n IH]; intros l Hs;
    cbn [CaptureUntilOneOf_loop]; [exact Hs|].
  assert (H1 : sound_EOF (snd (if sk then EatWhitespace l else (false, l))))
    by (destruct sk; [apply sound_EOF_EatWhitespace, Hs | exact Hs]).
  destruct (if sk then EatWhitespace l else (false, l)) as [ate l1];
    cbn [snd] in H1.
  destruct ate; [apply IH, H1|].
  destruct (currentRune l1 =? RuneEOF)%Z; [exact H1|].
  pose proof (sound_EOF_skipIgnores l1 H1) as H2.
  destruct (skipIgnores l1) as [skipped l2]; cbn [snd] in H2.
  destruct skipped; [apply IH, H2|].
  pose proof (sound_EOF_find_token tkns l2 H2) as H3.
  destruct (find_token tkns l2) as [foundToken l3]; cbn [snd] in H3.
  destruct (negb (is_blank foundToken)); [exact H3|].
  apply IH, sound_EOF_read. exact H3.
Qed.

Lemma sound_EOF_CaptureUntilOneOf (sk : bool) (tkns : list gostring) (l : Lexer) :
  sound_EOF l -> sound_EOF (snd (CaptureUntilOneOf sk tkns l)).
Proof.
  intros Hs. unfold CaptureUntilOneOf. destruct (_ || _); [exact Hs|].
  pose proof (sound_EOF_CaptureUntilOneOf_loop (fuel_of l) sk tkns l Hs) as H.
  destruct (CaptureUntilOneOf_loop _ _ _ _); exact H.
Qed.

Lemma sound_EOF_CaptureUntil (sk : bool) (until : gostring) (l : Lexer) :
  sound_EOF l -> sound_EOF (snd (CaptureUntil sk until l)).
Proof.
  intros Hs. unfold CaptureUntil. destruct (is_blank until); [exact Hs|].
  pose proof (sound_EOF_CaptureUntilOneOf sk [until] l Hs) as H.
  destruct (CaptureUntilOneOf sk [until] l); exact H.
Qed.

Lemma sound_EOF_CaptureIdent_loop (IsLetter IsDigit : rune -> bool)
  (n : nat) (b : bool) (l : Lexer) :
  sound_EOF l -> sound_EOF (snd (CaptureIdent_loop IsLetter IsDigit n b l)).
Proof.
  revert b l; induction n as [|n IH]; intros b l Hs;
    cbn [CaptureIdent_loop]; [exact Hs|].
  destruct (currentRune l =? RuneEOF)%Z; [exact Hs|].
  pose proof (sound_EOF_skipIgnores l Hs) as H1.
  destruct (skipIgnores l) as [skipped l1]; cbn [snd] in H1.
  destruct skipped; [apply IH, sound_EOF_autoEat, H1|].
  destruct (_ && _); [exact H1|].
  apply IH, sound_EOF_read. exact H1.
Qed.

Lemma sound_EOF_CaptureIdent (IsLetter IsDigit : rune -> bool) (l : Lexer) :
  sound_EOF l -> sound_EOF (snd (CaptureIdent IsLetter IsDigit l)).
Proof.
  intros Hs. unfold CaptureIdent.
  pose proof (sound_EOF_CaptureIdent_loop IsLetter IsDigit
                (fuel_of (autoEat l)) false (autoEat l)
                (sound_EOF_autoEat l Hs)) as H1.
  destruct (CaptureIdent_loop _ _ _ _ _) as [found l1]; cbn [snd] in *.
  pose proof (sound_EOF_skipIgnores _ (sound_EOF_autoEat l1 H1)) as H2.
  destruct (skipIgnores (autoEat l1)) as [skipped l3]; cbn [snd] in *.
  destruct (_ && _); [apply sound_EOF_EatWhitespace, H2 | exact H2].
Qed.

Lemma sound_EOF_read_write_n (n : nat) (l : Lexer) :
  sound_EOF l -> sound_EOF (read_write_n n l).
Proof.
  revert l; induction n as [|n IH]; intros l Hs; cbn [read_write_n]; [exact Hs|].
  pose proof (sound_EOF_read l Hs) as H1.
  destruct (read l) as [ch l1]; cbn [snd] in H1. apply IH. exact H1.
Qed.

Lemma sound_EOF_ConsumeCurrentToken (clearPrevious : bool) (l : Lexer) :
  sound_EOF l -> sound_EOF (snd (ConsumeCurrentToken clearPrevious l)).
Proof.
  intros Hs. unfold ConsumeCurrentToken. destruct (is_blank _); [exact Hs|].
  pose proof (sound_EOF_CurrentTokenIs (lastKnownToken l) l Hs) as H1.
  destruct (CurrentTokenIs (lastKnownToken l) l) as [hit l1]; cbn [snd] in H1.
  destruct (negb hit); [exact H1|].
  destruct (currentRune l1 =? RuneEOF)%Z; [exact H1|]. cbn [snd].
  apply sound_EOF_eat_trailing, sound_EOF_read, sound_EOF_read_write_n.
  destruct clearPrevious; exact H1.
Qed.

Lemma sound_EOF_SkipCurrentToken (clearPrevious : bool) (l : Lexer) :
  sound_EOF l -> sound_EOF (snd (SkipCurrentToken clearPrevious l)).
Proof.
  intros Hs. unfold SkipCurrentToken.
  pose proof (sound_EOF_CurrentTokenIs (lastKnownToken l) l Hs) as H1.
  destruct (CurrentTokenIs (lastKnownToken l) l) as [hit l1]; cbn [snd] in H1.
  destruct (_ || _); [exact H1|]. cbn [snd].
  apply sound_EOF_eat_trailing, sound_EOF_read_n.
  destruct clearPrevious; exact H1.
Qed.

Lemma sound_EOF_primed (name input : gostring) :
  ~ In RuneEOF input -> sound_EOF (primed name input).
Proof.
  intros Hn. unfold primed, sound_EOF.
  destruct (read_pending (mkLexer name false true [] input [] false [] 0%Z [] []))
    as (_ & Hc & Hp).
  rewrite Hc, Hp. cbn.
  destruct input as [|r rest]; cbn in *; [auto|].
  split; [tauto|]. intros ->. tauto.
Qed.

(** Whatever the chain of steps did, [Run] only closes the channel after
    it: the lexer it leaves is the one the last step left, closed. *)
Lemma Run_only_closes (LexFn : Type)
  (call : LexFn -> Lexer -> Outcome (option LexFn * Lexer))
  (fuel : nat) (d d' : Driver LexFn) :
  Run call fuel d = Some (Done d') ->
  exists l1, Run_loop call fuel (begin d) (lxr d) = Some (Done l1)
             /\ lxr d' = with_tokensClosed true l1.
Proof.
  unfold Run. destruct (Run_loop call fuel (begin d) (lxr d)) as [r|];
    [|discriminate].
  destruct r as [l1| |]; cbn [bind]; try discriminate.
  unfold shutdown. destruct (tokensClosed l1); cbn [bind]; [discriminate|].
  intros [= <-]. exists l1. auto.
Qed.

(** ** Calls keep the end of input *)

Section CallProperties.

Variable IsLetter IsDigit : rune -> bool.

Lemma set_ignores_cursor (v : bool) (tkns : list gostring) (l : Lexer) :
  currentRune (set_ignores v tkns l) = currentRune l
  /\ pending (set_ignores v tkns l) = pending l.
Proof.
  unfold set_ignores. revert l; induction tkns as [|t rest IH]; intros l;
    cbn [fold_left]; [auto|].
  destruct (TrimSpace_nonblank t); [|apply IH].
  destruct (IH (with_ignoreTokens (map_set t v (ignoreTokens l)) l)) as [H1 H2].
  rewrite H1, H2. auto.
Qed.

Lemma send_cursor (tok : Token) (l l' : Lexer) :
  send tok l = Done l' ->
  currentRune l' = currentRune l /\ pending l' = pending l.
Proof.
  unfold send. destruct (tokensClosed l); [discriminate|].
  destruct (_ <? _); [|discriminate]. intros [= <-]. auto.
Qed.

(** Every call keeps [sound_EOF]. *)
Lemma sound_EOF_exec (c : Call) (l l' : Lexer) :
  exec IsLetter IsDigit c l = Done l' -> sound_EOF l -> sound_EOF l'.
Proof.
  destruct c; cbn [exec]; try (intros [= <-]).
  - unfold AddIgnoreTokens.
    apply sound_EOF_lookahead; [apply set_ignores_cursor|].
    destruct (set_ignores_cursor true tkns l) as [_ ->]. apply incl_refl.
  - unfold RemoveIgnoreTokens.
    apply sound_EOF_lookahead; [apply set_ignores_cursor|].
    destruct (set_ignores_cursor false tkns l) as [_ ->]. apply incl_refl.
  - unfold Emit. destruct (send _ l) as [l1| |] eqn:E; cbn; try discriminate.
    intros [= <-]. destruct (send_cursor _ _ _ E) as [Hc Hp].
    apply sound_EOF_lookahead; [exact Hc|].
    change (pending (Reset l1)) with (pending l1). rewrite Hp. apply incl_refl.
  - unfold EmitToken. intros E. destruct (send_cursor _ _ _ E) as [Hc Hp].
    apply sound_EOF_lookahead; [exact Hc|]. rewrite Hp. apply incl_refl.
  - unfold Errorf. destruct (send _ l) as [l1| |] eqn:E; cbn; try discriminate.
    intros [= <-]. destruct (send_cursor _ _ _ E) as [Hc Hp].
    apply sound_EOF_lookahead; [exact Hc|]. rewrite Hp. apply incl_refl.
  - intros H; exact H.
  - apply sound_EOF_CaptureUntil.
  - apply sound_EOF_CaptureUntilOneOf.
  - apply sound_EOF_CaptureIdent.
  - apply sound_EOF_ConsumeCurrentToken.
  - apply sound_EOF_SkipCurrentToken.
  - apply sound_EOF_CurrentTokenIs.
  - apply sound_EOF_CurrentTokenIsOneOf.
  - intros H; exact H.
  - apply sound_EOF_EatWhitespace.
  - intros H; exact H.
Qed.

(** At the end of the input no call moves the current rune. *)
Lemma exec_at_EOF (c : Call) (l l' : Lexer) :
  exec IsLetter IsDigit c l = Done l' -> currentRune l = RuneEOF -> currentRune l' = RuneEOF.
Proof.
  intros E He. destruct c; cbn [exec] in E; try (injection E as <-).
  - unfold AddIgnoreTokens.
    destruct (set_ignores_cursor true tkns l) as [-> _]. exact He.
  - unfold RemoveIgnoreTokens.
    destruct (set_ignores_cursor false tkns l) as [-> _]. exact He.
  - unfold Emit in E. destruct (send _ l) as [l1| |] eqn:E1; cbn in E;
      try discriminate.
    injection E as <-. destruct (send_cursor _ _ _ E1) as [Hc _].
    cbn. congruence.
  - destruct (send_cursor _ _ _ E) as [Hc _]. congruence.
  - unfold Errorf in E. destruct (send _ l) as [l1| |] eqn:E1; cbn in E;
      try discriminate.
    injection E as <-. destruct (send_cursor _ _ _ E1) as [Hc _]. cbn. congruence.
  - exact He.
  - rewrite CaptureUntil_at_EOF by exact He. exact He.
  - rewrite CaptureUntilOneOf_at_EOF by exact He. exact He.
  - rewrite CaptureIdent_at_EOF by exact He. exact He.
  - rewrite ConsumeCurrentToken_at_EOF by exact He. exact He.
  - rewrite SkipCurrentToken_at_EOF by exact He. exact He.
  - rewrite CurrentTokenIs_at_EOF by exact He. exact He.
  - rewrite CurrentTokenIsOneOf_at_EOF by exact He. exact He.
  - exact He.
  - rewrite EatWhitespace_at_EOF by exact He. exact He.
  - exact He.
Qed.

Lemma sound_EOF_exec_all (cs : list Call) (l l' : Lexer) :
  exec_all IsLetter IsDigit cs l = Done l' -> sound_EOF l -> sound_EOF l'.
Proof.
  revert l; induction cs as [|c rest IH]; intros l; cbn [exec_all].
  - intros [= <-] H; exact H.
  - destruct (exec IsLetter IsDigit c l) as [l1| |] eqn:E; cbn [bind]; try discriminate.
    intros Hr Hs. apply (IH l1 Hr). exact (sound_EOF_exec c l l1 E Hs).
Qed.

Lemma exec_all_at_EOF (cs : list Call) (l l' : Lexer) :
  exec_all IsLetter IsDigit cs l = Done l' -> currentRune l = RuneEOF -> currentRune l' = RuneEOF.
Proof.
  revert l; induction cs as [|c rest IH]; intros l; cbn [exec_all].
  - intros [= <-] H; exact H.
  - destruct (exec IsLetter IsDigit c l) as [l1| |] eqn:E; cbn [bind]; try discriminate.
    intros Hr He. apply (IH l1 Hr). exact (exec_at_EOF c l l1 E He).
Qed.

Lemma NextEmittedToken_keeps_EOF (LexFn : Type)
  (call : LexFn -> Lexer -> Outcome (option LexFn * Lexer)) :
  steps_are_calls IsLetter IsDigit call ->
  forall fuel d tok d',
    IsEOF (lxr d) = true ->
    NextEmittedToken call fuel d = Some (Done (tok, d')) ->
    IsEOF (lxr d') = true.
Proof.
  intros Hsteps fuel. induction fuel as [|n IH]; intros d tok d' He;
    cbn [NextEmittedToken];
    (destruct (tokens (lxr d)) as [|t rest];
     [|intros [= _ <-]; exact He]);
    (destruct (tokensClosed (lxr d)); [intros [= _ <-]; exact He|]);
    (destruct (state d) as [f|]; [|intros [= _ <-]; reflexivity]).
  - discriminate.
  - destruct (call f (lxr d)) as [[st' l1]| |] eqn:E; try discriminate.
    apply IH. cbn [lxr]. destruct (Hsteps _ _ _ _ E) as (cs & Hcs).
    apply IsEOF_true. apply IsEOF_true in He.
    exact (exec_all_at_EOF cs _ _ Hcs He).
Qed.

Lemma Run_loop_keeps_EOF (LexFn : Type)
  (call : LexFn -> Lexer -> Outcome (option LexFn * Lexer)) :
  steps_are_calls IsLetter IsDigit call ->
  forall fuel st l l',
    IsEOF l = true -> Run_loop call fuel st l = Some (Done l') ->
    IsEOF l' = true.
Proof.
  intros Hsteps fuel. induction fuel as [|n IH]; intros st l l' He;
    destruct st as [f|]; cbn [Run_loop]; try discriminate;
    try (intros [= <-]; exact He).
  destruct (call f l) as [[st' l1]| |] eqn:E; try discriminate.
  apply IH. destruct (Hsteps _ _ _ _ E) as (cs & Hcs).
  apply IsEOF_true. apply IsEOF_true in He.
  exact (exec_all_at_EOF cs _ _ Hcs He).
Qed.

End CallProperties.

(** ** The emission channel *)

Lemma no_capture_channel (l l' : Lexer) :
  no_capture l' = no_capture l -> channel l' = channel l.
Proof.
  intros H. apply no_capture_fields in H. unfold channel.
  destruct H as (_ & _ & _ & -> & ->). reflexivity.
Qed.

Lemma set_ignores_channel (v : bool) (tkns : list gostring) (l : Lexer) :
  channel (set_ignores v tkns l) = channel l.
Proof.
  unfold set_ignores. revert l; induction tkns as [|t rest IH]; intros l;
    cbn [fold_left]; [reflexivity|].
  destruct (TrimSpace_nonblank t); [|apply IH]. rewrite IH. reflexivity.
Qed.

Lemma CaptureUntilOneOf_channel (sk : bool) (tkns : list gostring) (l : Lexer) :
  channel (snd (CaptureUntilOneOf sk tkns l)) = channel l.
Proof.
  unfold CaptureUntilOneOf. destruct (_ || _); [reflexivity|].
  pose proof (CaptureUntilOneOf_loop_frame (fuel_of l) sk tkns l) as H.
  destruct (CaptureUntilOneOf_loop _ _ _ _) as [f l1]; cbn [snd] in *.
  apply no_capture_channel in H. exact H.
Qed.

Lemma CaptureUntil_channel (sk : bool) (until : gostring) (l : Lexer) :
  channel (snd (CaptureUntil sk until l)) = channel l.
Proof.
  unfold CaptureUntil. destruct (is_blank until); [reflexivity|].
  pose proof (CaptureUntilOneOf_channel sk [until] l) as H.
  destruct (CaptureUntilOneOf sk [until] l); exact H.
Qed.

Lemma CaptureIdent_loop_frame (IsLetter IsDigit : rune -> bool) (n : nat)
  (b : bool) (l : Lexer) :
  no_capture (snd (CaptureIdent_loop IsLetter IsDigit n b l)) = no_capture l.
Proof.
  revert b l; induction n as [|n IH]; intros b l; cbn [CaptureIdent_loop];
    [reflexivity|].
  destruct (currentRune l =? RuneEOF)%Z; [reflexivity|].
  destruct (skipIgnores_frame l) as (Hs & _).
  destruct (skipIgnores l) as [skipped l1]; cbn [fst snd] in *.
  apply no_cursor_capture in Hs.
  destruct skipped.
  - rewrite IH. destruct (autoEat_frame l1) as [Ha _].
    apply no_cursor_capture in Ha. congruence.
  - destruct (_ && _); [exact Hs|]. rewrite IH.
    pose proof (read_no_cursor (WriteRune (currentRune l) l1)) as Hr.
    apply no_cursor_capture in Hr. rewrite Hr.
    transitivity (no_capture l1); [reflexivity | exact Hs].
Qed.

Lemma CaptureIdent_frame (IsLetter IsDigit : rune -> bool) (l : Lexer) :
  no_capture (snd (CaptureIdent IsLetter IsDigit l)) = no_capture l.
Proof.
  unfold CaptureIdent.
  pose proof (CaptureIdent_loop_frame IsLetter IsDigit
                (fuel_of (autoEat l)) false (autoEat l)) as H1.
  destruct (CaptureIdent_loop _ _ _ _ _) as [found l1]; cbn [snd] in *.
  destruct (skipIgnores_frame (autoEat l1)) as (H2 & _).
  destruct (skipIgnores (autoEat l1)) as [skipped l3]; cbn [fst snd] in *.
  destruct (autoEat_frame l) as [H0 _]. destruct (autoEat_frame l1) as [H3 _].
  apply no_cursor_capture in H0, H2, H3.
  assert (H4 : no_capture l3 = no_capture l) by congruence.
  destruct (_ && _); [|exact H4].
  destruct (EatWhitespace_frame l3) as (H5 & _).
  apply no_cursor_capture in H5. congruence.
Qed.

Lemma read_write_n_frame (n : nat) (l : Lexer) :
  no_capture (read_write_n n l) = no_capture l.
Proof.
  rewrite read_write_n_advance.
  pose proof (advance_no_cursor n l) as H. apply no_cursor_capture in H.
  rewrite <- H. reflexivity.
Qed.

Lemma ConsumeCurrentToken_frame (clearPrevious : bool) (l : Lexer) :
  no_capture (snd (ConsumeCurrentToken clearPrevious l)) = no_capture l.
Proof.
  unfold ConsumeCurrentToken. destruct (is_blank _); [reflexivity|].
  destruct (CurrentTokenIs_frame (lastKnownToken l) l) as [Hf _].
  destruct (CurrentTokenIs (lastKnownToken l) l) as [hit l1]; cbn [fst snd] in *.
  apply no_lookahead_cursor, no_cursor_capture in Hf.
  destruct (negb hit); [exact Hf|].
  destruct (currentRune l1 =? RuneEOF)%Z; [exact Hf|]. cbn [snd].
  rewrite (no_cursor_capture _ _ (eat_trailing_frame _)).
  rewrite (no_cursor_capture _ _ (read_no_cursor _)).
  rewrite read_write_n_frame. rewrite <- Hf.
  destruct clearPrevious; reflexivity.
Qed.

Lemma SkipCurrentToken_frame (clearPrevious : bool) (l : Lexer) :
  no_capture (snd (SkipCurrentToken clearPrevious l)) = no_capture l.
Proof.
  unfold SkipCurrentToken.
  destruct (CurrentTokenIs_frame (lastKnownToken l) l) as [Hf _].
  destruct (CurrentTokenIs (lastKnownToken l) l) as [hit l1]; cbn [fst snd] in *.
  apply no_lookahead_cursor, no_cursor_capture in Hf.
  destruct (_ || _); [exact Hf|]. cbn [snd].
  rewrite (no_cursor_capture _ _ (eat_trailing_frame _)).
  rewrite (no_cursor_capture _ _ (read_n_no_cursor _ _)).
  rewrite <- Hf. destruct clearPrevious; reflexivity.
Qed.

(** A call that does not send leaves the channel alone and completes. *)
Lemma exec_silent (IsLetter IsDigit : rune -> bool) (c : Call) (l : Lexer) :
  emits c = 0 ->
  exists l', exec IsLetter IsDigit c l = Done l' /\ channel l' = channel l.
Proof.
  destruct c; cbn [emits exec]; try discriminate; intros _;
    eexists; (split; [reflexivity|]).
  - apply set_ignores_channel.
  - apply set_ignores_channel.
  - reflexivity.
  - apply CaptureUntil_channel.
  - apply CaptureUntilOneOf_channel.
  - apply no_capture_channel, CaptureIdent_frame.
  - apply no_capture_channel, ConsumeCurrentToken_frame.
  - apply no_capture_channel, SkipCurrentToken_frame.
  - apply no_capture_channel, no_cursor_capture, no_lookahead_cursor,
      CurrentTokenIs_frame.
  - apply no_capture_channel, no_cursor_capture, no_lookahead_cursor,
      CurrentTokenIsOneOf_frame.
  - reflexivity.
  - apply no_capture_channel, no_cursor_capture, EatWhitespace_frame.
  - reflexivity.
Qed.

Lemma send_spec (tok : Token) (l : Lexer) :
  send tok l =
  if tokensClosed l then Panicked
  else if length (tokens l) <? tokensCap
       then Done (with_tokens (tokens l ++ [tok]) l)
       else Blocked.
Proof. reflexivity. Qed.


Lemma emits_cases (c : Call) : emits c = 0 \/ emits c = 1.
Proof. destruct c; cbn; auto. Qed.



(** ** The lookahead cache *)

(** C1: the code breaks the replay of peeked runes.  On the input
    [abXYZ], after a [peek] of two runes has cached [b] and [X], a [peek]
    of one rune returns [b] but the following read delivers [X]: [peek]
    put the [b] it took back behind the [X] it left.  The exported
    operations reach this: after [CurrentTokenIsOneOf("abc", "ab")] the
    four reads that follow deliver [X], [b], [Y], [Z]. *)
Theorem peek_reorders_cache :
  let l := snd (peek 2 (primed [] (runes "abXYZ"))) in
  runeCache l = runes "bX"
  /\ fst (peek 1 l) = runes "b"
  /\ fst (advance 1 (snd (peek 1 l))) = runes "X"
  /\ fst (CurrentTokenIsOneOf [runes "abc"; runes "ab"]
            (primed [] (runes "abXYZ"))) = (true, runes "ab")
  /\ fst (advance 4
            (snd (CurrentTokenIsOneOf [runes "abc"; runes "ab"]
                    (primed [] (runes "abXYZ"))))) = runes "XbYZ".
Proof. vm_compute. repeat split. Qed.

(** ** Running to completion *)

(** C4: the code does not do what the claim (and the comment of [LexFn])
    says.  With the entry step [return nil] on the input [abc], [Run]
    returns with the channel closed, but [IsEOF] is false and [bc] is
    still in the reader: [shutdown] closes the channel and nothing else. *)
Theorem Run_neither_drains_nor_marks_EOF :
  exists d',
    Run example_call 1 (NewLexer [] (runes "abc") (Some return_nil))
    = Some (Done d')
    /\ tokensClosed (lxr d') = true
    /\ IsEOF (lxr d') = false
    /\ currentRune (lxr d') = 97%Z
    /\ inputBuffer (lxr d') = runes "bc".
Proof. eexists. vm_compute. repeat split. Qed.

(** ** Capture-until on the examples *)

(** The scenario of the match order: with no ignore literal and the
    terminators [#] and [!], [CaptureUntilOneOf] on [some #text!] returns
    [#] with [some ] in the buffer, or [some] when white space is skipped. *)
Lemma capture_until_one_of_scenario :
  let l := primed [] (runes "some #text!") in
  fst (CaptureUntilOneOf false [runes "#"; runes "!"] l) = runes "#"
  /\ tokenBuffer (snd (CaptureUntilOneOf false [runes "#"; runes "!"] l))
     = runes "some "
  /\ fst (CaptureUntilOneOf true [runes "#"; runes "!"] l) = runes "#"
  /\ tokenBuffer (snd (CaptureUntilOneOf true [runes "#"; runes "!"] l))
     = runes "some".
Proof. vm_compute. repeat split. Qed.

(** C8: the code loses the first matching candidate.  On the input
    [abXY] the literal [ab] stands at the current position, yet
    [CurrentTokenIsOneOf("abcd", "abc", "ab")] reports no match: the peeks
    for the two longer candidates leave the cache as [Y], [b], [X], and
    [ab] is compared with [aY]. *)
Theorem first_matching_candidate_lost :
  let l := primed [] (runes "abXY") in
  matches_here (runes "ab") l = true
  /\ fst (CurrentTokenIs (runes "ab") l) = true
  /\ fst (CurrentTokenIsOneOf [runes "abcd"; runes "abc"; runes "ab"] l)
     = (false, [])
  /\ runeCache
       (snd (CurrentTokenIsOneOf [runes "abcd"; runes "abc"] l)) = runes "YbX".
Proof. vm_compute. repeat split. Qed.

(** ** The sentinel inside the input *)

Lemma read_runeCache_nil (l : Lexer) :
  runeCache l = [] -> runeCache (snd (read l)) = [].
Proof.
  intros H. unfold read. rewrite H. destruct (inputBuffer l); cbn; exact H.
Qed.

Lemma read_n_runeCache_nil (n : nat) (l : Lexer) :
  runeCache l = [] -> runeCache (read_n n l) = [].
Proof.
  revert l; induction n as [|n IH]; intros l H; cbn [read_n]; [exact H|].
  apply IH, read_runeCache_nil, H.
Qed.


(** ** Where the claims as stated fail, and instances of the theorems *)

(** C2 as stated fails: after a search found [#], a call of
    [CaptureUntilOneOf] with no terminator returns no-match and leaves
    [#] as the Last-Matched-Literal, and [ConsumeCurrentToken] then
    consumes it. *)
Lemma stale_literal_survives_empty_search :
  let l := snd (CaptureUntil false (runes "#") (primed [] (runes "#a"))) in
  lastKnownToken l = runes "#"
  /\ fst (CaptureUntilOneOf false [] l) = []
  /\ lastKnownToken (snd (CaptureUntilOneOf false [] l)) = runes "#"
  /\ fst (ConsumeCurrentToken false (snd (CaptureUntilOneOf false [] l))) = true
  /\ tokenBuffer
       (snd (ConsumeCurrentToken false (snd (CaptureUntilOneOf false [] l))))
     = runes "#".
Proof. vm_compute. repeat split. Qed.

Lemma capture_until_sets_last_known_token_instance :
  let l := primed [] (runes "some #text") in
  [runes "#"] <> [] /\ currentRune l <> RuneEOF
  /\ lastKnownToken (snd (CaptureUntilOneOf false [runes "#"] l))
     = fst (CaptureUntilOneOf false [runes "#"] l).
Proof.
  intros l. split; [discriminate|]. split; [vm_compute; discriminate|].
  apply (proj1 (capture_until_sets_last_known_token
                  false [runes "#"] (runes "#") l));
    [discriminate | vm_compute; discriminate].
Defined.

(** C3 as stated fails: with the one terminator [""], [CaptureUntilOneOf]
    on [some text] returns no-match after it has read the whole input
    into the capture buffer. *)
Lemma blank_terminator_reads_everything :
  let l := primed [] (runes "some text") in
  fst (CaptureUntilOneOf false [[]] l) = []
  /\ tokenBuffer l = []
  /\ tokenBuffer (snd (CaptureUntilOneOf false [[]] l)) = runes "some text"
  /\ inputBuffer l = runes "ome text"
  /\ inputBuffer (snd (CaptureUntilOneOf false [[]] l)) = []
  /\ IsEOF (snd (CaptureUntilOneOf false [[]] l)) = true.
Proof. vm_compute. repeat split. Qed.

(** C7 as stated fails: with auto-eat on (the default), consuming the [#]
    of [# a] leaves the cursor on [a], one rune further than the space
    that follows the literal. *)
Lemma consume_goes_past_trailing_space :
  let l := snd (CaptureUntil false (runes "#") (primed [] (runes "# a"))) in
  lastKnownToken l = runes "#"
  /\ pending l = runes " a"
  /\ fst (ConsumeCurrentToken true l) = true
  /\ tokenBuffer (snd (ConsumeCurrentToken true l)) = runes "#"
  /\ currentRune (snd (ConsumeCurrentToken true l)) = 97%Z
  /\ pending (snd (ConsumeCurrentToken true l)) = []
  /\ ~ past_literal (runes "#") (runes "#") l (snd (ConsumeCurrentToken true l)).
Proof.
  vm_compute. repeat split.
  intros (_ & _ & H & _). discriminate H.
Qed.


(** ** Capture-until without lookahead *)

Lemma skipIgnores_disabled (l : Lexer) :
  ignores_disabled l -> skipIgnores l = (false, l).
Proof.
  intros H. unfold skipIgnores.
  rewrite skipIgnores_loop_disabled by exact H.
  destruct (currentRune l =? RuneEOF)%Z; reflexivity.
Qed.

Lemma CurrentTokenIs_short (t : gostring) (l : Lexer) :
  length t <= 1 -> currentRune l <> RuneEOF ->
  CurrentTokenIs t l = (runes_eqb t [currentRune l], l).
Proof.
  intros Hlen Hne. apply Z.eqb_neq in Hne.
  unfold CurrentTokenIs, CurrentTokenIsOneOf. rewrite Hne.
  destruct t as [|t0 [|t1 tt]]; cbn [CurrentTokenIsOneOf_loop length];
    [reflexivity | | cbn in Hlen; lia].
  cbn [runes_eqb]. destruct (t0 =? currentRune l)%Z eqn:E; cbn;
    rewrite ?E; reflexivity.
Qed.

Lemma find_token_short (tkns : list gostring) (l : Lexer) :
  peek_free tkns -> currentRune l <> RuneEOF ->
  find_token tkns l
  = (match terminator_at tkns (currentRune l) with Some t => t | None => [] end,
     l).
Proof.
  intros Hs Hne. induction Hs as [|t rest Ht _ IH];
    cbn [find_token terminator_at find]; [reflexivity|].
  destruct (is_blank t) eqn:Hb.
  - apply is_blank_true in Hb. subst t. cbn [runes_eqb]. exact IH.
  - rewrite CurrentTokenIs_short by assumption.
    destruct (runes_eqb t [currentRune l]); [reflexivity | exact IH].
Qed.

(** Without lookahead the match order is as stated: empty candidates are
    passed over and the first candidate that is the current rune wins. *)
Lemma CurrentTokenIsOneOf_short (tkns : list gostring) (l : Lexer) :
  peek_free tkns -> currentRune l <> RuneEOF ->
  CurrentTokenIsOneOf tkns l
  = (match terminator_at tkns (currentRune l) with
     | Some t => (true, t)
     | None => (false, [])
     end, l).
Proof.
  intros Hs Hne. unfold CurrentTokenIsOneOf.
  apply Z.eqb_neq in Hne. rewrite Hne.
  assert (H : CurrentTokenIsOneOf_loop tkns l
              = (match terminator_at tkns (currentRune l) with
                 | Some t => t
                 | None => []
                 end, l)).
  { induction Hs as [|t rest Ht _ IH];
      cbn [CurrentTokenIsOneOf_loop terminator_at find]; [reflexivity|].
    destruct t as [|t0 [|t1 tt]]; [exact IH | | cbn in Ht; lia].
    cbn [runes_eqb length Nat.ltb Nat.leb].
    destruct (t0 =? currentRune l)%Z eqn:E; cbn [negb andb]; [|exact IH].
    reflexivity. }
  rewrite H. destruct (terminator_at tkns (currentRune l)) as [t|] eqn:Et;
    [|reflexivity].
  apply find_some in Et. destruct Et as [_ Et]. apply runes_eqb_eq in Et.
  subst t. reflexivity.
Qed.

Lemma terminator_at_not_blank (tkns : list gostring) (r : rune) (t : gostring) :
  terminator_at tkns r = Some t -> t = [r].
Proof.
  unfold terminator_at. intros H. apply find_some in H.
  destruct H as [_ H]. apply runes_eqb_eq in H. exact H.
Qed.

Lemma scan_unfold (sk : bool) (tkns : list gostring) (cur : rune) (p : list rune) :
  scan sk tkns cur p =
  if (cur =? RuneEOF)%Z then mkScan [] [] cur p
  else if sk && IsSpace cur then
    match p with
    | [] => mkScan [] [] RuneEOF []
    | r :: p' => scan sk tkns r p'
    end
  else
    match terminator_at tkns cur with
    | Some t => mkScan [] t cur p
    | None =>
        match p with
        | [] => mkScan [cur] [] RuneEOF []
        | r :: p' =>
            let s := scan sk tkns r p' in
            mkScan (cur :: captured s) (found s) (stop_rune s) (stop_pending s)
        end
    end.
Proof. destruct p; reflexivity. Qed.

(** [EatWhitespace] from a white-space rune is the passing over of
    [scan]. *)
Lemma EatWhitespace_loop_scan (n : nat) (tkns : list gostring) (l : Lexer) :
  IsSpace (currentRune l) = true -> length (pending l) < n ->
  scan true tkns (currentRune (snd (EatWhitespace_loop n l)))
    (pending (snd (EatWhitespace_loop n l)))
  = scan true tkns (currentRune l) (pending l)
  /\ (fst (EatWhitespace_loop n l) = false ->
      currentRune (snd (EatWhitespace_loop n l)) = RuneEOF).
Proof.
  revert l; induction n as [|n IH]; intros l Hsp Hlen; [lia|].
  cbn [EatWhitespace_loop].
  destruct (read_pending l) as (_ & Hc & Hp).
  rewrite (scan_unfold true tkns (currentRune l)).
  pose proof (IsSpace_not_EOF _ Hsp) as Hne. apply Z.eqb_neq in Hne.
  rewrite Hne, Hsp. cbn [andb].
  destruct (currentRune (snd (read l)) =? RuneEOF)%Z eqn:He; cbn [fst snd].
  - apply Z.eqb_eq in He. split; [|intros _; exact He].
    rewrite Hc, Hp in *. destruct (pending l) as [|r p']; cbn in *.
    + reflexivity.
    + reflexivity.
  - destruct (IsSpace (currentRune (snd (read l)))) eqn:Hs1; cbn [negb fst snd].
    + destruct (IH (snd (read l)) Hs1) as [H1 H2].
      { rewrite Hp. destruct (pending l); cbn in *; lia. }
      split; [|exact H2]. rewrite H1, Hc, Hp.
      destruct (pending l) as [|r p']; cbn [hd tl]; [|reflexivity].
      rewrite Hc in He. discriminate He.
    + split; [|discriminate]. rewrite Hc, Hp.
      destruct (pending l) as [|r p']; cbn [hd tl]; [|reflexivity].
      rewrite Hc in He. discriminate He.
Qed.

Lemma scanned_from (s : Scan) (l l1 l' : Lexer) :
  tokenBuffer l1 = tokenBuffer l -> scanned s l1 l' -> scanned s l l'.
Proof.
  intros Hb (H1 & H2 & H3). unfold scanned. rewrite <- Hb. auto.
Qed.

(** What the loop of [CaptureUntilOneOf] does when it cannot peek. *)
Lemma CaptureUntilOneOf_loop_scan (n : nat) (sk : bool)
  (tkns : list gostring) (l : Lexer) :
  peek_free tkns -> ignores_disabled l -> weight l < n ->
  fst (CaptureUntilOneOf_loop n sk tkns l)
  = found (scan sk tkns (currentRune l) (pending l))
  /\ scanned (scan sk tkns (currentRune l) (pending l)) l
       (snd (CaptureUntilOneOf_loop n sk tkns l)).
Proof.
  intros Hpf. revert l; induction n as [|n IH]; intros l Hig Hn; [lia|].
  (* one turn of the loop when no white space is eaten *)
  assert (HB : sk && IsSpace (currentRune l) = false ->
    let r :=
      (let ch := currentRune l in
       if (ch =? RuneEOF)%Z then ([], l)
       else
         let (skipped, l2) := skipIgnores l in
         if skipped then CaptureUntilOneOf_loop n sk tkns l2
         else
           let (foundToken, l3) := find_token tkns l2 in
           if negb (is_blank foundToken) then (foundToken, l3)
           else CaptureUntilOneOf_loop n sk tkns (snd (read (WriteRune ch l3)))) in
    fst r = found (scan sk tkns (currentRune l) (pending l))
    /\ scanned (scan sk tkns (currentRune l) (pending l)) l (snd r)).
  { intros Hns. cbv zeta. rewrite scan_unfold, Hns.
    destruct (currentRune l =? RuneEOF)%Z eqn:He.
    - cbn [fst snd found]. split; [reflexivity|].
      unfold scanned; cbn. rewrite app_nil_r. auto.
    - pose proof He as Hne. apply Z.eqb_neq in Hne.
      rewrite skipIgnores_disabled by exact Hig.
      rewrite find_token_short by assumption.
      destruct (terminator_at tkns (currentRune l)) as [t|] eqn:Et.
      + apply terminator_at_not_blank in Et. subst t. cbn [is_blank negb fst snd].
        split; [reflexivity|]. unfold scanned; cbn. rewrite app_nil_r. auto.
      + cbn [is_blank negb].
        set (l' := snd (read (WriteRune (currentRune l) l))).
        destruct (read_pending (WriteRune (currentRune l) l)) as (_ & Hc & Hp).
        fold l' in Hc, Hp. change (pending (WriteRune (currentRune l) l))
          with (pending l) in Hc, Hp.
        pose proof (read_no_cursor (WriteRune (currentRune l) l)) as Hf.
        fold l' in Hf.
        pose proof (read_weight_lt (WriteRune (currentRune l) l) Hne) as Hw.
        fold l' in Hw. rewrite WriteRune_weight in Hw.
        assert (Hig' : ignores_disabled l').
        { unfold ignores_disabled. apply no_cursor_fields in Hf.
          destruct Hf as (_ & _ & _ & ->). exact Hig. }
        destruct (IH l' Hig') as [H1 H2]; [lia|].
        rewrite Hc, Hp in H1, H2.
        assert (Hb' : tokenBuffer l' = tokenBuffer l ++ [currentRune l]).
        { apply no_cursor_fields in Hf. destruct Hf as (-> & _). reflexivity. }
        destruct (pending l) as [|r p']; cbn [hd tl] in H1, H2.
        * rewrite scan_unfold in H1, H2. cbn in H1, H2.
          split; [exact H1|]. destruct H2 as (G1 & G2 & G3).
          cbn [captured stop_rune stop_pending] in *.
          unfold scanned; cbn [captured stop_rune stop_pending].
          rewrite Hb', app_nil_r in G1.
          repeat split; [exact G1 | exact G2 | exact G3].
        * cbv zeta. cbn [found captured stop_rune stop_pending].
          split; [exact H1|]. destruct H2 as (G1 & G2 & G3).
          unfold scanned; cbn [found captured stop_rune stop_pending].
          rewrite Hb', <- app_assoc in G1.
          repeat split; [exact G1 | exact G2 | exact G3]. }
  cbn [CaptureUntilOneOf_loop]. destruct sk.
  - destruct (IsSpace (currentRune l)) eqn:Hsp.
    + destruct (EatWhitespace_frame l) as (Hf & Hle & Hlt).
      assert (Hlen : length (pending l) < fuel_of l)
        by (unfold fuel_of, weight, pending; rewrite length_app; lia).
      destruct (EatWhitespace_loop_scan (fuel_of l) tkns l Hsp Hlen) as [Hs Hz].
      assert (E : EatWhitespace l = EatWhitespace_loop (fuel_of l) l)
        by (unfold EatWhitespace; rewrite Hsp; reflexivity).
      rewrite <- E in Hs, Hz.
      destruct (EatWhitespace l) as [ate l1]; cbn [fst snd] in *.
      assert (Hig' : ignores_disabled l1).
      { unfold ignores_disabled. pose proof (no_cursor_fields _ _ Hf) as H.
        destruct H as (_ & _ & _ & ->). exact Hig. }
      assert (Hb' : tokenBuffer l1 = tokenBuffer l)
        by (apply no_cursor_fields in Hf; tauto).
      rewrite <- Hs. destruct ate.
      * specialize (Hlt eq_refl). destruct (IH l1 Hig') as [H1 H2]; [lia|].
        split; [exact H1|]. exact (scanned_from _ l l1 _ Hb' H2).
      * specialize (Hz eq_refl). rewrite Hz, scan_unfold. cbn [Z.eqb RuneEOF].
        cbn [fst snd found]. split; [reflexivity|].
        unfold scanned; cbn. rewrite app_nil_r, Hb'. auto.
    + assert (E : EatWhitespace l = (false, l))
        by (unfold EatWhitespace; rewrite Hsp; reflexivity).
      rewrite E. apply HB. reflexivity.
  - apply HB. reflexivity.
Qed.

Lemma CaptureUntilOneOf_scan (sk : bool) (tkns : list gostring) (l : Lexer) :
  tkns <> [] -> peek_free tkns -> ignores_disabled l ->
  fst (CaptureUntilOneOf sk tkns l)
  = found (scan sk tkns (currentRune l) (pending l))
  /\ scanned (scan sk tkns (currentRune l) (pending l)) l
       (snd (CaptureUntilOneOf sk tkns l)).
Proof.
  intros Hne Hpf Hig. unfold CaptureUntilOneOf.
  destruct tkns as [|t ts]; [congruence|]. cbn [length Nat.ltb Nat.leb orb].
  destruct (currentRune l =? RuneEOF)%Z eqn:He.
  - rewrite scan_unfold, He. cbn [fst snd found]. split; [reflexivity|].
    unfold scanned; cbn. rewrite app_nil_r. auto.
  - destruct (CaptureUntilOneOf_loop_scan (fuel_of l) sk (t :: ts) l Hpf Hig)
      as [H1 H2]; [unfold fuel_of; lia|].
    destruct (CaptureUntilOneOf_loop _ _ _ _) as [f l1]; cbn [fst snd] in *.
    split; [exact H1 | exact H2].
Qed.

(** Skipping white space changes what is captured, not where the search
    ends: with terminators that are not white space, the runes captured
    with [skipWhitespace] are those captured without it that are not
    white space. *)
Lemma scan_skipWhitespace (tkns : list gostring) (p : list rune) (cur : rune) :
  (forall r, IsSpace r = true -> terminator_at tkns r = None) ->
  captured (scan true tkns cur p)
  = filter not_space (captured (scan false tkns cur p))
  /\ found (scan true tkns cur p) = found (scan false tkns cur p)
  /\ stop_rune (scan true tkns cur p) = stop_rune (scan false tkns cur p)
  /\ stop_pending (scan true tkns cur p) = stop_pending (scan false tkns cur p).
Proof.
  intros Hsp. revert cur; induction p as [|r p' IH]; intros cur;
    rewrite (scan_unfold true), (scan_unfold false);
    destruct (cur =? RuneEOF)%Z; cbn [andb]; try (cbn; auto; fail);
    destruct (IsSpace cur) eqn:Hs.
  - rewrite (Hsp cur Hs). cbn. unfold not_space. rewrite Hs. cbn. auto.
  - destruct (terminator_at tkns cur); cbn; unfold not_space; rewrite ?Hs;
      cbn; auto.
  - rewrite (Hsp cur Hs). cbv zeta. cbn [captured found stop_rune stop_pending].
    cbn [filter]. unfold not_space at 1. rewrite Hs. cbn [negb]. apply IH.
  - destruct (terminator_at tkns cur); [cbn; auto|].
    cbv zeta. cbn [captured found stop_rune stop_pending filter].
    unfold not_space at 1. rewrite Hs. cbn [negb].
    destruct (IH r) as (H1 & H2 & H3 & H4). rewrite H1. auto.
Qed.

Lemma filter_not_space_cons (r : rune) (x : list rune) :
  filter not_space (r :: x)
  = if IsSpace r then filter not_space x else r :: filter not_space x.
Proof. cbn [filter]. unfold not_space at 1. destruct (IsSpace r); reflexivity. Qed.

(** A search whose terminators do not occur before a rune 0 captures up
    to that rune and stops there. *)
Lemma scan_to_nul (sk : bool) (tkns : list gostring) (pre post : list rune)
  (cur : rune) :
  ~ In RuneEOF (cur :: pre) ->
  (forall r, In r (cur :: pre) -> terminator_at tkns r = None) ->
  scan sk tkns cur (pre ++ RuneEOF :: post)
  = mkScan (if sk then filter not_space (cur :: pre) else cur :: pre)
      [] RuneEOF post.
Proof.
  revert cur; induction pre as [|r pre' IH]; intros cur Hn Ht;
    rewrite scan_unfold;
    (destruct (cur =? RuneEOF)%Z eqn:He;
     [apply Z.eqb_eq in He; exfalso; apply Hn; left; exact He|]);
    rewrite (Ht cur (or_introl eq_refl)); cbn [app].
  - rewrite !scan_unfold. cbn [Z.eqb RuneEOF].
    destruct sk; cbn [andb]; [|reflexivity].
    rewrite filter_not_space_cons. destruct (IsSpace cur); reflexivity.
  - assert (Hn' : ~ In RuneEOF (r :: pre'))
      by (intros H; apply Hn; right; exact H).
    assert (Ht' : forall x, In x (r :: pre') -> terminator_at tkns x = None)
      by (intros x H; apply Ht; right; exact H).
    rewrite (IH r Hn' Ht').
    destruct sk; cbn [andb]; [|reflexivity].
    rewrite (filter_not_space_cons cur). destruct (IsSpace cur); reflexivity.
Qed.

(** ** Skipping white space, and stopping on the sentinel *)

(** C5 (amended): on the input [some #text!] with no ignore literal, the
    step [CaptureUntil(skipWhitespace, "!")] then [Emit] emits
    [some#text] when [skipWhitespace] is true and [some #text] when it
    is false: the [#] stays in both.  In general, with no ignore literal
    enabled and terminators of one rune that are not white space, the
    search with [skipWhitespace] buffers the runes that the search
    without it buffers, less the white-space ones, and ends on the same
    rune with the same result: the flag keeps white space out of the
    buffer and strips nothing else. *)
Theorem capture_until_emits_skipping_only_whitespace :
  returned_token
    (NextEmittedToken example_call 1
       (NewLexer [] (runes "some #text!") (Some (capture_then_emit true))))
  = Some (defaultToken chars (runes "some#text"))
  /\ returned_token
       (NextEmittedToken example_call 1
          (NewLexer [] (runes "some #text!") (Some (capture_then_emit false))))
     = Some (defaultToken chars (runes "some #text"))
  /\ (forall (tkns : list gostring) (l : Lexer),
      tkns <> [] -> peek_free tkns -> ignores_disabled l ->
      (forall r, IsSpace r = true -> terminator_at tkns r = None) ->
      exists c,
        tokenBuffer (snd (CaptureUntilOneOf false tkns l)) = tokenBuffer l ++ c
        /\ tokenBuffer (snd (CaptureUntilOneOf true tkns l))
           = tokenBuffer l ++ filter not_space c
        /\ fst (CaptureUntilOneOf true tkns l)
           = fst (CaptureUntilOneOf false tkns l)
        /\ currentRune (snd (CaptureUntilOneOf true tkns l))
           = currentRune (snd (CaptureUntilOneOf false tkns l))
        /\ pending (snd (CaptureUntilOneOf true tkns l))
           = pending (snd (CaptureUntilOneOf false tkns l))).
Proof.
  split; [vm_compute; reflexivity|]. split; [vm_compute; reflexivity|].
  intros tkns l Hne Hpf Hig Hsp.
  destruct (CaptureUntilOneOf_scan false tkns l Hne Hpf Hig)
    as (F1 & B1 & C1 & P1).
  destruct (CaptureUntilOneOf_scan true tkns l Hne Hpf Hig)
    as (F2 & B2 & C2 & P2).
  destruct (scan_skipWhitespace tkns (pending l) (currentRune l) Hsp)
    as (S1 & S2 & S3 & S4).
  exists (captured (scan false tkns (currentRune l) (pending l))).
  split; [exact B1|]. split; [rewrite B2, S1; reflexivity|].
  split; [congruence|]. split; congruence.
Qed.

(** C5 as stated fails: with or without [skipWhitespace] the value
    emitted for [some #text!] is not [some text]. *)
Lemma capture_until_does_not_emit_some_text :
  returned_token
    (NextEmittedToken example_call 1
       (NewLexer [] (runes "some #text!") (Some (capture_then_emit false))))
  <> Some (defaultToken chars (runes "some text"))
  /\ returned_token
       (NextEmittedToken example_call 1
          (NewLexer [] (runes "some #text!") (Some (capture_then_emit true))))
     <> Some (defaultToken chars (runes "some text")).
Proof. vm_compute. split; discriminate. Qed.

Lemma capture_until_emits_skipping_only_whitespace_instance :
  let l := primed [] (runes "some #text!") in
  let tkns := [runes "!"] in
  tkns <> [] /\ peek_free tkns /\ ignores_disabled l
  /\ (forall r, IsSpace r = true -> terminator_at tkns r = None)
  /\ exists c,
       tokenBuffer (snd (CaptureUntilOneOf false tkns l)) = tokenBuffer l ++ c
       /\ tokenBuffer (snd (CaptureUntilOneOf true tkns l))
          = tokenBuffer l ++ filter not_space c.
Proof.
  intros l tkns.
  assert (H1 : tkns <> []) by discriminate.
  assert (H2 : peek_free tkns) by (repeat constructor).
  assert (H3 : ignores_disabled l) by constructor.
  assert (H4 : forall r, IsSpace r = true -> terminator_at tkns r = None).
  { intros r Hs. unfold terminator_at, tkns. cbn [find runes_eqb].
    change (runes "!") with [33%Z]. cbn [runes_eqb].
    destruct (33 =? r)%Z eqn:E; [|reflexivity].
    apply Z.eqb_eq in E. subst r. discriminate Hs. }
  split; [exact H1|]. split; [exact H2|]. split; [exact H3|]. split; [exact H4|].
  destruct (proj2 (proj2 capture_until_emits_skipping_only_whitespace)
              tkns l H1 H2 H3 H4) as (c & Hc1 & Hc2 & _).
  exists c. split; [exact Hc1 | exact Hc2].
Defined.

(** * Further properties of the lexer *)

(** ** White space *)

Lemma hd_drop_space (s : list rune) :
  IsSpace (hd RuneEOF (drop_space s)) = false.
Proof.
  induction s as [|r s' IH]; cbn [drop_space]; [reflexivity|].
  destruct (IsSpace r) eqn:E; [exact IH | exact E].
Qed.

Lemma EatWhitespace_loop_drop (n : nat) (l : Lexer) :
  length (pending l) < n ->
  currentRune (snd (EatWhitespace_loop n l))
  = hd RuneEOF (drop_space (pending l))
  /\ pending (snd (EatWhitespace_loop n l)) = tl (drop_space (pending l))
  /\ fst (EatWhitespace_loop n l)
     = negb (hd RuneEOF (drop_space (pending l)) =? RuneEOF)%Z.
Proof.
  revert l; induction n as [|n IH]; intros l Hlen; [lia|].
  cbn [EatWhitespace_loop]. cbv zeta.
  destruct (read_pending l) as (_ & Hc & Hp).
  destruct (pending l) as [|r p'] eqn:Epend; cbn [hd tl] in Hc, Hp;
    rewrite Hc.
  - cbn. rewrite Hc. auto.
  - cbn [drop_space].
    destruct (r =? RuneEOF)%Z eqn:He.
    + cbn [fst snd]. rewrite Hc. apply Z.eqb_eq in He. rewrite He. cbn. auto.
    + destruct (IsSpace r) eqn:Hs; cbn [negb fst snd hd tl].
      * destruct (IH (snd (read l))) as (H1 & H2 & H3);
          [rewrite Hp; cbn in Hlen; lia|].
        rewrite Hp in H1, H2, H3. auto.
      * rewrite Hc, He. auto.
Qed.

(** After [EatWhitespace] the current rune is not white space. *)
Lemma EatWhitespace_not_space (l : Lexer) :
  IsSpace (currentRune (snd (EatWhitespace l))) = false.
Proof.
  unfold EatWhitespace. destruct (IsSpace (currentRune l)) eqn:Hs;
    cbn [negb]; [|exact Hs].
  destruct (EatWhitespace_loop_drop (fuel_of l) l) as (H1 & _).
  - unfold fuel_of, weight, pending. rewrite length_app. lia.
  - rewrite H1. apply hd_drop_space.
Qed.

(** X4. [EatWhitespace] leaves the lexer alone on a current rune that is
    not white space.  On one that is, it drops it and the white space
    that follows: the current rune becomes the first rune after the run
    (the sentinel when the input ends there), and the result is false
    exactly when that rune is the sentinel, although white space was
    eaten.  In every case the current rune is not white space afterwards
    and nothing but the cursor has changed. *)
Theorem EatWhitespace_drops_leading_white_space (l : Lexer) :
  IsSpace (currentRune (snd (EatWhitespace l))) = false
  /\ no_cursor (snd (EatWhitespace l)) = no_cursor l
  /\ (IsSpace (currentRune l) = false -> EatWhitespace l = (false, l))
  /\ (IsSpace (currentRune l) = true ->
      currentRune (snd (EatWhitespace l))
      = hd RuneEOF (drop_space (pending l))
      /\ pending (snd (EatWhitespace l)) = tl (drop_space (pending l))
      /\ fst (EatWhitespace l) = negb (IsEOF (snd (EatWhitespace l)))).
Proof.
  split; [apply EatWhitespace_not_space|].
  split; [apply EatWhitespace_frame|].
  split; intros Hs; unfold EatWhitespace; rewrite Hs; cbn [negb];
    [reflexivity|].
  destruct (EatWhitespace_loop_drop (fuel_of l) l) as (H1 & H2 & H3).
  - unfold fuel_of, weight, pending. rewrite length_app. lia.
  - unfold IsEOF. rewrite H1. auto.
Qed.

Lemma EatWhitespace_drops_leading_white_space_instance :
  let l := snd (read (primed [] (runes "a  cd"))) in
  IsSpace (currentRune l) = true
  /\ currentRune (snd (EatWhitespace l)) = hd RuneEOF (drop_space (pending l))
  /\ pending (snd (EatWhitespace l)) = tl (drop_space (pending l))
  /\ fst (EatWhitespace l) = negb (IsEOF (snd (EatWhitespace l))).
Proof.
  intros l.
  assert (Hs : IsSpace (currentRune l) = true) by reflexivity.
  split; [exact Hs|].
  exact (proj2 (proj2 (proj2 (EatWhitespace_drops_leading_white_space l))) Hs).
Defined.

(** ** Testing for a literal *)

Lemma peek_permutation (n : nat) (l : Lexer) :
  Permutation (pending (snd (peek n l))) (pending l).
Proof.
  destruct (Nat.le_gt_cases (length (runeCache l)) n) as [Hle|Hgt].
  - rewrite peek_keeps_pending by exact Hle. apply Permutation_refl.
  - destruct (peek_spec n l) as (_ & H2 & H3).
    unfold pending at 1. rewrite H2, H3.
    replace (n - length (runeCache l)) with 0 by lia. cbn [skipn].
    unfold pending. rewrite firstn_app.
    replace (n - length (runeCache l)) with 0 by lia.
    rewrite firstn_O, app_nil_r.
    apply Permutation_app_tail.
    rewrite <- (firstn_skipn n (runeCache l)) at 3.
    apply Permutation_app_comm.
Qed.

Lemma CurrentTokenIs_result (t : gostring) (l : Lexer) :
  fst (CurrentTokenIs t l) = matches_here t l.
Proof.
  unfold CurrentTokenIs, CurrentTokenIsOneOf, matches_here.
  destruct (currentRune l =? RuneEOF)%Z eqn:He; [reflexivity|].
  cbn [negb andb]. destruct t as [|t0 tt]; [reflexivity|].
  cbn [CurrentTokenIsOneOf_loop is_blank negb andb length].
  rewrite Nat.sub_succ, Nat.sub_0_r.
  destruct (t0 =? currentRune l)%Z eqn:E0; cbn [negb].
  2:{ cbn. rewrite E0. reflexivity. }
  destruct (0 <? length tt) eqn:Hlen.
  - destruct (peek_spec (length tt) l) as (Hp & _).
    destruct (peek (length tt) l) as [peeks l1]; cbn [fst snd] in *.
    subst peeks. destruct (runes_eqb _ _); reflexivity.
  - apply Nat.ltb_ge in Hlen.
    assert (tt = []) by (destruct tt; cbn in *; [auto | lia]).
    subst tt. cbn. rewrite E0. reflexivity.
Qed.

Lemma CurrentTokenIs_permutation (t : gostring) (l : Lexer) :
  Permutation (pending (snd (CurrentTokenIs t l))) (pending l).
Proof.
  unfold CurrentTokenIs, CurrentTokenIsOneOf.
  destruct (currentRune l =? RuneEOF)%Z; [apply Permutation_refl|].
  destruct t as [|t0 tt]; [apply Permutation_refl|].
  cbn [CurrentTokenIsOneOf_loop].
  destruct (negb (t0 =? currentRune l)%Z); [apply Permutation_refl|].
  destruct (0 <? length tt).
  - pose proof (peek_permutation (length tt) l) as Hp.
    destruct (peek (length tt) l) as [peeks l1]; cbn [fst snd] in *.
    destruct (runes_eqb _ _); exact Hp.
  - destruct (runes_eqb _ _); apply Permutation_refl.
Qed.

(** X7. [CurrentTokenIs] answers whether the literal stands at the current
    position, whatever the cache holds, and consumes nothing: the current
    rune, the capture buffer and everything but the lookahead are as
    before, and the runes still to be read are the same runes.  They are
    in the same order too when the cache held no more runes than the test
    peeks for. *)
Theorem CurrentTokenIs_tests_without_consuming (t : gostring) (l : Lexer) :
  fst (CurrentTokenIs t l) = matches_here t l
  /\ no_lookahead (snd (CurrentTokenIs t l)) = no_lookahead l
  /\ Permutation (pending (snd (CurrentTokenIs t l))) (pending l)
  /\ (lookahead_fits t l -> pending (snd (CurrentTokenIs t l)) = pending l).
Proof.
  split; [apply CurrentTokenIs_result|].
  split; [apply CurrentTokenIs_frame|].
  split; [apply CurrentTokenIs_permutation|].
  intros Hfit. apply CurrentTokenIs_spec, Hfit.
Qed.

Lemma CurrentTokenIs_tests_without_consuming_instance :
  let l := primed [] (runes "a {{template}}") in
  let l1 := read_n 2 l in
  lookahead_fits (runes "{{") l1
  /\ fst (CurrentTokenIs (runes "{{") l1) = true
  /\ pending (snd (CurrentTokenIs (runes "{{") l1)) = pending l1.
Proof.
  intros l l1.
  assert (Hfit : lookahead_fits (runes "{{") l1) by (right; vm_compute; lia).
  split; [exact Hfit|].
  destruct (CurrentTokenIs_tests_without_consuming (runes "{{") l1)
    as (H1 & _ & _ & H4).
  split; [rewrite H1; reflexivity | exact (H4 Hfit)].
Defined.

(** ** The ignore map *)

Lemma map_get_set_same (k : gostring) (v : bool) (m : list (gostring * bool)) :
  map_get k (map_set k v m) = Some v.
Proof.
  induction m as [|[k' v'] rest IH]; cbn [map_set map_get].
  - rewrite runes_eqb_refl. reflexivity.
  - destruct (runes_eqb k k') eqn:E; cbn [map_get]; rewrite E;
      [reflexivity | exact IH].
Qed.

Lemma map_get_set_other (k k' : gostring) (v : bool)
  (m : list (gostring * bool)) :
  runes_eqb k k' = false -> map_get k' (map_set k v m) = map_get k' m.
Proof.
  intros Hne.
  assert (Hne' : runes_eqb k' k = false).
  { destruct (runes_eqb k' k) eqn:E; [|reflexivity].
    apply runes_eqb_eq in E. subst k'. rewrite runes_eqb_refl in Hne.
    discriminate. }
  induction m as [|[k0 v0] rest IH]; cbn [map_set map_get].
  - rewrite Hne'. reflexivity.
  - destruct (runes_eqb k k0) eqn:E; cbn [map_get].
    + apply runes_eqb_eq in E. subst k0. rewrite Hne'. reflexivity.
    + destruct (runes_eqb k' k0); [reflexivity | exact IH].
Qed.

Lemma map_set_keys (k : gostring) (v : bool) (m : list (gostring * bool)) :
  map fst (map_set k v m)
  = if existsb (runes_eqb k) (map fst m) then map fst m else map fst m ++ [k].
Proof.
  induction m as [|[k' v'] rest IH]; cbn [map_set map fst existsb app];
    [reflexivity|].
  destruct (runes_eqb k k') eqn:E; cbn [orb map fst]; [reflexivity|].
  rewrite IH. destruct (existsb _ _); reflexivity.
Qed.

Lemma map_set_NoDup (k : gostring) (v : bool) (m : list (gostring * bool)) :
  NoDup (map fst m) -> NoDup (map fst (map_set k v m)).
Proof.
  intros Hn. rewrite map_set_keys.
  destruct (existsb (runes_eqb k) (map fst m)) eqn:E; [exact Hn|].
  apply NoDup_app; [exact Hn | repeat constructor; intros [] |].
  intros x Hx [Ex|[]]. subst x.
  assert (existsb (runes_eqb k) (map fst m) = true)
    by (apply existsb_exists; exists k; split; [exact Hx | apply runes_eqb_refl]).
  congruence.
Qed.

Lemma set_ignores_get (v : bool) (tkns : list gostring) (l : Lexer)
  (t : gostring) :
  map_get t (ignoreTokens (set_ignores v tkns l))
  = if names_ignore t tkns then Some v else map_get t (ignoreTokens l).
Proof.
  unfold set_ignores, names_ignore.
  revert l; induction tkns as [|x rest IH]; intros l;
    cbn [fold_left existsb]; [reflexivity|].
  rewrite IH.
  destruct (existsb (fun y => runes_eqb y t && TrimSpace_nonblank y) rest);
    [rewrite orb_true_r; reflexivity|].
  rewrite orb_false_r.
  destruct (TrimSpace_nonblank x); [|rewrite andb_false_r; reflexivity].
  rewrite andb_true_r. cbn [ignoreTokens with_ignoreTokens].
  destruct (runes_eqb x t) eqn:E.
  - apply runes_eqb_eq in E. subst x. apply map_get_set_same.
  - apply map_get_set_other, E.
Qed.

Lemma set_ignores_frame (v : bool) (tkns : list gostring) (l : Lexer) :
  with_ignoreTokens (ignoreTokens (set_ignores v tkns l)) l
  = set_ignores v tkns l
  /\ (NoDup (map fst (ignoreTokens l)) ->
      NoDup (map fst (ignoreTokens (set_ignores v tkns l))))
  /\ (Forall (fun t => TrimSpace_nonblank t = false) tkns ->
      set_ignores v tkns l = l).
Proof.
  unfold set_ignores.
  revert l; induction tkns as [|x rest IH]; intros l; cbn [fold_left].
  - split; [destruct l; reflexivity | auto].
  - destruct (TrimSpace_nonblank x) eqn:Ex.
    + destruct (IH (with_ignoreTokens (map_set x v (ignoreTokens l)) l))
        as (H1 & H2 & _).
      split; [rewrite <- H1 at 2; reflexivity|].
      split; [intros Hn; apply H2, map_set_NoDup, Hn|].
      intros Hf. inversion Hf; congruence.
    + destruct (IH l) as (H1 & H2 & H3).
      split; [exact H1|]. split; [exact H2|].
      intros Hf. inversion Hf; auto.
Qed.

(** X1. [AddIgnoreTokens] and [RemoveIgnoreTokens] are updates of a map:
    afterwards a key named by a token that is not blank (some rune of it
    is not white space) holds true, respectively false, and every other
    key holds what it held; nothing but the map changes and its keys
    stay distinct.  Tokens made of white space only are dropped, so
    adding the [WhiteSpace] literals adds nothing. *)
Theorem ignore_tokens_update_a_map (tkns : list gostring) (l : Lexer)
  (t : gostring) :
  map_get t (ignoreTokens (AddIgnoreTokens tkns l))
  = (if names_ignore t tkns then Some true else map_get t (ignoreTokens l))
  /\ map_get t (ignoreTokens (RemoveIgnoreTokens tkns l))
     = (if names_ignore t tkns then Some false else map_get t (ignoreTokens l))
  /\ with_ignoreTokens (ignoreTokens (AddIgnoreTokens tkns l)) l
     = AddIgnoreTokens tkns l
  /\ with_ignoreTokens (ignoreTokens (RemoveIgnoreTokens tkns l)) l
     = RemoveIgnoreTokens tkns l
  /\ (NoDup (map fst (ignoreTokens l)) ->
      NoDup (map fst (ignoreTokens (AddIgnoreTokens tkns l)))
      /\ NoDup (map fst (ignoreTokens (RemoveIgnoreTokens tkns l))))
  /\ (Forall (fun x => TrimSpace_nonblank x = false) tkns ->
      AddIgnoreTokens tkns l = l /\ RemoveIgnoreTokens tkns l = l)
  /\ AddIgnoreTokens WhiteSpace l = l.
Proof.
  unfold AddIgnoreTokens, RemoveIgnoreTokens.
  destruct (set_ignores_frame true tkns l) as (A1 & A2 & A3).
  destruct (set_ignores_frame false tkns l) as (R1 & R2 & R3).
  split; [apply set_ignores_get|]. split; [apply set_ignores_get|].
  split; [exact A1|]. split; [exact R1|].
  split; [intros Hn; split; [apply A2 | apply R2]; exact Hn|].
  split; [intros Hf; split; [apply A3 | apply R3]; exact Hf|].
  apply (set_ignores_frame true WhiteSpace l).
  repeat constructor.
Qed.

Lemma ignore_tokens_update_a_map_instance :
  let l := AddIgnoreTokens [runes "//"; runes "/*"] (primed [] (runes "x")) in
  NoDup (map fst (ignoreTokens l))
  /\ NoDup (map fst (ignoreTokens (AddIgnoreTokens [runes "*/"; runes "//"] l)))
  /\ map_get (runes "//") (ignoreTokens (RemoveIgnoreTokens [runes "//"] l))
     = Some false.
Proof.
  intros l.
  assert (Hn : NoDup (map fst (ignoreTokens l))).
  { repeat constructor; cbn; intuition discriminate. }
  split; [exact Hn|].
  destruct (ignore_tokens_update_a_map [runes "*/"; runes "//"] l (runes "//"))
    as (_ & _ & _ & _ & H & _).
  split; [exact (proj1 (H Hn))|].
  exact (proj1 (proj2 (ignore_tokens_update_a_map [runes "//"] l (runes "//")))).
Defined.

(** ** The driver at and after the end of the chain *)

Lemma NextEmittedToken_finished (LexFn : Type)
  (call : LexFn -> Lexer -> Outcome (option LexFn * Lexer))
  (fuel : nat) (d : Driver LexFn) :
  finished d ->
  NextEmittedToken call fuel d
  = Some (Done (Some tokenEOF,
                mkDriver (with_currentRune RuneEOF (with_inputBuffer [] (lxr d)))
                  (state d) (begin d))).
Proof.
  intros (Hs & Ht & Ho).
  destruct fuel; cbn [NextEmittedToken]; rewrite Ht, Ho, Hs; reflexivity.
Qed.

(** X11. Once the chain has returned [nil] and the queue is empty,
    [NextEmittedToken] returns the end-of-input token without running
    anything, whatever the fuel; the lexer it leaves is at the end of the
    input with an empty reader, is again in that situation, and every
    further call returns the same token and leaves it as it is. *)
Theorem end_of_input_token_forever (LexFn : Type)
  (call : LexFn -> Lexer -> Outcome (option LexFn * Lexer))
  (d : Driver LexFn) (fuel : nat) :
  finished d ->
  exists d',
    NextEmittedToken call fuel d = Some (Done (Some tokenEOF, d'))
    /\ finished d'
    /\ IsEOF (lxr d') = true /\ inputBuffer (lxr d') = []
    /\ tokenBuffer (lxr d') = tokenBuffer (lxr d)
    /\ (forall fuel',
        NextEmittedToken call fuel' d' = Some (Done (Some tokenEOF, d'))).
Proof.
  intros Hf. eexists. split; [apply NextEmittedToken_finished, Hf|].
  destruct Hf as (Hs & Ht & Ho).
  assert (Hf' : finished
                  (mkDriver
                     (with_currentRune RuneEOF (with_inputBuffer [] (lxr d)))
                     (state d) (begin d)))
    by (repeat split; assumption).
  split; [exact Hf'|]. repeat split.
  intros fuel'. rewrite NextEmittedToken_finished by exact Hf'. reflexivity.
Qed.

Lemma end_of_input_token_forever_instance :
  let d := NewLexer [] (runes "abc") (@None ExampleFn) in
  finished d
  /\ returned_token (NextEmittedToken example_call 0 d) = Some tokenEOF.
Proof.
  intros d.
  assert (Hf : finished d) by (repeat split).
  split; [exact Hf|].
  destruct (end_of_input_token_forever ExampleFn example_call d 0 Hf)
    as (d' & E & _).
  rewrite E. reflexivity.
Defined.

(** X10. A step that ends with [Errorf] hands its message to the caller:
    on an empty open queue, [NextEmittedToken] runs that step once and
    returns the token of type [TokenTypeError] carrying the message; the
    chain has ended, the lexer is as the step found it, and the next call
    returns the end-of-input token. *)
Theorem Errorf_token_then_end_of_input (LexFn : Type)
  (call : LexFn -> Lexer -> Outcome (option LexFn * Lexer))
  (d : Driver LexFn) (f : LexFn) (msg : gostring) (fuel : nat) :
  state d = Some f -> tokens (lxr d) = [] -> tokensClosed (lxr d) = false ->
  call f (lxr d) = Errorf msg (lxr d) ->
  exists d1,
    NextEmittedToken call (S fuel) d
    = Some (Done (Some (defaultToken TokenTypeError msg), d1))
    /\ finished d1
    /\ lxr d1 = lxr d
    /\ returned_token (NextEmittedToken call fuel d1) = Some tokenEOF.
Proof.
  intros Hs Ht Ho Hc.
  assert (E : Errorf (LexFn := LexFn) msg (lxr d)
              = Done (None,
                      with_tokens [defaultToken TokenTypeError msg] (lxr d))).
  { unfold Errorf. rewrite send_spec, Ho, Ht. reflexivity. }
  assert (El : with_tokens []
                 (with_tokens [defaultToken TokenTypeError msg] (lxr d))
               = lxr d).
  { destruct (lxr d); cbn in *. subst. reflexivity. }
  eexists. split.
  - cbn [NextEmittedToken]. rewrite Ht, Ho, Hs, Hc, E.
    destruct fuel; cbn [NextEmittedToken lxr tokens with_tokens state begin];
      reflexivity.
  - cbn [lxr]. rewrite El.
    assert (Hf : finished (mkDriver (lxr d) (@None LexFn) (begin d)))
      by (repeat split; assumption).
    split; [exact Hf|]. split; [reflexivity|].
    rewrite NextEmittedToken_finished by exact Hf. reflexivity.
Qed.

Lemma Errorf_token_then_end_of_input_instance :
  let d := NewLexer [] (runes "abc") (Some (fail_with (runes "error yup"))) in
  state d = Some (fail_with (runes "error yup"))
  /\ tokens (lxr d) = [] /\ tokensClosed (lxr d) = false
  /\ error_call (fail_with (runes "error yup")) (lxr d)
     = Errorf (runes "error yup") (lxr d)
  /\ returned_token (NextEmittedToken error_call 1 d)
     = Some (defaultToken TokenTypeError (runes "error yup")).
Proof.
  intros d.
  assert (Hc : error_call (fail_with (runes "error yup")) (lxr d)
               = Errorf (runes "error yup") (lxr d)) by reflexivity.
  split; [reflexivity|]. split; [reflexivity|]. split; [reflexivity|].
  split; [exact Hc|].
  destruct (Errorf_token_then_end_of_input ErrorFn error_call d
              (fail_with (runes "error yup")) (runes "error yup") 0
              eq_refl eq_refl eq_refl Hc) as (d1 & E & _).
  rewrite E. reflexivity.
Defined.

(** ** After [Run] *)

Lemma exec_closed (IsLetter IsDigit : rune -> bool) (c : Call) (l l' : Lexer) :
  tokensClosed l = true -> exec IsLetter IsDigit c l = Done l' ->
  tokensClosed l' = true.
Proof.
  intros Hc E. destruct (emits_cases c) as [H0|H1].
  - destruct (exec_silent IsLetter IsDigit c l H0) as (l1 & E1 & Hch).
    rewrite E in E1. injection E1 as <-.
    unfold channel in Hch. injection Hch as _ Hcl. congruence.
  - exfalso. destruct c; cbn [emits] in H1; try discriminate;
      cbn [exec] in E; unfold Emit, EmitToken, Errorf in E;
      rewrite send_spec, Hc in E; discriminate E.
Qed.

Lemma exec_all_closed (IsLetter IsDigit : rune -> bool) (cs : list Call)
  (l l' : Lexer) :
  tokensClosed l = true -> exec_all IsLetter IsDigit cs l = Done l' ->
  tokensClosed l' = true.
Proof.
  revert l; induction cs as [|c rest IH]; intros l Hc; cbn [exec_all].
  - intros [= <-]. exact Hc.
  - destruct (exec IsLetter IsDigit c l) as [l1| |] eqn:E; cbn [bind];
      try discriminate.
    apply IH. exact (exec_closed IsLetter IsDigit c l l1 Hc E).
Qed.

Lemma Run_loop_closed (IsLetter IsDigit : rune -> bool) (LexFn : Type)
  (call : LexFn -> Lexer -> Outcome (option LexFn * Lexer)) :
  steps_are_calls IsLetter IsDigit call ->
  forall fuel st l l',
    tokensClosed l = true -> Run_loop call fuel st l = Some (Done l') ->
    tokensClosed l' = true.
Proof.
  intros Hsteps fuel. induction fuel as [|n IH]; intros st l l' Hc;
    destruct st as [f|]; cbn [Run_loop]; try discriminate;
    try (intros [= <-]; exact Hc).
  destruct (call f l) as [[st' l1]| |] eqn:E; try discriminate.
  apply IH. destruct (Hsteps _ _ _ _ E) as (cs & Hcs).
  exact (exec_all_closed IsLetter IsDigit cs l l1 Hc Hcs).
Qed.

(** X12. When [Run] returns, the channel is closed for good: [Emit],
    [EmitToken] and [Errorf] panic on the lexer it leaves, a second [Run]
    with steps made of exported calls never returns normally, and
    [NextEmittedToken] hands out what is still queued and then, on the
    empty closed channel, the zero [Token] instead of the end-of-input
    token, without running a step or moving the lexer. *)
Theorem after_Run_the_channel_is_closed (IsLetter IsDigit : rune -> bool)
  (LexFn : Type) (call : LexFn -> Lexer -> Outcome (option LexFn * Lexer))
  (fuel : nat) (d d' : Driver LexFn) :
  Run call fuel d = Some (Done d') ->
  tokensClosed (lxr d') = true
  /\ (forall ty, Emit ty (lxr d') = Panicked)
  /\ (forall tok, EmitToken tok (lxr d') = Panicked)
  /\ (forall msg, Errorf (LexFn := LexFn) msg (lxr d') = Panicked)
  /\ (forall fuel',
      NextEmittedToken call fuel' d'
      = match tokens (lxr d') with
        | tok :: rest =>
            Some (Done (Some tok,
                        mkDriver (with_tokens rest (lxr d')) (state d')
                          (begin d')))
        | [] => Some (Done (None, d'))
        end)
  /\ (steps_are_calls IsLetter IsDigit call ->
      forall fuel' d'', Run call fuel' d' <> Some (Done d'')).
Proof.
  intros Hr. destruct (Run_only_closes LexFn call fuel d d' Hr) as (l1 & _ & El).
  assert (Hc : tokensClosed (lxr d') = true) by (rewrite El; reflexivity).
  split; [exact Hc|].
  split; [intros ty; unfold Emit; rewrite send_spec, Hc; reflexivity|].
  split; [intros tok; unfold EmitToken; rewrite send_spec, Hc; reflexivity|].
  split; [intros msg; unfold Errorf; rewrite send_spec, Hc; reflexivity|].
  split.
  - intros fuel'. destruct fuel'; cbn [NextEmittedToken];
      destruct (tokens (lxr d')); rewrite ?Hc; reflexivity.
  - intros Hsteps fuel' d'' Hr2. unfold Run in Hr2.
    destruct (Run_loop call fuel' (begin d') (lxr d')) as [r|] eqn:E;
      [|discriminate].
    destruct r as [l2| |]; cbn [bind] in Hr2; try discriminate.
    pose proof (Run_loop_closed IsLetter IsDigit LexFn call Hsteps
                  fuel' _ _ _ Hc E) as Hc2.
    unfold shutdown in Hr2. rewrite Hc2 in Hr2. discriminate Hr2.
Qed.

Lemma after_Run_the_channel_is_closed_instance :
  let d := NewLexer [] (runes "some text!") (Some (capture_then_emit false)) in
  exists d',
    Run example_call 1 d = Some (Done d')
    /\ tokensClosed (lxr d') = true
    /\ Emit chars (lxr d') = Panicked.
Proof.
  intros d.
  assert (Hr : exists d', Run example_call 1 d = Some (Done d'))
    by (eexists; vm_compute; reflexivity).
  destruct Hr as (d' & Hr). exists d'. split; [exact Hr|].
  destruct (after_Run_the_channel_is_closed (fun _ => false) (fun _ => false)
              ExampleFn example_call 1 d d' Hr) as (H1 & H3 & _).
  split; [exact H1 | apply H3].
Defined.

(** ** What capture-until writes *)

Lemma skip_or_not_facts (sk : bool) (l : Lexer) (ate : bool) (l1 : Lexer) :
  (if sk then EatWhitespace l else (false, l)) = (ate, l1) ->
  no_cursor l1 = no_cursor l
  /\ weight l1 <= weight l
  /\ (ate = true -> weight l1 < weight l)
  /\ (sk = true -> IsSpace (currentRune l1) = false).
Proof.
  intros E. destruct sk.
  - destruct (EatWhitespace_frame l) as (H1 & H2 & H3).
    pose proof (EatWhitespace_not_space l) as H4.
    rewrite E in H1, H2, H3, H4. cbn [fst snd] in *. auto.
  - injection E as <- <-. repeat split; [lia | discriminate | discriminate].
Qed.

Lemma CaptureUntilOneOf_loop_appends (n : nat) (sk : bool)
  (tkns : list gostring) (l : Lexer) :
  weight l < n ->
  exists w,
    tokenBuffer (snd (CaptureUntilOneOf_loop n sk tkns l)) = tokenBuffer l ++ w
    /\ ~ In RuneEOF w
    /\ (sk = true -> Forall (fun r => IsSpace r = false) w)
    /\ (fst (CaptureUntilOneOf_loop n sk tkns l) = [] ->
        currentRune (snd (CaptureUntilOneOf_loop n sk tkns l)) = RuneEOF).
Proof.
  revert l; induction n as [|n IH]; intros l Hn; [lia|].
  cbn [CaptureUntilOneOf_loop].
  destruct (if sk then EatWhitespace l else (false, l)) as [ate l1] eqn:Ea.
  destruct (skip_or_not_facts sk l ate l1 Ea) as (Hf1 & Hle & Hlt & Hsp).
  pose proof (no_cursor_fields _ _ Hf1) as (Hb1 & _).
  destruct ate.
  { destruct (IH l1) as (w & G1 & G2 & G3 & G4); [specialize (Hlt eq_refl); lia|].
    exists w. rewrite G1, Hb1. auto. }
  destruct (currentRune l1 =? RuneEOF)%Z eqn:He.
  { exists []. cbn [fst snd]. rewrite app_nil_r, Hb1.
    apply Z.eqb_eq in He. repeat split; auto. }
  apply Z.eqb_neq in He.
  destruct (skipIgnores_frame l1) as (Hs1 & Hs2 & Hs3).
  pose proof (skipIgnores_miss l1) as Hmiss.
  destruct (skipIgnores l1) as [skipped l2]; cbn [fst snd] in *.
  pose proof (no_cursor_fields _ _ Hs1) as (Hb2 & _).
  destruct skipped.
  { destruct (IH l2) as (w & G1 & G2 & G3 & G4); [specialize (Hs3 eq_refl); lia|].
    exists w. rewrite G1, Hb2, Hb1. auto. }
  specialize (Hmiss eq_refl).
  pose proof (no_lookahead_fields _ _ Hmiss) as (Hc2 & _).
  destruct (find_token_frame tkns l2) as [Hf3 Hw3].
  destruct (find_token tkns l2) as [foundToken l3] eqn:Ef; cbn [fst snd] in *.
  pose proof (no_lookahead_fields _ _ Hf3) as (Hc3 & Hb3 & _).
  destruct (is_blank foundToken) eqn:Hbl; cbn [negb].
  2:{ exists []. cbn [fst snd]. rewrite app_nil_r, Hb3, Hb2, Hb1.
      repeat split; auto. intros ->. discriminate Hbl. }
  set (l4 := snd (read (WriteRune (currentRune l1) l3))).
  assert (Hne3 : currentRune (WriteRune (currentRune l1) l3) <> RuneEOF)
    by (cbn; congruence).
  pose proof (read_weight_lt _ Hne3) as Hr. rewrite WriteRune_weight in Hr.
  fold l4 in Hr.
  pose proof (read_no_cursor (WriteRune (currentRune l1) l3)) as Hf4.
  fold l4 in Hf4. apply no_cursor_fields in Hf4. destruct Hf4 as (Hb4 & _).
  destruct (IH l4) as (w & G1 & G2 & G3 & G4); [lia|].
  exists (currentRune l1 :: w).
  split; [rewrite G1, Hb4; cbn; rewrite Hb3, Hb2, Hb1, <- app_assoc; reflexivity|].
  split; [intros [H|H]; [exact (He H) | exact (G2 H)]|].
  split; [|exact G4].
  intros Hsk. constructor; [exact (Hsp Hsk) | exact (G3 Hsk)].
Qed.

(** X8. [CaptureUntilOneOf] only appends to the capture buffer: what it
    adds holds no sentinel, and no white space when [skipWhitespace] is
    set.  What it returns is one of its terminators or the empty string,
    and when it returns the empty string from a call with terminators it
    has run to the end of the input.  Apart from the cursor, the buffer
    and the Last-Matched-Literal nothing changes. *)
Theorem CaptureUntilOneOf_only_appends (sk : bool) (tkns : list gostring)
  (l : Lexer) :
  exists w,
    tokenBuffer (snd (CaptureUntilOneOf sk tkns l)) = tokenBuffer l ++ w
    /\ ~ In RuneEOF w
    /\ (sk = true -> Forall (fun r => IsSpace r = false) w)
    /\ (fst (CaptureUntilOneOf sk tkns l) = []
        \/ In (fst (CaptureUntilOneOf sk tkns l)) tkns)
    /\ (tkns <> [] -> fst (CaptureUntilOneOf sk tkns l) = [] ->
        IsEOF (snd (CaptureUntilOneOf sk tkns l)) = true)
    /\ no_capture (with_lastKnownToken [] (snd (CaptureUntilOneOf sk tkns l)))
       = no_capture (with_lastKnownToken [] l).
Proof.
  unfold CaptureUntilOneOf.
  destruct tkns as [|t ts].
  { exists []. cbn [length Nat.ltb Nat.leb orb fst snd]. rewrite app_nil_r.
    repeat split; auto; try congruence. }
  cbn [length Nat.ltb Nat.leb orb].
  destruct (currentRune l =? RuneEOF)%Z eqn:He.
  { exists []. cbn [fst snd]. rewrite app_nil_r. apply Z.eqb_eq in He.
    repeat split; auto. intros _ _. apply IsEOF_true, He. }
  destruct (CaptureUntilOneOf_loop_appends (fuel_of l) sk (t :: ts) l)
    as (w & G1 & G2 & G3 & G4); [unfold fuel_of; lia|].
  pose proof (CaptureUntilOneOf_loop_result (fuel_of l) sk (t :: ts) l) as Hres.
  pose proof (CaptureUntilOneOf_loop_frame (fuel_of l) sk (t :: ts) l) as Hfr.
  destruct (CaptureUntilOneOf_loop (fuel_of l) sk (t :: ts) l) as [f l1];
    cbn [fst snd] in *.
  exists w. split; [exact G1|]. split; [exact G2|]. split; [exact G3|].
  split; [exact Hres|].
  split; [intros _ Hf; apply IsEOF_true; exact (G4 Hf)|].
  transitivity (no_capture (with_lastKnownToken [] l1)); [reflexivity|].
  unfold no_capture, no_cursor, no_lookahead in *.
  destruct l1, l; cbn in *. injection Hfr as -> -> -> -> -> -> ->. reflexivity.
Qed.

Lemma CaptureUntilOneOf_only_appends_instance :
  let l := primed [] (runes "a b") in
  [runes "#"] <> []
  /\ fst (CaptureUntilOneOf true [runes "#"] l) = []
  /\ IsEOF (snd (CaptureUntilOneOf true [runes "#"] l)) = true.
Proof.
  intros l.
  assert (H1 : [runes "#"] <> []) by discriminate.
  assert (H2 : fst (CaptureUntilOneOf true [runes "#"] l) = []) by reflexivity.
  split; [exact H1|]. split; [exact H2|].
  destruct (CaptureUntilOneOf_only_appends true [runes "#"] l)
    as (w & _ & _ & _ & _ & H & _).
  exact (H H1 H2).
Defined.

(** ** White-space terminators *)

Lemma find_token_space_terminators (tkns : list gostring) (l : Lexer) :
  space_terminators tkns -> IsSpace (currentRune l) = false ->
  find_token tkns l = ([], l).
Proof.
  intros Hs Hc. induction Hs as [|t rest (r & -> & Hr) _ IH];
    cbn [find_token is_blank]; [reflexivity|].
  destruct (currentRune l =? RuneEOF)%Z eqn:He.
  - apply Z.eqb_eq in He. rewrite CurrentTokenIs_at_EOF by exact He. exact IH.
  - apply Z.eqb_neq in He.
    rewrite (CurrentTokenIs_short [r] l (le_n 1) He).
    cbn [runes_eqb].
    destruct (r =? currentRune l)%Z eqn:E; [|exact IH].
    apply Z.eqb_eq in E. congruence.
Qed.

Lemma CaptureUntilOneOf_loop_space_terminators (n : nat)
  (tkns : list gostring) (l : Lexer) :
  space_terminators tkns -> fst (CaptureUntilOneOf_loop n true tkns l) = [].
Proof.
  intros Hs. revert l; induction n as [|n IH]; intros l;
    cbn [CaptureUntilOneOf_loop]; [reflexivity|].
  pose proof (EatWhitespace_not_space l) as Hsp.
  destruct (EatWhitespace l) as [ate l1]; cbn [snd] in Hsp.
  destruct ate; [apply IH|].
  destruct (currentRune l1 =? RuneEOF)%Z; [reflexivity|].
  pose proof (skipIgnores_miss l1) as Hmiss.
  destruct (skipIgnores l1) as [skipped l2]; cbn [fst snd] in *.
  destruct skipped; [apply IH|].
  specialize (Hmiss eq_refl).
  pose proof (no_lookahead_fields _ _ Hmiss) as (Hc2 & _).
  rewrite find_token_space_terminators by (exact Hs || congruence).
  cbn [is_blank negb]. apply IH.
Qed.

(** X14. With [skipWhitespace] set, a search whose terminators are single
    white-space runes, such as the [WhiteSpace] literals, never finds
    one: the white space is eaten before the terminators are tried, so
    [CaptureUntilOneOf] returns the empty string, [CaptureUntil] false,
    and the lexer is left at the end of the input. *)
Theorem white_space_terminators_are_never_found (tkns : list gostring)
  (r : rune) (l : Lexer) :
  (space_terminators tkns ->
   fst (CaptureUntilOneOf true tkns l) = []
   /\ (tkns <> [] -> IsEOF (snd (CaptureUntilOneOf true tkns l)) = true))
  /\ (IsSpace r = true ->
      fst (CaptureUntil true [r] l) = false
      /\ IsEOF (snd (CaptureUntil true [r] l)) = true)
  /\ fst (CaptureUntilOneOf true WhiteSpace l) = []
  /\ IsEOF (snd (CaptureUntilOneOf true WhiteSpace l)) = true.
Proof.
  assert (H : forall ts, space_terminators ts ->
            fst (CaptureUntilOneOf true ts l) = []
            /\ (ts <> [] -> IsEOF (snd (CaptureUntilOneOf true ts l)) = true)).
  { intros ts Hs.
    assert (Hf : fst (CaptureUntilOneOf true ts l) = []).
    { unfold CaptureUntilOneOf. destruct (_ || _); [reflexivity|].
      pose proof (CaptureUntilOneOf_loop_space_terminators (fuel_of l) ts l Hs)
        as Hl.
      destruct (CaptureUntilOneOf_loop _ _ _ _); exact Hl. }
    split; [exact Hf|]. intros Hne.
    unfold CaptureUntilOneOf in *.
    destruct ts as [|t ts']; [congruence|]. cbn [length Nat.ltb Nat.leb orb] in *.
    destruct (currentRune l =? RuneEOF)%Z eqn:He;
      [apply IsEOF_true, Z.eqb_eq, He|].
    destruct (CaptureUntilOneOf_loop_appends (fuel_of l) true (t :: ts') l)
      as (w & _ & _ & _ & G4); [unfold fuel_of; lia|].
    destruct (CaptureUntilOneOf_loop _ _ _ _) as [f l1]; cbn [fst snd] in *.
    apply IsEOF_true. exact (G4 Hf). }
  assert (Hw : space_terminators WhiteSpace).
  { repeat constructor; eexists; split; reflexivity. }
  split; [exact (H tkns)|]. split.
  - intros Hr.
    assert (Hs : space_terminators (@cons gostring [r] (@nil gostring)))
      by (repeat constructor; exists r; auto).
    destruct (H _ Hs) as [H1 H2]. unfold CaptureUntil. cbn [is_blank].
    destruct (CaptureUntilOneOf true _ l) as [f l1]; cbn [fst snd] in *.
    subst f. split; [reflexivity | apply H2; discriminate].
  - destruct (H WhiteSpace Hw) as [H1 H2].
    split; [exact H1 | apply H2; discriminate].
Qed.

Lemma white_space_terminators_are_never_found_instance :
  let l := primed [] (runes "I love #unicorns yup") in
  space_terminators [runes " "]
  /\ IsSpace 32%Z = true
  /\ fst (CaptureUntilOneOf true [runes " "] l) = []
  /\ fst (CaptureUntil true [32%Z] l) = false.
Proof.
  intros l.
  assert (Hs : space_terminators [runes " "])
    by (repeat constructor; exists 32%Z; split; reflexivity).
  assert (Hr : IsSpace 32%Z = true) by reflexivity.
  destruct (white_space_terminators_are_never_found [runes " "] 32%Z l)
    as (H1 & H2 & _).
  split; [exact Hs|]. split; [exact Hr|].
  split; [exact (proj1 (H1 Hs)) | exact (proj1 (H2 Hr))].
Defined.

(** ** Identifiers *)

Lemma not_ident_test (IsLetter IsDigit : rune -> bool) (r : rune) :
  negb (IsLetter r) && negb (IsDigit r) && negb (r =? 95)%Z
  = negb (is_ident IsLetter IsDigit r).
Proof.
  unfold is_ident.
  destruct (IsLetter r), (IsDigit r), (r =? 95)%Z; reflexivity.
Qed.

Lemma read_tokenBuffer (l : Lexer) :
  tokenBuffer (snd (read l)) = tokenBuffer l.
Proof. exact (proj1 (no_cursor_fields _ _ (read_no_cursor l))). Qed.

Lemma autoEat_tokenBuffer (l : Lexer) :
  tokenBuffer (autoEat l) = tokenBuffer l.
Proof. exact (proj1 (no_cursor_fields _ _ (proj1 (autoEat_frame l)))). Qed.

Lemma CaptureIdent_loop_appends (IsLetter IsDigit : rune -> bool) (n : nat)
  (b : bool) (l : Lexer) :
  exists w,
    tokenBuffer (snd (CaptureIdent_loop IsLetter IsDigit n b l))
    = tokenBuffer l ++ w
    /\ Forall (fun r => is_ident IsLetter IsDigit r = true) w
    /\ ~ In RuneEOF w
    /\ fst (CaptureIdent_loop IsLetter IsDigit n b l) = b || negb (is_blank w).
Proof.
  revert b l; induction n as [|n IH]; intros b l; cbn [CaptureIdent_loop].
  { exists []. rewrite app_nil_r, orb_false_r. cbn; auto. }
  cbv zeta.
  destruct (currentRune l =? RuneEOF)%Z eqn:He.
  { exists []. rewrite app_nil_r, orb_false_r. cbn; auto. }
  apply Z.eqb_neq in He.
  destruct (skipIgnores_frame l) as (Hs & _).
  destruct (skipIgnores l) as [skipped l1]; cbn [fst snd] in *.
  apply no_cursor_fields in Hs. destruct Hs as (Hb & _).
  destruct skipped.
  - destruct (IH b (autoEat l1)) as (w & H1 & H2 & H3 & H4).
    exists w. rewrite H1, autoEat_tokenBuffer, Hb. auto.
  - rewrite not_ident_test.
    destruct (is_ident IsLetter IsDigit (currentRune l)) eqn:Hi; cbn [negb].
    + destruct (IH true (snd (read (WriteRune (currentRune l) l1))))
        as (w & H1 & H2 & H3 & H4).
      exists (currentRune l :: w). rewrite H1, H4, read_tokenBuffer.
      unfold WriteRune; cbn [tokenBuffer with_tokenBuffer].
      rewrite Hb, <- app_assoc. cbn [app is_blank negb orb].
      rewrite orb_true_r.
      repeat split; auto.
      intros [E|E]; [congruence | exact (H3 E)].
    + exists []. rewrite app_nil_r, orb_false_r. cbn; auto.
Qed.

(** X5. Whatever the ignore literals and the white-space flag,
    [CaptureIdent] only appends to the capture buffer, what it appends
    are identifier runes (letters, digits and the underscore, never the
    sentinel), it returns true exactly when it appended something, and
    it changes nothing else than the cursor and the capture buffer. *)
Theorem CaptureIdent_appends_identifier_runes
  (IsLetter IsDigit : rune -> bool) (l : Lexer) :
  exists w,
    tokenBuffer (snd (CaptureIdent IsLetter IsDigit l)) = tokenBuffer l ++ w
    /\ Forall (fun r => is_ident IsLetter IsDigit r = true) w
    /\ ~ In RuneEOF w
    /\ fst (CaptureIdent IsLetter IsDigit l) = negb (is_blank w)
    /\ no_capture (snd (CaptureIdent IsLetter IsDigit l)) = no_capture l.
Proof.
  pose proof (CaptureIdent_frame IsLetter IsDigit l) as Hf.
  unfold CaptureIdent in *.
  destruct (CaptureIdent_loop_appends IsLetter IsDigit
              (fuel_of (autoEat l)) false (autoEat l))
    as (w & H1 & H2 & H3 & H4).
  destruct (CaptureIdent_loop _ _ _ _ _) as [found l1]; cbn [fst snd] in *.
  destruct (skipIgnores_frame (autoEat l1)) as (Hs & _).
  destruct (skipIgnores (autoEat l1)) as [skipped l3]; cbn [fst snd] in *.
  apply no_cursor_fields in Hs. destruct Hs as (Hb & _).
  rewrite autoEat_tokenBuffer in Hb, H1.
  exists w. repeat split; auto.
  destruct (_ && _); [|congruence].
  destruct (EatWhitespace_frame l3) as (H5 & _).
  apply no_cursor_fields in H5. destruct H5 as (H5 & _). congruence.
Qed.

(** The stream [s] describes the cursor of [l]: its head is the current
    rune and its tail what is left to read; the empty stream is the end
    of the input. *)
Lemma autoEat_stream (l : Lexer) (s : list rune) :
  currentRune l = hd RuneEOF s -> pending l = tl s ->
  currentRune (autoEat l)
  = hd RuneEOF (if AutoEatWhitespace l then drop_space s else s)
  /\ pending (autoEat l)
     = tl (if AutoEatWhitespace l then drop_space s else s).
Proof.
  intros Hc Hp. unfold autoEat.
  destruct (AutoEatWhitespace l); [|auto].
  unfold EatWhitespace.
  destruct (IsSpace (currentRune l)) eqn:Hs; cbn [negb].
  - destruct s as [|c p]; cbn [hd tl] in *.
    + rewrite Hc in Hs. discriminate Hs.
    + rewrite Hc in Hs. cbn [drop_space]. rewrite Hs.
      destruct (EatWhitespace_loop_drop (fuel_of l) l) as (H1 & H2 & _).
      * unfold fuel_of, weight, pending. rewrite length_app. lia.
      * rewrite H1, H2, Hp. auto.
  - destruct s as [|c p]; cbn [hd tl drop_space] in *; [auto|].
    rewrite Hc in Hs. rewrite Hs. auto.
Qed.

Lemma CaptureIdent_loop_run (IsLetter IsDigit : rune -> bool) (n : nat)
  (b : bool) (l : Lexer) (s : list rune) :
  ignores_disabled l ->
  currentRune l = hd RuneEOF s -> pending l = tl s -> length s <= n ->
  tokenBuffer (snd (CaptureIdent_loop IsLetter IsDigit n b l))
  = tokenBuffer l ++ ident_run IsLetter IsDigit s
  /\ currentRune (snd (CaptureIdent_loop IsLetter IsDigit n b l))
     = hd RuneEOF (skipn (length (ident_run IsLetter IsDigit s)) s)
  /\ pending (snd (CaptureIdent_loop IsLetter IsDigit n b l))
     = tl (skipn (length (ident_run IsLetter IsDigit s)) s)
  /\ fst (CaptureIdent_loop IsLetter IsDigit n b l)
     = b || negb (is_blank (ident_run IsLetter IsDigit s)).
Proof.
  revert b l s; induction n as [|n IH]; intros b l s Hd Hc Hp Hn.
  { destruct s; [|cbn in Hn; lia].
    cbn [CaptureIdent_loop ident_run length skipn fst snd is_blank negb].
    rewrite app_nil_r, orb_false_r. auto. }
  cbn [CaptureIdent_loop]. cbv zeta.
  destruct s as [|c p]; cbn [hd tl length] in *.
  { rewrite Hc. cbn [Z.eqb RuneEOF ident_run length skipn fst snd is_blank negb hd tl].
    rewrite app_nil_r, orb_false_r. auto. }
  cbn [ident_run]. rewrite Hc.
  destruct (c =? RuneEOF)%Z eqn:He; cbn [negb andb].
  { cbn [length skipn fst snd is_blank negb hd tl].
    rewrite app_nil_r, orb_false_r. auto. }
  rewrite skipIgnores_disabled by exact Hd.
  rewrite not_ident_test.
  destruct (is_ident IsLetter IsDigit c) eqn:Hi; cbn [negb].
  - destruct (read_pending (WriteRune c l)) as (_ & R2 & R3).
    change (pending (WriteRune c l)) with (pending l) in R2, R3.
    rewrite Hp in R2, R3.
    assert (Hd' : ignores_disabled (snd (read (WriteRune c l)))).
    { unfold ignores_disabled.
      destruct (no_cursor_fields _ _ (read_no_cursor (WriteRune c l)))
        as (_ & _ & _ & Hi'). rewrite Hi'. exact Hd. }
    destruct (IH true _ p Hd' R2 R3 ltac:(lia)) as (H1 & H2 & H3 & H4).
    rewrite H1, H2, H3, H4, read_tokenBuffer.
    unfold WriteRune; cbn [tokenBuffer with_tokenBuffer].
    rewrite <- app_assoc. cbn [app length skipn is_blank negb orb].
    rewrite orb_true_r. auto.
  - cbn [length skipn fst snd is_blank negb hd tl].
    rewrite app_nil_r, orb_false_r. auto.
Qed.

(** X6. With no ignore literal enabled, [CaptureIdent] captures exactly
    the longest run of identifier runes that stands at the cursor, after
    the leading white space when [AutoEatWhitespace] is set, and leaves
    the cursor on the rune that follows the run, after the white space
    behind it when [AutoEatWhitespace] is set.  It returns true exactly
    when the run is not empty. *)
Theorem CaptureIdent_takes_the_longest_identifier
  (IsLetter IsDigit : rune -> bool) (l : Lexer) :
  ignores_disabled l ->
  let trim := fun s => if AutoEatWhitespace l then drop_space s else s in
  let s := trim (currentRune l :: pending l) in
  let w := ident_run IsLetter IsDigit s in
  let rest := trim (skipn (length w) s) in
  fst (CaptureIdent IsLetter IsDigit l) = negb (is_blank w)
  /\ tokenBuffer (snd (CaptureIdent IsLetter IsDigit l)) = tokenBuffer l ++ w
  /\ currentRune (snd (CaptureIdent IsLetter IsDigit l)) = hd RuneEOF rest
  /\ pending (snd (CaptureIdent IsLetter IsDigit l)) = tl rest.
Proof.
  intros Hd trim s w rest. unfold CaptureIdent.
  destruct (autoEat_stream l (currentRune l :: pending l) eq_refl eq_refl)
    as (A1 & A2).
  fold (trim (currentRune l :: pending l)) in A1, A2. fold s in A1, A2.
  destruct (autoEat_frame l) as (A3 & _).
  apply no_cursor_fields in A3. destruct A3 as (A3 & _ & A4 & A5).
  assert (Hd0 : ignores_disabled (autoEat l))
    by (unfold ignores_disabled; rewrite A5; exact Hd).
  assert (Hn : length s <= fuel_of (autoEat l)).
  { unfold fuel_of, weight. fold (unread (autoEat l)).
    assert (length (pending (autoEat l)) = unread (autoEat l))
      by (unfold pending, unread; apply length_app).
    rewrite A2 in H. destruct s; cbn [length tl] in *; lia. }
  destruct (CaptureIdent_loop_run IsLetter IsDigit _ false _ s Hd0 A1 A2 Hn)
    as (H1 & H2 & H3 & H4).
  pose proof (CaptureIdent_loop_frame IsLetter IsDigit
                (fuel_of (autoEat l)) false (autoEat l)) as Hf.
  destruct (CaptureIdent_loop _ _ _ _ _) as [found l1]; cbn [fst snd] in *.
  fold w in H1, H2, H3, H4.
  apply no_capture_fields in Hf. destruct Hf as (_ & F1 & F2 & _).
  destruct (autoEat_stream l1 _ H2 H3) as (B1 & B2).
  rewrite F1, A4 in B1, B2. fold (trim (skipn (length w) s)) in B1, B2.
  fold rest in B1, B2.
  destruct (autoEat_frame l1) as (B3 & _).
  apply no_cursor_fields in B3. destruct B3 as (B3 & _ & _ & B5).
  assert (Hd2 : ignores_disabled (autoEat l1))
    by (unfold ignores_disabled; rewrite B5, F2, A5; exact Hd).
  rewrite skipIgnores_disabled by exact Hd2. cbn [andb fst snd].
  rewrite B3, H1, A3. auto.
Qed.

Lemma CaptureIdent_takes_the_longest_identifier_instance :
  let letter := fun r : rune => ((97 <=? r) && (r <=? 122))%Z in
  let digit := fun r : rune => ((48 <=? r) && (r <=? 57))%Z in
  let l := primed [] (runes "  foo_1  = 2") in
  ignores_disabled l
  /\ fst (CaptureIdent letter digit l) = true
  /\ tokenBuffer (snd (CaptureIdent letter digit l)) = runes "foo_1"
  /\ currentRune (snd (CaptureIdent letter digit l)) = 61%Z
  /\ pending (snd (CaptureIdent letter digit l)) = runes " 2".
Proof.
  intros letter digit l.
  assert (Hd : ignores_disabled l) by constructor.
  split; [exact Hd|].
  exact (CaptureIdent_takes_the_longest_identifier letter digit l Hd).
Defined.

(** ** The ignore filter at the cursor *)

Lemma filter_enabled_nil (entries : list (gostring * bool)) :
  filter (fun e : gostring * bool => snd e) entries = [] ->
  Forall (fun e : gostring * bool => snd e = false) entries.
Proof.
  induction entries as [|[k v] rest IH]; cbn [filter snd]; intros H;
    [constructor|].
  destruct v; [discriminate H|]. constructor; [reflexivity | exact (IH H)].
Qed.

Lemma with_tokenBuffer_same (l : Lexer) : with_tokenBuffer (tokenBuffer l) l = l.
Proof. destruct l; reflexivity. Qed.

Lemma skipIgnores_loop_single (entries : list (gostring * bool))
  (t : gostring) (l : Lexer) :
  filter (fun e : gostring * bool => snd e) entries = [(t, true)] ->
  lookahead_fits t l ->
  fst (skipIgnores_loop entries l) = matches_here t l
  /\ (matches_here t l = true ->
      past_literal t (tokenBuffer l) l (snd (skipIgnores_loop entries l)))
  /\ (matches_here t l = false ->
      untouched l (snd (skipIgnores_loop entries l))).
Proof.
  intros Hf Hfit. induction entries as [|[ig doit] rest IH];
    cbn [filter snd] in Hf; [discriminate Hf|].
  cbn [skipIgnores_loop]. destruct doit; [|exact (IH Hf)].
  injection Hf as -> Hrest. apply filter_enabled_nil in Hrest.
  destruct (CurrentTokenIs_spec t l Hfit) as (C1 & C2).
  destruct (CurrentTokenIs_frame t l) as (C3 & _).
  destruct (CurrentTokenIs t l) as [hit l1]; cbn [fst snd] in *.
  subst hit. destruct (matches_here t l) eqn:Hm.
  - cbn [fst snd]. split; [reflexivity|]. split; [|discriminate].
    intros _. apply (past_literal_from t _ l l1); [exact C3 | exact C2 |].
    destruct (no_lookahead_fields _ _ C3) as (_ & Hb & _). rewrite <- Hb.
    pose proof (commit_skip (tokenBuffer l1) t l1) as Hc.
    rewrite with_tokenBuffer_same in Hc. apply Hc.
    intros ->. unfold matches_here in Hm. cbn [is_blank negb] in Hm.
    rewrite andb_false_r in Hm. discriminate Hm.
  - rewrite skipIgnores_loop_disabled by exact Hrest. cbn [fst snd].
    split; [reflexivity|]. split; [discriminate|].
    intros _. split; assumption.
Qed.

(** X2. With one ignore literal [t] enabled and the cache no longer than
    [CurrentTokenIs t] peeks for, [skipIgnores] returns true exactly when
    [t] stands at the cursor.  It then moves past the literal: the
    current rune becomes the rune that followed it (the sentinel at the
    end of the input) and the capture buffer is kept.  Otherwise the
    cursor, the runes to come and the capture buffer are those of
    before. *)
Theorem skipIgnores_moves_past_the_literal (t : gostring) (l : Lexer) :
  enabled_ignores l = [(t, true)] -> lookahead_fits t l ->
  fst (skipIgnores l) = matches_here t l
  /\ (matches_here t l = true ->
      past_literal t (tokenBuffer l) l (snd (skipIgnores l)))
  /\ (matches_here t l = false -> untouched l (snd (skipIgnores l))).
Proof.
  intros He Hfit. unfold skipIgnores.
  destruct (currentRune l =? RuneEOF)%Z eqn:E.
  - assert (Hm : matches_here t l = false)
      by (unfold matches_here; rewrite E; reflexivity).
    rewrite Hm. cbn [fst snd].
    split; [reflexivity|]. split; [discriminate|]. intros _; split; reflexivity.
  - exact (skipIgnores_loop_single (ignoreTokens l) t l He Hfit).
Qed.

Lemma skipIgnores_moves_past_the_literal_instance :
  let l := AddIgnoreTokens [runes "//"] (primed [] (runes "//ab")) in
  enabled_ignores l = [(runes "//", true)]
  /\ lookahead_fits (runes "//") l
  /\ fst (skipIgnores l) = true
  /\ currentRune (snd (skipIgnores l)) = 97%Z
  /\ pending (snd (skipIgnores l)) = runes "b".
Proof.
  intros l.
  assert (He : enabled_ignores l = [(runes "//", true)]) by reflexivity.
  assert (Hfit : lookahead_fits (runes "//") l) by (right; cbn; lia).
  destruct (skipIgnores_moves_past_the_literal (runes "//") l He Hfit)
    as (H1 & H2 & _).
  split; [exact He|]. split; [exact Hfit|].
  split; [exact H1|].
  destruct (H2 eq_refl) as (_ & _ & H3 & H4).
  split; [exact H3 | exact H4].
Defined.

(** ** Ignore literals of one rune *)

Lemma skipIgnores_loop_peek_free (entries : list (gostring * bool)) (l : Lexer) :
  currentRune l <> RuneEOF ->
  Forall (fun e : gostring * bool => length (fst e) <= 1)
    (filter (fun e : gostring * bool => snd e) entries) ->
  skipIgnores_loop entries l
  = (existsb (fun e : gostring * bool => runes_eqb (fst e) [currentRune l])
       (filter (fun e : gostring * bool => snd e) entries),
     if existsb (fun e : gostring * bool => runes_eqb (fst e) [currentRune l])
          (filter (fun e : gostring * bool => snd e) entries)
     then snd (read l) else l).
Proof.
  intros Hne. induction entries as [|[ig doit] rest IH];
    cbn [filter snd skipIgnores_loop]; intros Hf; [reflexivity|].
  destruct doit; [|exact (IH Hf)].
  inversion Hf as [|e es Hlen Hrest]; subst. cbn [fst] in Hlen.
  rewrite (CurrentTokenIs_short ig l Hlen Hne). cbn [existsb fst].
  destruct (runes_eqb ig [currentRune l]) eqn:E; cbn [orb].
  - apply runes_eqb_eq in E. subst ig. reflexivity.
  - exact (IH Hrest).
Qed.

Lemma skipIgnores_peek_free (l : Lexer) :
  ignores_peek_free l ->
  skipIgnores l
  = (ignored l (currentRune l),
     if ignored l (currentRune l) then snd (read l) else l).
Proof.
  intros Hpf. unfold skipIgnores, ignored.
  destruct (currentRune l =? RuneEOF)%Z eqn:He; cbn [negb andb];
    [reflexivity|].
  apply Z.eqb_neq in He.
  exact (skipIgnores_loop_peek_free (ignoreTokens l) l He Hpf).
Qed.

Lemma visible_ext (l l' : Lexer) (s : list rune) :
  ignoreTokens l' = ignoreTokens l -> visible l' s = visible l s.
Proof.
  intros H. unfold visible, ignored, enabled_ignores. rewrite H. reflexivity.
Qed.

Lemma ignores_peek_free_ext (l l' : Lexer) :
  ignoreTokens l' = ignoreTokens l -> ignores_peek_free l -> ignores_peek_free l'.
Proof.
  intros H. unfold ignores_peek_free, enabled_ignores. rewrite H. auto.
Qed.

Lemma visible_cons (l : Lexer) (c : rune) (q : list rune) :
  visible l (c :: q) = if ignored l c then visible l q else c :: visible l q.
Proof. unfold visible. cbn [filter]. destruct (ignored l c); reflexivity. Qed.

(** A stream and the cursor that stands on it describe the same search. *)
Lemma scan_list_cursor (sk : bool) (tkns : list gostring) (l : Lexer)
  (q : list rune) :
  scan_list sk tkns (visible l (hd RuneEOF q :: tl q))
  = scan_list sk tkns (visible l q).
Proof. destruct q as [|c q']; reflexivity. Qed.

Lemma scan_list_space (tkns : list gostring) (l : Lexer) (c : rune)
  (q : list rune) :
  IsSpace c = true ->
  scan_list true tkns (visible l (c :: q)) = scan_list true tkns (visible l q).
Proof.
  intros Hs. rewrite visible_cons.
  destruct (ignored l c); [reflexivity|].
  cbn [scan_list]. rewrite scan_unfold.
  pose proof (IsSpace_not_EOF _ Hs) as Hne. apply Z.eqb_neq in Hne.
  rewrite Hne, Hs. cbn [andb]. destruct (visible l q); reflexivity.
Qed.

Lemma scan_list_drop_space (tkns : list gostring) (l : Lexer) (q : list rune) :
  scan_list true tkns (visible l (drop_space q))
  = scan_list true tkns (visible l q).
Proof.
  induction q as [|c q IH]; cbn [drop_space]; [reflexivity|].
  destruct (IsSpace c) eqn:Hs; [|reflexivity].
  rewrite scan_list_space by exact Hs. exact IH.
Qed.

Lemma CaptureUntilOneOf_loop_visible (n : nat) (sk : bool)
  (tkns : list gostring) (l : Lexer) :
  peek_free tkns -> ignores_peek_free l -> weight l < n ->
  fst (CaptureUntilOneOf_loop n sk tkns l)
  = found (scan_list sk tkns (visible l (currentRune l :: pending l)))
  /\ tokenBuffer (snd (CaptureUntilOneOf_loop n sk tkns l))
     = tokenBuffer l
       ++ captured (scan_list sk tkns (visible l (currentRune l :: pending l)))
  /\ currentRune (snd (CaptureUntilOneOf_loop n sk tkns l))
     = stop_rune (scan_list sk tkns (visible l (currentRune l :: pending l)))
  /\ visible l (pending (snd (CaptureUntilOneOf_loop n sk tkns l)))
     = stop_pending
         (scan_list sk tkns (visible l (currentRune l :: pending l))).
Proof.
  intros Hpf. revert l; induction n as [|n IH]; intros l Hig Hn; [lia|].
  (* one turn of the loop when no white space is eaten *)
  assert (HB : sk && IsSpace (currentRune l) = false ->
    let r :=
      (let ch := currentRune l in
       if (ch =? RuneEOF)%Z then ([], l)
       else
         let (skipped, l2) := skipIgnores l in
         if skipped then CaptureUntilOneOf_loop n sk tkns l2
         else
           let (foundToken, l3) := find_token tkns l2 in
           if negb (is_blank foundToken) then (foundToken, l3)
           else CaptureUntilOneOf_loop n sk tkns (snd (read (WriteRune ch l3)))) in
    fst r = found (scan_list sk tkns (visible l (currentRune l :: pending l)))
    /\ tokenBuffer (snd r)
       = tokenBuffer l
         ++ captured (scan_list sk tkns (visible l (currentRune l :: pending l)))
    /\ currentRune (snd r)
       = stop_rune (scan_list sk tkns (visible l (currentRune l :: pending l)))
    /\ visible l (pending (snd r))
       = stop_pending
           (scan_list sk tkns (visible l (currentRune l :: pending l)))).
  { intros Hns. cbv zeta. rewrite visible_cons.
    destruct (currentRune l =? RuneEOF)%Z eqn:He.
    - assert (Hi : ignored l (currentRune l) = false)
        by (unfold ignored; rewrite He; reflexivity).
      rewrite Hi. cbn [scan_list]. rewrite scan_unfold, He.
      cbn [fst snd found captured stop_rune stop_pending].
      rewrite app_nil_r. auto.
    - pose proof He as Hne. apply Z.eqb_neq in Hne.
      rewrite skipIgnores_peek_free by exact Hig.
      destruct (ignored l (currentRune l)) eqn:Hi.
      + set (l' := snd (read l)).
        destruct (read_pending l) as (_ & Hc & Hp). fold l' in Hc, Hp.
        pose proof (read_no_cursor l) as Hf. fold l' in Hf.
        pose proof (read_weight_lt l Hne) as Hw. fold l' in Hw.
        apply no_cursor_fields in Hf. destruct Hf as (Hb & _ & _ & Hit).
        destruct (IH l' (ignores_peek_free_ext l l' Hit Hig))
          as (H1 & H2 & H3 & H4); [lia|].
        assert (Hv : forall q, visible l' q = visible l q)
          by (intros q; apply visible_ext; exact Hit).
        rewrite Hv in H1. rewrite Hv in H2. rewrite Hv in H3.
        rewrite !Hv in H4.
        rewrite Hc, Hp, scan_list_cursor in H1, H2, H3, H4.
        rewrite Hb in H2. auto.
      + cbn [scan_list]. rewrite scan_unfold, He, Hns.
        rewrite find_token_short by assumption.
        destruct (terminator_at tkns (currentRune l)) as [t|] eqn:Et.
        * apply terminator_at_not_blank in Et. subst t.
          cbn [is_blank negb fst snd found captured stop_rune stop_pending].
          rewrite app_nil_r. auto.
        * cbn [is_blank negb].
          set (l' := snd (read (WriteRune (currentRune l) l))).
          destruct (read_pending (WriteRune (currentRune l) l)) as (_ & Hc & Hp).
          fold l' in Hc, Hp. change (pending (WriteRune (currentRune l) l))
            with (pending l) in Hc, Hp.
          pose proof (read_no_cursor (WriteRune (currentRune l) l)) as Hf.
          fold l' in Hf.
          pose proof (read_weight_lt (WriteRune (currentRune l) l) Hne) as Hw.
          fold l' in Hw. rewrite WriteRune_weight in Hw.
          apply no_cursor_fields in Hf. destruct Hf as (Hb & _ & _ & Hit).
          change (ignoreTokens (WriteRune (currentRune l) l))
            with (ignoreTokens l) in Hit.
          change (tokenBuffer (WriteRune (currentRune l) l))
            with (tokenBuffer l ++ [currentRune l]) in Hb.
          destruct (IH l' (ignores_peek_free_ext l l' Hit Hig))
            as (H1 & H2 & H3 & H4); [lia|].
          assert (Hv : forall q, visible l' q = visible l q)
            by (intros q; apply visible_ext; exact Hit).
          rewrite Hv in H1. rewrite Hv in H2. rewrite Hv in H3.
          rewrite !Hv in H4.
          rewrite Hc, Hp, scan_list_cursor in H1, H2, H3, H4.
          rewrite Hb, <- app_assoc in H2. cbn [app] in H2.
          destruct (visible l (pending l)) as [|r p'];
            cbn [scan_list found captured stop_rune stop_pending] in *;
            auto. }
  cbn [CaptureUntilOneOf_loop]. destruct sk.
  - destruct (IsSpace (currentRune l)) eqn:Hsp.
    + destruct (EatWhitespace_frame l) as (Hf & Hle & Hlt).
      assert (Hlen : length (pending l) < fuel_of l)
        by (unfold fuel_of, weight, pending; rewrite length_app; lia).
      destruct (EatWhitespace_loop_drop (fuel_of l) l Hlen) as (D1 & D2 & D3).
      assert (E : EatWhitespace l = EatWhitespace_loop (fuel_of l) l)
        by (unfold EatWhitespace; rewrite Hsp; reflexivity).
      rewrite <- E in D1, D2, D3.
      destruct (EatWhitespace l) as [ate l1]; cbn [fst snd] in *.
      apply no_cursor_fields in Hf. destruct Hf as (Hb & _ & _ & Hit).
      rewrite scan_list_space by exact Hsp.
      rewrite <- (scan_list_drop_space tkns l (pending l)).
      rewrite <- (scan_list_cursor true tkns l (drop_space (pending l))).
      rewrite <- D1, <- D2.
      destruct ate.
      * specialize (Hlt eq_refl).
        destruct (IH l1 (ignores_peek_free_ext l l1 Hit Hig))
          as (H1 & H2 & H3 & H4); [lia|].
        assert (Hv : forall q, visible l1 q = visible l q)
          by (intros q; apply visible_ext; exact Hit).
        rewrite Hv in H1. rewrite Hv in H2. rewrite Hv in H3.
        rewrite !Hv in H4.
        rewrite Hb in H2. auto.
      * symmetry in D3. apply negb_false_iff in D3.
        rewrite <- D1 in D3.
        rewrite visible_cons.
        assert (Hi : ignored l (currentRune l1) = false)
          by (unfold ignored; rewrite D3; reflexivity).
        rewrite Hi. cbn [scan_list]. rewrite scan_unfold, D3.
        cbn [fst snd found captured stop_rune stop_pending].
        rewrite app_nil_r. auto.
    + assert (E : EatWhitespace l = (false, l))
        by (unfold EatWhitespace; rewrite Hsp; reflexivity).
      rewrite E. apply HB. reflexivity.
  - apply HB. reflexivity.
Qed.

(** X3. With terminators and enabled ignore literals of at most one rune,
    a capture-until does not see the ignored runes: it finds, captures
    and stops as the search described by [scan] does on the runes from
    the cursor on that are not ignored.  An ignored rune is neither
    captured nor found as a terminator. *)
Theorem ignored_runes_are_invisible_to_capture (sk : bool)
  (tkns : list gostring) (l : Lexer) :
  tkns <> [] -> peek_free tkns -> ignores_peek_free l ->
  let s := scan_list sk tkns (visible l (currentRune l :: pending l)) in
  let l' := snd (CaptureUntilOneOf sk tkns l) in
  fst (CaptureUntilOneOf sk tkns l) = found s
  /\ tokenBuffer l' = tokenBuffer l ++ captured s
  /\ currentRune l' = stop_rune s
  /\ visible l (pending l') = stop_pending s
  /\ Forall (fun r => ignored l r = false) (captured s).
Proof.
  intros Hne Hpf Hig s l'.
  assert (Hcap : forall q c,
    Forall (fun r => ignored l r = false) (c :: q) ->
    Forall (fun r => ignored l r = false) (captured (scan sk tkns c q))).
  { induction q as [|r q IH]; intros c Hc; rewrite scan_unfold;
      inversion Hc as [|x xs Hx Hxs]; subst.
    - destruct (c =? RuneEOF)%Z; [constructor|].
      destruct (sk && IsSpace c); [constructor|].
      destruct (terminator_at tkns c); repeat constructor. exact Hx.
    - destruct (c =? RuneEOF)%Z; [constructor|].
      destruct (sk && IsSpace c); [exact (IH r Hxs)|].
      destruct (terminator_at tkns c); [constructor|].
      cbv zeta. cbn [captured]. constructor; [exact Hx | exact (IH r Hxs)]. }
  assert (Hvis : Forall (fun r => ignored l r = false) (captured s)).
  { subst s. set (v := visible l (currentRune l :: pending l)).
    assert (Hv : Forall (fun r => ignored l r = false) v).
    { apply Forall_forall. intros r Hr. unfold v, visible in Hr.
      apply filter_In in Hr. destruct Hr as [_ Hr].
      apply negb_true_iff in Hr. exact Hr. }
    destruct v as [|c q]; [constructor | exact (Hcap q c Hv)]. }
  subst l'. unfold CaptureUntilOneOf.
  destruct tkns as [|t ts]; [congruence|]. cbn [length Nat.ltb Nat.leb orb].
  destruct (currentRune l =? RuneEOF)%Z eqn:He.
  - subst s. revert Hvis. rewrite visible_cons.
    assert (Hi : ignored l (currentRune l) = false)
      by (unfold ignored; rewrite He; reflexivity).
    rewrite Hi. cbn [scan_list]. rewrite scan_unfold, He.
    cbn [fst snd found captured stop_rune stop_pending].
    rewrite app_nil_r. auto.
  - destruct (CaptureUntilOneOf_loop_visible (fuel_of l) sk (t :: ts) l Hpf Hig)
      as (H1 & H2 & H3 & H4); [unfold fuel_of; lia|].
    destruct (CaptureUntilOneOf_loop _ _ _ _) as [f l1]; cbn [fst snd] in *.
    auto.
Qed.

Lemma ignored_runes_are_invisible_to_capture_instance :
  let l := AddIgnoreTokens [runes "*"] (primed [] (runes "a*b c*!d")) in
  let l' := snd (CaptureUntilOneOf false [runes "!"; runes "*"] l) in
  [runes "!"; runes "*"] <> []
  /\ peek_free [runes "!"; runes "*"]
  /\ ignores_peek_free l
  /\ fst (CaptureUntilOneOf false [runes "!"; runes "*"] l) = runes "!"
  /\ tokenBuffer l' = runes "ab c"
  /\ currentRune l' = 33%Z
  /\ visible l (pending l') = runes "d".
Proof.
  intros l l'.
  assert (Hne : [runes "!"; runes "*"] <> []) by discriminate.
  assert (Hpf : peek_free [runes "!"; runes "*"])
    by (repeat constructor).
  assert (Hig : ignores_peek_free l) by (repeat constructor).
  destruct (ignored_runes_are_invisible_to_capture false
              [runes "!"; runes "*"] l Hne Hpf Hig)
    as (H1 & H2 & H3 & H4 & _).
  split; [exact Hne|]. split; [exact Hpf|]. split; [exact Hig|].
  split; [exact H1|]. split; [exact H2|]. split; [exact H3 | exact H4].
Defined.

(** ** Capture-until followed by consume or skip *)

Lemma read_runeCache_le (l : Lexer) :
  length (runeCache (snd (read l))) <= length (runeCache l).
Proof.
  unfold read. destruct (runeCache l) as [|c rest] eqn:E.
  - destruct (inputBuffer l); cbn; rewrite E; cbn; lia.
  - cbn. lia.
Qed.

Lemma EatWhitespace_loop_runeCache_le (n : nat) (l : Lexer) :
  length (runeCache (snd (EatWhitespace_loop n l))) <= length (runeCache l).
Proof.
  revert l; induction n as [|n IH]; intros l; cbn [EatWhitespace_loop];
    [cbn; lia|].
  pose proof (read_runeCache_le l) as Hr.
  destruct (currentRune (snd (read l)) =? RuneEOF)%Z; [exact Hr|].
  destruct (negb _); [exact Hr|].
  specialize (IH (snd (read l))). lia.
Qed.

Lemma EatWhitespace_runeCache_le (l : Lexer) :
  length (runeCache (snd (EatWhitespace l))) <= length (runeCache l).
Proof.
  unfold EatWhitespace. destruct (negb _); [cbn; lia|].
  apply EatWhitespace_loop_runeCache_le.
Qed.

Lemma lookahead_fits_le (t : gostring) (l l' : Lexer) :
  length (runeCache l') <= length (runeCache l) ->
  lookahead_fits t l -> lookahead_fits t l'.
Proof. intros Hle [H|H]; [left; exact H | right; lia]. Qed.

(** The test of a literal leaves a cache that the next test of the same
    literal can use. *)
Lemma CurrentTokenIs_fits (t : gostring) (l : Lexer) :
  lookahead_fits t l -> lookahead_fits t (snd (CurrentTokenIs t l)).
Proof.
  intros [H|H]; [left; exact H|].
  unfold CurrentTokenIs, CurrentTokenIsOneOf.
  destruct (currentRune l =? RuneEOF)%Z; [right; exact H|].
  cbn [CurrentTokenIsOneOf_loop].
  destruct t as [|t0 tt]; [right; exact H|].
  destruct (negb (t0 =? currentRune l)%Z); [right; exact H|].
  cbv zeta. destruct (0 <? length tt)%nat.
  - destruct (peek_spec (length tt) l) as (_ & Hc & _).
    destruct (peek (length tt) l) as [peeks l']; cbn [fst snd] in *.
    assert (Hl : length (runeCache l') < length (t0 :: tt)).
    { rewrite Hc, length_app. cbn [length] in *.
      rewrite skipn_all2 by lia. cbn [length].
      pose proof (firstn_le_length (length tt) (pending l)). lia. }
    destruct (runes_eqb _ _); right; exact Hl.
  - destruct (runes_eqb _ _); right; exact H.
Qed.

Lemma CaptureUntilOneOf_loop_single (n : nat) (sk : bool) (t : gostring)
  (l : Lexer) :
  ignores_disabled l -> lookahead_fits t l ->
  fst (CaptureUntilOneOf_loop n sk [t] l) <> [] ->
  fst (CaptureUntilOneOf_loop n sk [t] l) = t
  /\ matches_here t (snd (CaptureUntilOneOf_loop n sk [t] l)) = true
  /\ lookahead_fits t (snd (CaptureUntilOneOf_loop n sk [t] l)).
Proof.
  revert l; induction n as [|n IH]; intros l Hig Hfit;
    cbn [CaptureUntilOneOf_loop]; [cbn; congruence|].
  assert (Hate : forall ate l1,
    (if sk then EatWhitespace l else (false, l)) = (ate, l1) ->
    ignores_disabled l1 /\ lookahead_fits t l1).
  { intros ate l1 E. destruct sk.
    - pose proof (EatWhitespace_frame l) as (Hf & _).
      pose proof (EatWhitespace_runeCache_le l) as Hle.
      rewrite E in Hf, Hle. cbn [snd] in *.
      apply no_cursor_fields in Hf. destruct Hf as (_ & _ & _ & Hit).
      split; [unfold ignores_disabled; rewrite Hit; exact Hig|].
      exact (lookahead_fits_le t l l1 Hle Hfit).
    - injection E as _ <-. auto. }
  destruct (if sk then EatWhitespace l else (false, l)) as [ate l1].
  destruct (Hate ate l1 eq_refl) as [Hig1 Hfit1]. clear Hate.
  destruct ate; [exact (IH l1 Hig1 Hfit1)|].
  destruct (currentRune l1 =? RuneEOF)%Z; [cbn; congruence|].
  rewrite skipIgnores_disabled by exact Hig1.
  cbn [find_token].
  destruct (is_blank t) eqn:Hb.
  - cbn [is_blank negb].
    pose proof (read_no_cursor (WriteRune (currentRune l1) l1)) as Hf.
    apply no_cursor_fields in Hf. destruct Hf as (_ & _ & _ & Hit).
    apply IH.
    + unfold ignores_disabled. rewrite Hit. exact Hig1.
    + refine (lookahead_fits_le t l1 _ _ Hfit1).
      exact (read_runeCache_le (WriteRune (currentRune l1) l1)).
  - destruct (CurrentTokenIs_spec t l1 Hfit1) as (C1 & C2).
    destruct (CurrentTokenIs_frame t l1) as (C3 & _).
    pose proof (CurrentTokenIs_fits t l1 Hfit1) as C4.
    destruct (CurrentTokenIs t l1) as [hit l2]; cbn [fst snd] in *.
    pose proof (no_lookahead_fields _ _ C3) as (Hc & _).
    destruct hit.
    + rewrite Hb. cbn [negb fst snd]. intros _.
      split; [reflexivity|]. split; [|exact C4].
      unfold matches_here in *. rewrite Hc, C2. symmetry; exact C1.
    + cbn [is_blank negb].
      pose proof (read_no_cursor (WriteRune (currentRune l1) l2)) as Hf.
      apply no_cursor_fields in Hf. destruct Hf as (_ & _ & _ & Hit).
      change (ignoreTokens (WriteRune (currentRune l1) l2))
        with (ignoreTokens l2) in Hit.
      assert (Hit2 : ignoreTokens l2 = ignoreTokens l1).
      { apply no_lookahead_cursor, no_cursor_fields in C3. tauto. }
      apply IH.
      * unfold ignores_disabled. rewrite Hit, Hit2. exact Hig1.
      * refine (lookahead_fits_le t l2 _ _ C4).
        exact (read_runeCache_le (WriteRune (currentRune l1) l2)).
Qed.

(** What [ConsumeCurrentToken] and [SkipCurrentToken] do on a literal
    that stands at the cursor. *)
Lemma consume_skip_hit (clearPrevious : bool) (l : Lexer) :
  lookahead_fits (lastKnownToken l) l ->
  matches_here (lastKnownToken l) l = true ->
  (fst (ConsumeCurrentToken clearPrevious l) = true
   /\ exists l1,
        past_literal (lastKnownToken l)
          ((if clearPrevious then [] else tokenBuffer l) ++ lastKnownToken l)
          l l1
        /\ snd (ConsumeCurrentToken clearPrevious l) = eat_trailing l1)
  /\ (fst (SkipCurrentToken clearPrevious l) = true
      /\ exists l1,
           past_literal (lastKnownToken l)
             (if clearPrevious then [] else tokenBuffer l) l l1
           /\ snd (SkipCurrentToken clearPrevious l) = eat_trailing l1).
Proof.
  intros Hfit Hm.
  set (t := lastKnownToken l) in *.
  set (kept := if clearPrevious then [] else tokenBuffer l).
  unfold ConsumeCurrentToken, SkipCurrentToken.
  destruct (CurrentTokenIs_spec t l Hfit) as [Hs Hp].
  destruct (CurrentTokenIs_frame t l) as [Hf _].
  fold t. destruct (CurrentTokenIs t l) as [hit l1]; cbn [fst snd] in *.
  rewrite Hm in Hs. subst hit.
  pose proof (no_lookahead_fields _ _ Hf) as (Hc & Hb & Hk).
  assert (Hm1 : matches_here t l1 = true)
    by (unfold matches_here in *; rewrite Hc, Hp; exact Hm).
  destruct (matches_here_true _ _ Hm) as (Hne & Ht & _).
  assert (Hnb : is_blank t = false) by (rewrite Ht; reflexivity).
  assert (Hnil : t <> []) by (rewrite Ht; discriminate).
  rewrite Hk. fold t. rewrite Hnb. cbn [negb orb].
  rewrite Hc. apply Z.eqb_neq in Hne. rewrite Hne.
  assert (Hk2 : forall l2, l2 = (if clearPrevious then Reset l1 else l1) ->
                lastKnownToken l2 = t /\ currentRune l2 = currentRune l1
                /\ with_tokenBuffer kept l1 = l2).
  { intros l2 ->. unfold kept. rewrite <- Hb.
    destruct clearPrevious; repeat split; auto.
    destruct l1; reflexivity. }
  destruct (Hk2 _ eq_refl) as (Hk3 & Hc3 & Hw).
  cbn [fst snd]. split; (split; [reflexivity|]).
  - eexists; split; [|reflexivity].
    apply past_literal_from with (l1 := l1); [exact Hf | exact Hp |].
    unfold WriteRune. cbn [lastKnownToken with_tokenBuffer].
    rewrite Hk3, Hc3, <- Hw.
    exact (commit_consume kept t l1 Hm1).
  - eexists; split; [|reflexivity].
    apply past_literal_from with (l1 := l1); [exact Hf | exact Hp |].
    rewrite Hk3, <- Hw. apply commit_skip. exact Hnil.
Qed.

Lemma eat_trailing_tokenBuffer (l : Lexer) :
  tokenBuffer (eat_trailing l) = tokenBuffer l.
Proof. exact (proj1 (no_cursor_fields _ _ (eat_trailing_frame l))). Qed.

(** X9. With no ignore literal enabled and a cache that fits the
    terminator, a [CaptureUntil] that returns true leaves the lexer on
    the terminator, recorded as the Last-Matched-Literal.  A
    [ConsumeCurrentToken] that follows returns true and appends the
    terminator to the kept capture buffer, a [SkipCurrentToken] returns
    true and appends nothing; both move the cursor past the terminator,
    and past what [eat_trailing] eats behind it. *)
Theorem capture_until_then_consume_or_skip (sk clearPrevious : bool)
  (until : gostring) (l : Lexer) :
  ignores_disabled l -> lookahead_fits until l ->
  fst (CaptureUntil sk until l) = true ->
  let l1 := snd (CaptureUntil sk until l) in
  let kept := if clearPrevious then [] else tokenBuffer l1 in
  lastKnownToken l1 = until
  /\ matches_here until l1 = true
  /\ fst (ConsumeCurrentToken clearPrevious l1) = true
  /\ tokenBuffer (snd (ConsumeCurrentToken clearPrevious l1)) = kept ++ until
  /\ (exists l2, past_literal until (kept ++ until) l1 l2
                 /\ snd (ConsumeCurrentToken clearPrevious l1) = eat_trailing l2)
  /\ fst (SkipCurrentToken clearPrevious l1) = true
  /\ tokenBuffer (snd (SkipCurrentToken clearPrevious l1)) = kept
  /\ (exists l2, past_literal until kept l1 l2
                 /\ snd (SkipCurrentToken clearPrevious l1) = eat_trailing l2).
Proof.
  intros Hig Hfit Hres l1 kept.
  assert (H : lastKnownToken l1 = until /\ matches_here until l1 = true
              /\ lookahead_fits until l1).
  { subst l1. revert Hres. unfold CaptureUntil.
    destruct (is_blank until); [cbn; discriminate|].
    unfold CaptureUntilOneOf. cbn [length Nat.ltb Nat.leb orb].
    destruct (currentRune l =? RuneEOF)%Z; [cbn; discriminate|].
    pose proof (CaptureUntilOneOf_loop_single (fuel_of l) sk until l Hig Hfit)
      as Hl.
    destruct (CaptureUntilOneOf_loop _ _ _ _) as [f l2]; cbn [fst snd] in *.
    intros Hf. destruct f as [|f0 ff]; [discriminate Hf|].
    destruct Hl as (H1 & H2 & H3); [discriminate|].
    cbn [lastKnownToken with_lastKnownToken]. split; [exact H1|].
    split; [exact H2 | exact H3]. }
  destruct H as (Hk & Hm & Hfit1).
  split; [exact Hk|]. split; [exact Hm|].
  assert (Hfit2 : lookahead_fits (lastKnownToken l1) l1)
    by (rewrite Hk; exact Hfit1).
  assert (Hm2 : matches_here (lastKnownToken l1) l1 = true)
    by (rewrite Hk; exact Hm).
  destruct (consume_skip_hit clearPrevious l1 Hfit2 Hm2)
    as ((C1 & lc & C2 & C3) & (S1 & ls & S2 & S3)).
  rewrite Hk in C2, S2. fold kept in C2, S2.
  split; [exact C1|]. split.
  { rewrite C3, eat_trailing_tokenBuffer. destruct C2 as (_ & C2 & _). exact C2. }
  split; [exists lc; auto|]. split; [exact S1|]. split.
  { rewrite S3, eat_trailing_tokenBuffer. destruct S2 as (_ & S2 & _). exact S2. }
  exists ls; auto.
Qed.

Lemma capture_until_then_consume_or_skip_instance :
  let l := primed [] (runes "a /* b */ c") in
  let l1 := snd (CaptureUntil false (runes "*/") l) in
  ignores_disabled l
  /\ lookahead_fits (runes "*/") l
  /\ fst (CaptureUntil false (runes "*/") l) = true
  /\ tokenBuffer l1 = runes "a /* b "
  /\ fst (ConsumeCurrentToken false l1) = true
  /\ tokenBuffer (snd (ConsumeCurrentToken false l1)) = runes "a /* b */"
  /\ fst (SkipCurrentToken false l1) = true
  /\ tokenBuffer (snd (SkipCurrentToken false l1)) = runes "a /* b ".
Proof.
  intros l l1.
  assert (Hig : ignores_disabled l) by constructor.
  assert (Hfit : lookahead_fits (runes "*/") l) by (right; cbn; lia).
  assert (Hres : fst (CaptureUntil false (runes "*/") l) = true) by reflexivity.
  destruct (capture_until_then_consume_or_skip false false (runes "*/") l
              Hig Hfit Hres) as (_ & _ & H1 & H2 & _ & H3 & H4 & _).
  split; [exact Hig|]. split; [exact Hfit|]. split; [exact Hres|].
  split; [reflexivity|]. split; [exact H1|]. split; [exact H2|].
  split; [exact H3 | exact H4].
Defined.

(** ** Looking ahead *)

(** X15. [peek n] returns the next [n] runes to be read, fewer when the
    input ends before, and moves neither the current rune nor the capture
    buffer.  The cache then holds what was left of it followed by the
    runes returned.  When the cache held at most [n] runes, the runes to
    come are those of before, in the same order, and the reads that
    follow deliver the runes returned. *)
Theorem peek_returns_the_next_runes (n : nat) (l : Lexer) :
  fst (peek n l) = firstn n (pending l)
  /\ no_lookahead (snd (peek n l)) = no_lookahead l
  /\ runeCache (snd (peek n l)) = skipn n (runeCache l) ++ firstn n (pending l)
  /\ inputBuffer (snd (peek n l))
     = skipn (n - length (runeCache l)) (inputBuffer l)
  /\ (length (runeCache l) <= n ->
      pending (snd (peek n l)) = pending l
      /\ fst (advance (length (fst (peek n l))) (snd (peek n l)))
         = fst (peek n l)).
Proof.
  destruct (peek_spec n l) as (H1 & H2 & H3).
  split; [exact H1|]. split; [apply peek_no_lookahead|].
  split; [exact H2|]. split; [exact H3|].
  intros Hle. split; [apply peek_keeps_pending | apply peek_then_advance];
    exact Hle.
Qed.

Lemma peek_returns_the_next_runes_instance :
  let l := snd (peek 1 (primed [] (runes "abXYZ"))) in
  length (runeCache l) <= 2
  /\ fst (peek 2 l) = runes "bX"
  /\ pending (snd (peek 2 l)) = pending l
  /\ fst (advance (length (fst (peek 2 l))) (snd (peek 2 l))) = fst (peek 2 l).
Proof.
  intros l.
  assert (Hle : length (runeCache l) <= 2) by (vm_compute; lia).
  destruct (peek_returns_the_next_runes 2 l) as (H1 & _ & _ & _ & H5).
  split; [exact Hle|]. split; [exact H1 | exact (H5 Hle)].
Defined.

(** ** Several candidates *)

Lemma CurrentTokenIsOneOf_loop_cons (t : gostring) (rest : list gostring)
  (l : Lexer) :
  currentRune l <> RuneEOF ->
  CurrentTokenIsOneOf_loop (t :: rest) l
  = if fst (CurrentTokenIs t l) then (t, snd (CurrentTokenIs t l))
    else CurrentTokenIsOneOf_loop rest (snd (CurrentTokenIs t l)).
Proof.
  intros Hne. apply Z.eqb_neq in Hne.
  unfold CurrentTokenIs, CurrentTokenIsOneOf. rewrite Hne.
  cbn [CurrentTokenIsOneOf_loop].
  destruct t as [|t0 tt]; [reflexivity|].
  destruct (negb (t0 =? currentRune l)%Z); [reflexivity|].
  cbv zeta. destruct (0 <? length tt)%nat.
  - destruct (peek (length tt) l) as [peeks l1].
    destruct (runes_eqb _ _); reflexivity.
  - destruct (runes_eqb _ _); reflexivity.
Qed.

Lemma first_match_ext (tkns : list gostring) (l l' : Lexer) :
  currentRune l' = currentRune l -> pending l' = pending l ->
  first_match tkns l' = first_match tkns l.
Proof.
  intros Hc Hp. unfold first_match.
  induction tkns as [|t rest IH]; cbn [find]; [reflexivity|].
  assert (E : matches_here t l' = matches_here t l)
    by (unfold matches_here; rewrite Hc, Hp; reflexivity).
  rewrite E, IH. reflexivity.
Qed.

Lemma CurrentTokenIsOneOf_loop_first_match (tkns : list gostring) (l : Lexer) :
  currentRune l <> RuneEOF -> by_length tkns = true ->
  Forall (fun t => lookahead_fits t l) tkns ->
  fst (CurrentTokenIsOneOf_loop tkns l)
  = match first_match tkns l with Some t => t | None => [] end
  /\ untouched l (snd (CurrentTokenIsOneOf_loop tkns l)).
Proof.
  revert l; induction tkns as [|t rest IH]; intros l Hne Hby Hfit.
  { cbn. split; [reflexivity | split; reflexivity]. }
  cbn [by_length] in Hby. apply andb_true_iff in Hby. destruct Hby as [Hlen Hby].
  inversion Hfit as [|x xs Hft Hfr]; subst.
  rewrite CurrentTokenIsOneOf_loop_cons by exact Hne.
  destruct (CurrentTokenIs_spec t l Hft) as (C1 & C2).
  destruct (CurrentTokenIs_frame t l) as (C3 & _).
  pose proof (CurrentTokenIs_fits t l Hft) as C4.
  pose proof (CurrentTokenIs_short t l) as C5.
  destruct (CurrentTokenIs t l) as [hit l1]; cbn [fst snd] in *.
  pose proof (no_lookahead_fields _ _ C3) as (Hc & _).
  unfold first_match. cbn [find]. fold (first_match rest l).
  rewrite <- C1. destruct hit; cbn [fst snd].
  - split; [reflexivity | split; assumption].
  - assert (Hfit1 : Forall (fun u => lookahead_fits u l1) rest).
    { rewrite forallb_forall in Hlen. rewrite Forall_forall in Hfr |- *.
      intros u Hu. specialize (Hlen u Hu). apply Nat.leb_le in Hlen.
      destruct (le_lt_dec (length t) 1) as [Hs|Hl].
      - specialize (C5 Hs Hne). injection C5 as _ ->. exact (Hfr u Hu).
      - destruct C4 as [C4|C4]; [lia|]. right. lia. }
    destruct (IH l1 ltac:(congruence) Hby Hfit1) as (H1 & H2 & H3).
    rewrite (first_match_ext rest l l1 Hc C2) in H1.
    split; [exact H1|]. split; congruence.
Qed.

(** X16. When the candidates are given in order of length, the shortest
    first, and the cache fits each of them, [CurrentTokenIsOneOf] returns
    the first candidate that stands at the current position, and false
    with the empty string when none does.  The current rune, the runes to
    come and the capture buffer are those of before. *)
Theorem CurrentTokenIsOneOf_returns_the_first_match (tkns : list gostring)
  (l : Lexer) :
  by_length tkns = true ->
  Forall (fun t => lookahead_fits t l) tkns ->
  fst (CurrentTokenIsOneOf tkns l)
  = match first_match tkns l with
    | Some t => (true, t)
    | None => (false, [])
    end
  /\ untouched l (snd (CurrentTokenIsOneOf tkns l)).
Proof.
  intros Hby Hfit. unfold CurrentTokenIsOneOf.
  destruct (currentRune l =? RuneEOF)%Z eqn:He.
  - assert (Hn : first_match tkns l = None).
    { unfold first_match. clear Hby Hfit.
      induction tkns as [|t rest IH]; cbn [find]; [reflexivity|].
      unfold matches_here at 1. rewrite He. cbn [negb andb]. exact IH. }
    rewrite Hn. cbn [fst snd]. split; [reflexivity | split; reflexivity].
  - apply Z.eqb_neq in He.
    destruct (CurrentTokenIsOneOf_loop_first_match tkns l He Hby Hfit)
      as (H1 & H2).
    destruct (CurrentTokenIsOneOf_loop tkns l) as [f l1]; cbn [fst snd] in *.
    split; [|exact H2]. subst f.
    destruct (first_match tkns l) as [t|] eqn:Ef; [|reflexivity].
    unfold first_match in Ef. apply find_some in Ef. destruct Ef as [_ Hm].
    apply matches_here_true in Hm. destruct Hm as (_ & Ht & _).
    rewrite Ht. reflexivity.
Qed.

Lemma CurrentTokenIsOneOf_returns_the_first_match_instance :
  let l := primed [] (runes "abXY") in
  let tkns := [runes "ab"; runes "abc"; runes "abcd"] in
  by_length tkns = true
  /\ Forall (fun t => lookahead_fits t l) tkns
  /\ fst (CurrentTokenIsOneOf tkns l) = (true, runes "ab")
  /\ untouched l (snd (CurrentTokenIsOneOf tkns l)).
Proof.
  intros l tkns.
  assert (Hby : by_length tkns = true) by reflexivity.
  assert (Hfit : Forall (fun t => lookahead_fits t l) tkns)
    by (repeat constructor; right; cbn; lia).
  split; [exact Hby|]. split; [exact Hfit|].
  exact (CurrentTokenIsOneOf_returns_the_first_match tkns l Hby Hfit).
Defined.

(** ** The order of the tokens *)

Lemma receive_queued (LexFn : Type)
  (call : LexFn -> Lexer -> Outcome (option LexFn * Lexer)) (fuel : nat)
  (toks : list Token) (l : Lexer) (st bg : option LexFn) :
  tokens l = toks ->
  receive call fuel (length toks) (mkDriver l st bg)
  = Some (map Some toks, mkDriver (with_tokens [] l) st bg).
Proof.
  revert l; induction toks as [|tok rest IH]; intros l Ht.
  - cbn [length receive map]. rewrite <- Ht. destruct l; reflexivity.
  - cbn [length receive].
    assert (E : NextEmittedToken call fuel (mkDriver l st bg)
                = Some (Done (Some tok, mkDriver (with_tokens rest l) st bg))).
    { destruct fuel; cbn [NextEmittedToken lxr state begin]; rewrite Ht;
        reflexivity. }
    rewrite E. rewrite (IH (with_tokens rest l) eq_refl). reflexivity.
Qed.

(** X17. The channel delivers in the order of the sends, and
    [NextEmittedToken] runs no step while a token is queued: after a send
    that completes, as many calls as there are queued tokens return the
    tokens that were queued and then the one sent, leave the chain of
    steps where it was and the lexer as it is but for the emptied
    queue. *)
Theorem tokens_are_received_in_the_order_sent (LexFn : Type)
  (call : LexFn -> Lexer -> Outcome (option LexFn * Lexer)) (fuel : nat)
  (tok : Token) (l l' : Lexer) (st bg : option LexFn) :
  EmitToken tok l = Done l' ->
  length (tokens l') = S (length (tokens l))
  /\ receive call fuel (length (tokens l')) (mkDriver l' st bg)
     = Some (map Some (tokens l ++ [tok]),
             mkDriver (with_tokens [] l) st bg).
Proof.
  unfold EmitToken. rewrite send_spec.
  destruct (tokensClosed l); [discriminate|].
  destruct (length (tokens l) <? tokensCap); [|discriminate].
  intros E. injection E as <-.
  cbn [tokens with_tokens]. rewrite length_app. cbn [length].
  split; [lia|].
  replace (length (tokens l) + 1) with (length (tokens l ++ [tok]))
    by (rewrite length_app; reflexivity).
  rewrite (receive_queued LexFn call fuel (tokens l ++ [tok])
             (with_tokens (tokens l ++ [tok]) l) st bg eq_refl).
  destruct l; reflexivity.
Qed.

Lemma tokens_are_received_in_the_order_sent_instance :
  let l := with_tokens [defaultToken 1%Z (runes "a")] (primed [] (runes "xyz")) in
  let tok := defaultToken 2%Z (runes "b") in
  let l' := with_tokens [defaultToken 1%Z (runes "a"); tok] (primed [] (runes "xyz")) in
  EmitToken tok l = Done l'
  /\ receive example_call 0 2 (mkDriver l' (Some return_nil) None)
     = Some ([Some (defaultToken 1%Z (runes "a")); Some tok],
             mkDriver (with_tokens [] l) (Some return_nil) None).
Proof.
  intros l tok l'.
  assert (E : EmitToken tok l = Done l') by reflexivity.
  split; [exact E|].
  exact (proj2 (tokens_are_received_in_the_order_sent _ example_call 0 tok l l'
                  (Some return_nil) None E)).
Defined.

(** * End of input, terminators and the matched literal *)

(** ** [IsEOF] over the life of a lexer *)

(** C6 (amended): for an input text without the rune 0, whatever calls
    are made on the lexer that [NewLexer] built, [IsEOF] is true only
    when nothing is left to read, neither in the cache nor in the
    reader; and for any lexer, once [IsEOF] is true it is true after
    every further call, and after [NextEmittedToken] and [Run] when the
    steps are made of such calls.  [NextEmittedToken] itself, called on
    an empty open queue once the chain has returned [nil], returns the
    end-of-input token, drops what is left in the reader and sets
    [IsEOF], and keeps the cache as it is. *)
Theorem IsEOF_sound_and_permanent (IsLetter IsDigit : rune -> bool) :
  (forall (name input : gostring) (calls : list Call) (l : Lexer),
      ~ In RuneEOF input ->
      exec_all IsLetter IsDigit calls (primed name input) = Done l ->
      IsEOF l = true -> runeCache l = [] /\ inputBuffer l = [])
  /\ (forall (l : Lexer) (more : list Call) (l' : Lexer),
      IsEOF l = true -> exec_all IsLetter IsDigit more l = Done l' ->
      IsEOF l' = true)
  /\ (forall (LexFn : Type)
             (call : LexFn -> Lexer -> Outcome (option LexFn * Lexer)),
      steps_are_calls IsLetter IsDigit call ->
      (forall fuel d tok d',
          IsEOF (lxr d) = true ->
          NextEmittedToken call fuel d = Some (Done (tok, d')) ->
          IsEOF (lxr d') = true)
      /\ (forall fuel d d',
          IsEOF (lxr d) = true -> Run call fuel d = Some (Done d') ->
          IsEOF (lxr d') = true))
  /\ (forall (LexFn : Type)
             (call : LexFn -> Lexer -> Outcome (option LexFn * Lexer))
             (fuel : nat) (d : Driver LexFn),
      state d = None -> tokens (lxr d) = [] -> tokensClosed (lxr d) = false ->
      exists d',
        NextEmittedToken call fuel d
        = Some (Done (Some (defaultToken TokenTypeEOF StringEOF), d'))
        /\ IsEOF (lxr d') = true /\ inputBuffer (lxr d') = []
        /\ runeCache (lxr d') = runeCache (lxr d)
        /\ no_cursor (lxr d') = no_cursor (lxr d)).
Proof.
  split; [|split; [|split]].
  - intros name input calls l Hn Hr He. apply IsEOF_true in He.
    pose proof (sound_EOF_exec_all IsLetter IsDigit calls _ l Hr
                  (sound_EOF_primed name input Hn)) as [_ Hs].
    specialize (Hs He). unfold pending in Hs.
    apply app_eq_nil in Hs. exact Hs.
  - intros l more l' He Hm. apply IsEOF_true.
    apply IsEOF_true in He.
    exact (exec_all_at_EOF IsLetter IsDigit more l l' Hm He).
  - intros LexFn call Hsteps. split.
    + apply (NextEmittedToken_keeps_EOF IsLetter IsDigit), Hsteps.
    + intros fuel d d' He Hr.
      destruct (Run_only_closes LexFn call fuel d d' Hr) as (l1 & Hl & ->).
      change (IsEOF (with_tokensClosed true l1)) with (IsEOF l1).
      exact (Run_loop_keeps_EOF IsLetter IsDigit LexFn call Hsteps
               fuel _ _ _ He Hl).
  - intros LexFn call fuel d Hst Ht Ho. eexists.
    split; [destruct fuel; cbn [NextEmittedToken]; rewrite Ht, Ho, Hst;
            reflexivity|].
    repeat split.
Qed.

Lemma IsEOF_sound_and_permanent_instance :
  let l := snd (CaptureUntil false (runes "!") (primed [] (runes "ab"))) in
  ~ In RuneEOF (runes "ab")
  /\ IsEOF l = true
  /\ runeCache l = [] /\ inputBuffer l = [].
Proof.
  intros l.
  assert (Hn : ~ In RuneEOF (runes "ab"))
    by (vm_compute; intros [H|[H|[]]]; discriminate H).
  split; [exact Hn|]. split; [reflexivity|].
  apply (proj1 (IsEOF_sound_and_permanent (fun _ => false) (fun _ => false))
           [] (runes "ab") [call_CaptureUntil false (runes "!")] l);
    [exact Hn | reflexivity | reflexivity].
Defined.

(** C6 as stated fails, in two ways.  On the input [a], NUL, [b] a
    search for [b] stops on the NUL with [IsEOF] true while [b] is still
    in the reader.  And on the input [abXY], without any NUL, after the
    step [CurrentTokenIs("ab"); return nil] has cached the [b],
    [NextEmittedToken] returns the end-of-input token and leaves [IsEOF]
    true with the [b] still in the cache, where the next read would find
    it. *)
Lemma IsEOF_true_before_the_end :
  (let l := snd (CaptureUntil false (runes "b") (primed [] [97; 0; 98]%Z)) in
   fst (CaptureUntil false (runes "b") (primed [] [97; 0; 98]%Z)) = false
   /\ IsEOF l = true
   /\ tokenBuffer l = runes "a"
   /\ inputBuffer l = runes "b")
  /\ (let d := NewLexer [] (runes "abXY")
                 (Some (test_then_nil (runes "ab"))) in
      ~ In RuneEOF (runes "abXY")
      /\ exists d',
           NextEmittedToken test_call 1 d
           = Some (Done (Some (defaultToken TokenTypeEOF StringEOF), d'))
           /\ IsEOF (lxr d') = true
           /\ runeCache (lxr d') = runes "b"
           /\ fst (read (lxr d')) = 98%Z).
Proof.
  split; [vm_compute; repeat split|].
  split; [vm_compute; intros [H|[H|[H|[H|[]]]]]; discriminate H|].
  eexists. vm_compute. repeat split.
Qed.

(** ** Terminators that are all empty *)

Lemma terminator_at_all_blank (tkns : list gostring) (r : rune) :
  Forall (fun t => t = []) tkns -> terminator_at tkns r = None.
Proof.
  induction 1 as [|t rest Ht _ IH]; [reflexivity|].
  subst t. exact IH.
Qed.

Lemma peek_free_all_blank (tkns : list gostring) :
  Forall (fun t => t = []) tkns -> peek_free tkns.
Proof.
  unfold peek_free. induction 1 as [|t rest Ht _ IH]; constructor;
    [subst t; cbn; lia | exact IH].
Qed.

(** A search that knows no terminator runs to the first sentinel. *)
Lemma scan_without_terminator (sk : bool) (tkns : list gostring)
  (p : list rune) (cur : rune) :
  (forall r, terminator_at tkns r = None) ->
  scan sk tkns cur p
  = mkScan (kept_runes sk (until_nul (cur :: p))) [] RuneEOF
      (after_nul (cur :: p)).
Proof.
  intros Ht. revert cur; induction p as [|r p' IH]; intros cur;
    rewrite scan_unfold; cbn [until_nul after_nul];
    destruct (cur =? RuneEOF)%Z eqn:He.
  - apply Z.eqb_eq in He. subst cur. destruct sk; reflexivity.
  - rewrite Ht. destruct sk; cbn [andb kept_runes]; [|reflexivity].
    rewrite filter_not_space_cons. destruct (IsSpace cur); reflexivity.
  - apply Z.eqb_eq in He. subst cur. destruct sk; reflexivity.
  - rewrite Ht, (IH r). cbn [until_nul after_nul].
    destruct sk; cbn [andb kept_runes captured found stop_rune stop_pending];
      [|reflexivity].
    rewrite (filter_not_space_cons cur). destruct (IsSpace cur); reflexivity.
Qed.

Lemma scan_list_without_terminator (sk : bool) (tkns : list gostring)
  (v : list rune) :
  (forall r, terminator_at tkns r = None) ->
  scan_list sk tkns v
  = mkScan (kept_runes sk (until_nul v)) [] RuneEOF (after_nul v).
Proof.
  intros Ht. destruct v as [|c q]; cbn [scan_list];
    [destruct sk; reflexivity | apply scan_without_terminator, Ht].
Qed.

Lemma CaptureUntilOneOf_visible (sk : bool) (tkns : list gostring) (l : Lexer) :
  tkns <> [] -> peek_free tkns -> ignores_peek_free l ->
  fst (CaptureUntilOneOf sk tkns l)
  = found (scan_list sk tkns (visible l (currentRune l :: pending l)))
  /\ tokenBuffer (snd (CaptureUntilOneOf sk tkns l))
     = tokenBuffer l
       ++ captured (scan_list sk tkns (visible l (currentRune l :: pending l)))
  /\ currentRune (snd (CaptureUntilOneOf sk tkns l))
     = stop_rune (scan_list sk tkns (visible l (currentRune l :: pending l)))
  /\ visible l (pending (snd (CaptureUntilOneOf sk tkns l)))
     = stop_pending
         (scan_list sk tkns (visible l (currentRune l :: pending l))).
Proof.
  intros Hne Hpf Hig. unfold CaptureUntilOneOf.
  destruct tkns as [|t ts]; [congruence|]. cbn [length Nat.ltb Nat.leb orb].
  destruct (currentRune l =? RuneEOF)%Z eqn:He.
  - rewrite visible_cons.
    assert (Hi : ignored l (currentRune l) = false)
      by (unfold ignored; rewrite He; reflexivity).
    rewrite Hi. cbn [scan_list]. rewrite scan_unfold, He.
    cbn [fst snd found captured stop_rune stop_pending].
    rewrite app_nil_r. auto.
  - destruct (CaptureUntilOneOf_loop_visible (fuel_of l) sk (t :: ts) l Hpf Hig)
      as (H1 & H2 & H3 & H4); [unfold fuel_of; lia|].
    destruct (CaptureUntilOneOf_loop _ _ _ _) as [f l1]; cbn [fst snd] in *.
    auto.
Qed.

Lemma ignores_disabled_peek_free (l : Lexer) :
  ignores_disabled l -> ignores_peek_free l /\ forall s, visible l s = s.
Proof.
  intros Hd.
  assert (He : enabled_ignores l = []).
  { unfold enabled_ignores. unfold ignores_disabled in Hd.
    induction Hd as [|e es H _ IH]; cbn [filter]; [reflexivity|].
    rewrite H. exact IH. }
  split; [unfold ignores_peek_free; rewrite He; constructor|].
  intros s. unfold visible, ignored. rewrite He. cbn [existsb].
  induction s as [|r s IH]; cbn [filter]; [reflexivity|].
  rewrite andb_false_r. cbn [negb]. rewrite IH. reflexivity.
Qed.

Lemma until_nul_all (s : list rune) :
  ~ In RuneEOF s -> until_nul s = s /\ after_nul s = [].
Proof.
  induction s as [|r s IH]; intros Hn; cbn [until_nul after_nul]; [auto|].
  destruct (r =? RuneEOF)%Z eqn:E.
  - apply Z.eqb_eq in E. exfalso. apply Hn. left. exact E.
  - destruct IH as [H1 H2]; [intros H; apply Hn; right; exact H|].
    rewrite H1, H2. auto.
Qed.

(** C3 (amended): [CaptureUntilOneOf] with no terminator and
    [CaptureUntil] with the empty terminator return no-match without
    reading and leave the lexer, capture buffer included, as it is.
    [CaptureUntilOneOf] with a list of terminators that are all empty
    returns no-match as well, but after a search to the end of the
    input: [IsEOF] is true afterwards and the capture buffer has only
    grown.  With enabled ignore literals of at most one rune, what it
    has appended are the runes from the current one up to the end of the
    input, or to the first rune 0, that are not ignored and, when
    [skipWhitespace] is set, are not white space; with no ignore literal
    enabled and no rune 0 these are all the runes that were left, and
    nothing is left to read. *)
Theorem capture_until_without_terminator (sk : bool) (l : Lexer) :
  CaptureUntilOneOf sk [] l = ([], l)
  /\ CaptureUntil sk [] l = (false, l)
  /\ (forall tkns, Forall (fun t => t = []) tkns ->
      fst (CaptureUntilOneOf sk tkns l) = [])
  /\ (forall tkns, tkns <> [] -> Forall (fun t => t = []) tkns ->
      IsEOF (snd (CaptureUntilOneOf sk tkns l)) = true
      /\ exists w,
           tokenBuffer (snd (CaptureUntilOneOf sk tkns l)) = tokenBuffer l ++ w)
  /\ (forall tkns, tkns <> [] -> Forall (fun t => t = []) tkns ->
      ignores_peek_free l ->
      tokenBuffer (snd (CaptureUntilOneOf sk tkns l))
      = tokenBuffer l
        ++ kept_runes sk (until_nul (visible l (currentRune l :: pending l)))
      /\ visible l (pending (snd (CaptureUntilOneOf sk tkns l)))
         = after_nul (visible l (currentRune l :: pending l)))
  /\ (forall tkns, tkns <> [] -> Forall (fun t => t = []) tkns ->
      ignores_disabled l -> ~ In RuneEOF (currentRune l :: pending l) ->
      tokenBuffer (snd (CaptureUntilOneOf sk tkns l))
      = tokenBuffer l ++ kept_runes sk (currentRune l :: pending l)
      /\ pending (snd (CaptureUntilOneOf sk tkns l)) = []).
Proof.
  assert (H3 : forall tkns, Forall (fun t => t = []) tkns ->
                 fst (CaptureUntilOneOf sk tkns l) = []).
  { intros tkns Hb. unfold CaptureUntilOneOf. destruct (_ || _); [reflexivity|].
    pose proof (CaptureUntilOneOf_loop_all_blank (fuel_of l) sk tkns l Hb) as H.
    destruct (CaptureUntilOneOf_loop _ _ _ _); exact H. }
  assert (H5 : forall tkns, tkns <> [] -> Forall (fun t => t = []) tkns ->
      ignores_peek_free l ->
      tokenBuffer (snd (CaptureUntilOneOf sk tkns l))
      = tokenBuffer l
        ++ kept_runes sk (until_nul (visible l (currentRune l :: pending l)))
      /\ visible l (pending (snd (CaptureUntilOneOf sk tkns l)))
         = after_nul (visible l (currentRune l :: pending l))).
  { intros tkns Hne Hb Hig.
    destruct (CaptureUntilOneOf_visible sk tkns l Hne (peek_free_all_blank _ Hb)
                Hig) as (_ & B & _ & P).
    rewrite scan_list_without_terminator in B, P
      by (intros r; apply terminator_at_all_blank, Hb).
    cbn [captured stop_pending] in B, P. auto. }
  split; [reflexivity|]. split; [reflexivity|]. split; [exact H3|].
  split; [|split; [exact H5|]].
  - intros tkns Hne Hb. specialize (H3 tkns Hb). revert H3.
    unfold CaptureUntilOneOf.
    destruct tkns as [|t ts]; [congruence|]. cbn [length Nat.ltb Nat.leb orb].
    destruct (currentRune l =? RuneEOF)%Z eqn:He.
    + intros _. cbn [snd]. split; [apply IsEOF_true, Z.eqb_eq, He|].
      exists []. rewrite app_nil_r. reflexivity.
    + destruct (CaptureUntilOneOf_loop_appends (fuel_of l) sk (t :: ts) l)
        as (w & G1 & _ & _ & G4); [unfold fuel_of; lia|].
      destruct (CaptureUntilOneOf_loop _ _ _ _) as [f l1]; cbn [fst snd] in *.
      intros Hf. split; [apply IsEOF_true; exact (G4 Hf)|].
      exists w. exact G1.
  - intros tkns Hne Hb Hd Hn.
    destruct (ignores_disabled_peek_free l Hd) as [Hig Hv].
    destruct (H5 tkns Hne Hb Hig) as [B P].
    rewrite Hv in B. rewrite (Hv (pending _)), (Hv (_ :: _)) in P.
    destruct (until_nul_all _ Hn) as [U A]. rewrite U in B. rewrite A in P.
    split; [exact B | exact P].
Qed.

Lemma capture_until_without_terminator_instance :
  let l := primed [] (runes "some text") in
  let tkns : list gostring := [[]; []] in
  tkns <> []
  /\ Forall (fun t : gostring => t = []) tkns
  /\ ignores_disabled l
  /\ ~ In RuneEOF (currentRune l :: pending l)
  /\ fst (CaptureUntilOneOf true tkns l) = []
  /\ tokenBuffer (snd (CaptureUntilOneOf true tkns l)) = runes "sometext"
  /\ pending (snd (CaptureUntilOneOf true tkns l)) = [].
Proof.
  intros l tkns.
  assert (Hne : tkns <> []) by discriminate.
  assert (Hb : Forall (fun t : gostring => t = []) tkns)
    by (repeat constructor).
  assert (Hd : ignores_disabled l) by constructor.
  assert (Hn : ~ In RuneEOF (currentRune l :: pending l)).
  { vm_compute. intros H.
    repeat (destruct H as [H|H]; [discriminate H|]). exact H. }
  destruct (capture_until_without_terminator true l)
    as (_ & _ & H3 & _ & _ & H6).
  split; [exact Hne|]. split; [exact Hb|]. split; [exact Hd|].
  split; [exact Hn|]. split; [exact (H3 tkns Hb)|].
  exact (H6 tkns Hne Hb Hd Hn).
Defined.

(** ** The rune 0 in the input *)

Lemma CaptureUntilOneOf_appends_no_sentinel (sk : bool) (tkns : list gostring)
  (l : Lexer) :
  exists w,
    tokenBuffer (snd (CaptureUntilOneOf sk tkns l)) = tokenBuffer l ++ w
    /\ ~ In RuneEOF w.
Proof.
  unfold CaptureUntilOneOf. destruct (_ || _).
  - exists []. rewrite app_nil_r. cbn. auto.
  - destruct (CaptureUntilOneOf_loop_appends (fuel_of l) sk tkns l)
      as (w & G1 & G2 & _); [unfold fuel_of; lia|].
    destruct (CaptureUntilOneOf_loop _ _ _ _) as [f l1]; cbn [fst snd] in *.
    exists w. split; [exact G1 | exact G2].
Qed.

Lemma CaptureIdent_appends_no_sentinel (IsLetter IsDigit : rune -> bool)
  (l : Lexer) :
  exists w,
    tokenBuffer (snd (CaptureIdent IsLetter IsDigit l)) = tokenBuffer l ++ w
    /\ ~ In RuneEOF w.
Proof.
  unfold CaptureIdent.
  destruct (CaptureIdent_loop_appends IsLetter IsDigit
              (fuel_of (autoEat l)) false (autoEat l))
    as (w & H1 & _ & H3 & _).
  destruct (CaptureIdent_loop _ _ _ _ _) as [found l1]; cbn [fst snd] in *.
  destruct (skipIgnores_frame (autoEat l1)) as (Hs & _).
  destruct (skipIgnores (autoEat l1)) as [skipped l3]; cbn [fst snd] in *.
  apply no_cursor_fields in Hs. destruct Hs as (Hb & _).
  rewrite autoEat_tokenBuffer in Hb, H1.
  exists w. split; [|exact H3].
  destruct (_ && _); [|congruence].
  destruct (EatWhitespace_frame l3) as (H5 & _).
  apply no_cursor_fields in H5. destruct H5 as (H5 & _). congruence.
Qed.

(** C10 (amended): the end-of-input sentinel is the rune 0, and [IsEOF]
    is the test that the current rune is that rune.  Whenever a rune 0 of
    the input is the current rune, whatever is left to read, [IsEOF] is
    true and every capture, match, consume, skip and eat-white-space
    operation returns no-match and leaves the lexer where it is.  Read by
    read, a lexer on [pre], 0, [post] reaches that state when [pre] has
    been read, with [post] still in the reader, and [IsEOF] is false
    before when [pre] holds no rune 0.  A capture-until with no ignore
    literal enabled, started before the rune 0, whose terminators (of
    one rune) do not occur before it, captures up to it and stops there
    with no match, [IsEOF] true and [post] unread.  The loops of
    [CaptureUntilOneOf] and [CaptureIdent] never append a rune 0 to the
    capture buffer. *)
Theorem nul_rune_is_end_of_input (IsLetter IsDigit : rune -> bool) :
  (forall l : Lexer, IsEOF l = true <-> currentRune l = 0%Z)
  /\ (forall (l : Lexer) (sk clearPrevious : bool) (tkns : list gostring)
             (until : gostring),
      currentRune l = RuneEOF ->
      CaptureUntilOneOf sk tkns l = ([], l)
      /\ CaptureUntil sk until l = (false, l)
      /\ CaptureIdent IsLetter IsDigit l = (false, l)
      /\ ConsumeCurrentToken clearPrevious l = (false, l)
      /\ SkipCurrentToken clearPrevious l = (false, l)
      /\ CurrentTokenIsOneOf tkns l = ((false, []), l)
      /\ CurrentTokenIs until l = (false, l)
      /\ EatWhitespace l = (false, l)
      /\ skipIgnores l = (false, l))
  /\ (forall (name pre post : gostring),
      let l := read_n (length pre) (primed name (pre ++ RuneEOF :: post)) in
      IsEOF l = true /\ runeCache l = [] /\ inputBuffer l = post)
  /\ (forall (name pre post : gostring) (k : nat),
      ~ In RuneEOF pre -> k < length pre ->
      IsEOF (read_n k (primed name (pre ++ RuneEOF :: post))) = false)
  /\ (forall (l : Lexer) (sk : bool) (tkns : list gostring)
             (pre post : list rune),
      ignores_disabled l -> tkns <> [] -> peek_free tkns ->
      pending l = pre ++ RuneEOF :: post ->
      ~ In RuneEOF (currentRune l :: pre) ->
      (forall r, In r (currentRune l :: pre) -> terminator_at tkns r = None) ->
      fst (CaptureUntilOneOf sk tkns l) = []
      /\ IsEOF (snd (CaptureUntilOneOf sk tkns l)) = true
      /\ pending (snd (CaptureUntilOneOf sk tkns l)) = post
      /\ tokenBuffer (snd (CaptureUntilOneOf sk tkns l))
         = tokenBuffer l ++ kept_runes sk (currentRune l :: pre))
  /\ (forall (l : Lexer) (sk : bool) (tkns : list gostring),
      exists w,
        tokenBuffer (snd (CaptureUntilOneOf sk tkns l)) = tokenBuffer l ++ w
        /\ ~ In RuneEOF w)
  /\ (forall l : Lexer,
      exists w,
        tokenBuffer (snd (CaptureIdent IsLetter IsDigit l)) = tokenBuffer l ++ w
        /\ ~ In RuneEOF w).
Proof.
  split; [exact IsEOF_true|]. split.
  { intros l sk clearPrevious tkns until Hc.
    split; [apply CaptureUntilOneOf_at_EOF, Hc|].
    split; [apply CaptureUntil_at_EOF, Hc|].
    split; [apply CaptureIdent_at_EOF, Hc|].
    split; [apply ConsumeCurrentToken_at_EOF, Hc|].
    split; [apply SkipCurrentToken_at_EOF, Hc|].
    split; [apply CurrentTokenIsOneOf_at_EOF, Hc|].
    split; [apply CurrentTokenIs_at_EOF, Hc|].
    split; [apply EatWhitespace_at_EOF, Hc|].
    apply skipIgnores_at_EOF, Hc. }
  split.
  { intros name pre post l.
    set (l0 := mkLexer name false true [] (pre ++ RuneEOF :: post) [] false []
                 0%Z [] []).
    assert (El : l = read_n (S (length pre)) l0) by reflexivity.
    assert (Hc : currentRune l = RuneEOF).
    { rewrite El, read_n_advance, advance_currentRune.
      change (pending l0) with (pre ++ RuneEOF :: post).
      apply nth_middle. }
    assert (Hcache : runeCache l = [])
      by (rewrite El; apply read_n_runeCache_nil; reflexivity).
    assert (Hp : pending l = post).
    { rewrite El, read_n_pending.
      change (pending l0) with (pre ++ RuneEOF :: post).
      rewrite skipn_app, skipn_all2 by lia.
      replace (S (length pre) - length pre) with 1 by lia. reflexivity. }
    unfold pending in Hp. rewrite Hcache in Hp. cbn [app] in Hp.
    split; [apply IsEOF_true, Hc|]. split; [exact Hcache | exact Hp]. }
  split.
  { intros name pre post k Hn Hk.
    set (l0 := mkLexer name false true [] (pre ++ RuneEOF :: post) [] false []
                 0%Z [] []).
    change (read_n k (primed name (pre ++ RuneEOF :: post)))
      with (read_n (S k) l0).
    unfold IsEOF. apply Z.eqb_neq.
    rewrite read_n_advance, advance_currentRune.
    change (pending l0) with (pre ++ RuneEOF :: post).
    rewrite app_nth1 by exact Hk.
    intros E. apply Hn. rewrite <- E. apply nth_In, Hk. }
  split.
  { intros l sk tkns pre post Hig Hne Hpf Hp Hn Ht.
    destruct (CaptureUntilOneOf_scan sk tkns l Hne Hpf Hig) as (F & B & C & P).
    rewrite Hp in F, B, C, P.
    rewrite (scan_to_nul sk tkns pre post (currentRune l) Hn Ht) in F, B, C, P.
    cbn [found captured stop_rune stop_pending] in F, B, C, P.
    split; [exact F|]. split; [apply IsEOF_true, C|]. split; [exact P|].
    exact B. }
  split; [intros l sk tkns; apply CaptureUntilOneOf_appends_no_sentinel|].
  intros l. apply CaptureIdent_appends_no_sentinel.
Qed.

Lemma nul_rune_is_end_of_input_instance :
  let tkns := [runes "b"] in
  let l := primed [] [97; 0; 98]%Z in
  let r := CaptureUntilOneOf false tkns l in
  ignores_disabled l /\ tkns <> [] /\ peek_free tkns
  /\ pending l = [] ++ RuneEOF :: runes "b"
  /\ ~ In RuneEOF (currentRune l :: [])
  /\ (forall x, In x (currentRune l :: []) -> terminator_at tkns x = None)
  /\ fst r = [] /\ IsEOF (snd r) = true /\ pending (snd r) = runes "b"
  /\ tokenBuffer (snd r) = runes "a".
Proof.
  intros tkns l r.
  assert (H0 : ignores_disabled l) by constructor.
  assert (H1 : tkns <> []) by discriminate.
  assert (H2 : peek_free tkns) by (repeat constructor).
  assert (Hp : pending l = [] ++ RuneEOF :: runes "b") by reflexivity.
  assert (H3 : ~ In RuneEOF (currentRune l :: []))
    by (intros [H|[]]; discriminate H).
  assert (H4 : forall x, In x (currentRune l :: []) -> terminator_at tkns x = None)
    by (intros x [<-|[]]; reflexivity).
  split; [exact H0|]. split; [exact H1|]. split; [exact H2|].
  split; [exact Hp|]. split; [exact H3|]. split; [exact H4|].
  exact (proj1 (proj2 (proj2 (proj2 (proj2
           (nul_rune_is_end_of_input (fun _ => false) (fun _ => false))))))
           l false tkns [] (runes "b") H0 H1 H2 Hp H3 H4).
Defined.

(** C10 as stated fails: a rune 0 inside a literal of several runes is
    read over.  On the input [a], 0, [b], [c] the terminator [a], 0 is
    found, [ConsumeCurrentToken] buffers it, rune 0 included, and rests on
    [b] with [IsEOF] false, and a search for [c] then captures the [b].
    With the ignore literal [x], 0 on the input [x], 0, [b], [!] a search
    for [!] finds it and has captured the [b] that follows the rune 0. *)
Lemma nul_inside_a_literal_is_read_over :
  (let l := primed [] [97; 0; 98; 99]%Z in
   let l1 := snd (CaptureUntil false [97; 0]%Z l) in
   let l2 := snd (ConsumeCurrentToken false l1) in
   fst (CaptureUntil false [97; 0]%Z l) = true
   /\ fst (ConsumeCurrentToken false l1) = true
   /\ tokenBuffer l2 = [97; 0]%Z
   /\ currentRune l2 = 98%Z
   /\ IsEOF l2 = false
   /\ fst (CaptureUntil false (runes "c") l2) = true
   /\ tokenBuffer (snd (CaptureUntil false (runes "c") l2)) = [97; 0; 98]%Z)
  /\ (let l := AddIgnoreTokens [[120; 0]%Z] (primed [] [120; 0; 98; 33]%Z) in
      fst (CaptureUntil false (runes "!") l) = true
      /\ tokenBuffer (snd (CaptureUntil false (runes "!") l)) = runes "b"
      /\ IsEOF (snd (CaptureUntil false (runes "!") l)) = false).
Proof. vm_compute. repeat split. Qed.

(** ** Consuming and skipping, to where the cursor rests *)

Lemma drop_trailing_drop_space (ig : rune -> bool) (s : list rune) :
  drop_trailing true ig (drop_space s) = drop_trailing true ig s.
Proof.
  induction s as [|r s IH]; cbn [drop_space drop_trailing]; [reflexivity|].
  destruct (IsSpace r) eqn:Hs; cbn [drop_trailing andb].
  - rewrite orb_true_r. exact IH.
  - rewrite Hs. reflexivity.
Qed.

Lemma drop_space_length (s : list rune) : length (drop_space s) <= length s.
Proof.
  induction s as [|r s IH]; cbn [drop_space]; [lia|].
  destruct (IsSpace r); cbn [length]; lia.
Qed.

Lemma drop_trailing_ext (auto : bool) (l l' : Lexer) (s : list rune) :
  ignoreTokens l' = ignoreTokens l ->
  drop_trailing auto (ignored l') s = drop_trailing auto (ignored l) s.
Proof.
  intros H. induction s as [|r s IH]; cbn [drop_trailing]; [reflexivity|].
  assert (E : ignored l' r = ignored l r)
    by (unfold ignored, enabled_ignores; rewrite H; reflexivity).
  rewrite E, IH. reflexivity.
Qed.

Lemma skipIgnores_repeat_stream (n : nat) (l : Lexer) (s : list rune) :
  ignores_peek_free l ->
  currentRune l = hd RuneEOF s -> pending l = tl s ->
  (AutoEatWhitespace l = true -> IsSpace (currentRune l) = false) ->
  length s <= n ->
  currentRune (skipIgnores_repeat n l)
  = hd RuneEOF (drop_trailing (AutoEatWhitespace l) (ignored l) s)
  /\ pending (skipIgnores_repeat n l)
     = tl (drop_trailing (AutoEatWhitespace l) (ignored l) s).
Proof.
  revert l s; induction n as [|n IH]; intros l s Hig Hc Hp Hsp Hn.
  { destruct s; [|cbn in Hn; lia]. cbn. auto. }
  cbn [skipIgnores_repeat]. rewrite skipIgnores_peek_free by exact Hig.
  destruct (ignored l (currentRune l)) eqn:Hi.
  - destruct s as [|c p]; cbn [hd tl length] in *.
    { rewrite Hc in Hi. discriminate Hi. }
    cbn [drop_trailing]. rewrite <- Hc, Hi. cbn [orb].
    destruct (read_pending l) as (_ & R2 & R3). rewrite Hp in R2, R3.
    pose proof (read_no_cursor l) as Hf. apply no_cursor_fields in Hf.
    destruct Hf as (_ & _ & Ha1 & Hi1).
    destruct (autoEat_stream (snd (read l)) p R2 R3) as (A1 & A2).
    destruct (autoEat_frame (snd (read l))) as (Hf2 & _).
    apply no_cursor_fields in Hf2. destruct Hf2 as (_ & _ & Ha2 & Hi2).
    rewrite Ha1 in A1, A2.
    assert (Hit : ignoreTokens (autoEat (snd (read l))) = ignoreTokens l)
      by congruence.
    assert (Hat : AutoEatWhitespace (autoEat (snd (read l)))
                  = AutoEatWhitespace l) by congruence.
    destruct (IH (autoEat (snd (read l)))
                (if AutoEatWhitespace l then drop_space p else p)
                (ignores_peek_free_ext l _ Hit Hig) A1 A2) as (H1 & H2).
    + intros Ha. rewrite Hat in Ha. unfold autoEat. rewrite Ha1, Ha.
      apply EatWhitespace_not_space.
    + destruct (AutoEatWhitespace l); [|lia].
      pose proof (drop_space_length p). lia.
    + rewrite Hat, (drop_trailing_ext _ l _ _ Hit) in H1, H2.
      destruct (AutoEatWhitespace l);
        [rewrite drop_trailing_drop_space in H1, H2|]; auto.
  - destruct s as [|c p]; cbn [hd tl drop_trailing] in *; [auto|].
    rewrite <- Hc, Hi. cbn [orb].
    destruct (AutoEatWhitespace l); cbn [andb]; [|auto].
    rewrite (Hsp eq_refl). auto.
Qed.

(** Where [eat_trailing] leaves the cursor when no enabled ignore
    literal is longer than one rune. *)
Lemma eat_trailing_stream (l : Lexer) (s : list rune) :
  ignores_peek_free l ->
  currentRune l = hd RuneEOF s -> pending l = tl s ->
  currentRune (eat_trailing l)
  = hd RuneEOF (drop_trailing (AutoEatWhitespace l) (ignored l) s)
  /\ pending (eat_trailing l)
     = tl (drop_trailing (AutoEatWhitespace l) (ignored l) s).
Proof.
  intros Hig Hc Hp. unfold eat_trailing.
  destruct (autoEat_stream l s Hc Hp) as (A1 & A2).
  destruct (autoEat_frame l) as (Hf & _).
  apply no_cursor_fields in Hf. destruct Hf as (_ & _ & Hat & Hit).
  destruct (skipIgnores_repeat_stream (fuel_of (autoEat l)) (autoEat l)
              (if AutoEatWhitespace l then drop_space s else s)
              (ignores_peek_free_ext l _ Hit Hig) A1 A2) as (H1 & H2).
  - intros Ha. rewrite Hat in Ha. unfold autoEat. rewrite Ha.
    apply EatWhitespace_not_space.
  - unfold fuel_of, weight. fold (unread (autoEat l)).
    assert (E : length (pending (autoEat l)) = unread (autoEat l))
      by (unfold pending, unread; apply length_app).
    rewrite A2 in E.
    destruct (if AutoEatWhitespace l then drop_space s else s);
      cbn [length tl] in *; lia.
  - rewrite Hat, (drop_trailing_ext _ l _ _ Hit) in H1, H2.
    destruct (AutoEatWhitespace l);
      [rewrite drop_trailing_drop_space in H1, H2|]; auto.
Qed.

Lemma hd_skipn_nth (n : nat) (s : list rune) :
  hd RuneEOF (skipn n s) = nth n s RuneEOF
  /\ tl (skipn n s) = skipn (S n) s.
Proof.
  revert s; induction n as [|n IH]; intros s.
  - destruct s; cbn; auto.
  - destruct s as [|r s]; [cbn; auto|]. cbn [skipn nth]. apply IH.
Qed.

(** C7 (amended): for a lexer whose cache holds no more runes than the
    re-validation of the Last-Matched-Literal peeks for,
    [ConsumeCurrentToken] and [SkipCurrentToken] return whether that
    literal is present and still matches at the current position outside
    the end of the input.  When they return false the current rune, the
    runes still to be read and the capture buffer are as before.  When
    they return true the capture buffer is the kept buffer followed by
    the literal (consume) or the kept buffer (skip), nothing else than
    the cursor and the buffer has changed, and the cursor was moved past
    the literal and then over what [eat_trailing] eats: with enabled
    ignore literals of at most one rune it rests on the first rune
    behind the literal that is neither an ignored rune nor, with
    auto-eat on, white space, or at the end of the input.  It rests
    exactly past the literal when auto-eat is off and no ignore literal
    is enabled. *)
Theorem consume_skip_current_token (clearPrevious : bool) (l : Lexer) :
  lookahead_fits (lastKnownToken l) l ->
  let t := lastKnownToken l in
  let kept := if clearPrevious then [] else tokenBuffer l in
  fst (ConsumeCurrentToken clearPrevious l) = matches_here t l
  /\ fst (SkipCurrentToken clearPrevious l) = matches_here t l
  /\ (matches_here t l = false ->
      untouched l (snd (ConsumeCurrentToken clearPrevious l))
      /\ untouched l (snd (SkipCurrentToken clearPrevious l)))
  /\ (matches_here t l = true ->
      (exists l1, past_literal t (kept ++ t) l l1
                  /\ snd (ConsumeCurrentToken clearPrevious l) = eat_trailing l1)
      /\ (exists l1, past_literal t kept l l1
                     /\ snd (SkipCurrentToken clearPrevious l) = eat_trailing l1))
  /\ (matches_here t l = true -> AutoEatWhitespace l = false ->
      Forall (fun e => snd e = false) (ignoreTokens l) ->
      past_literal t (kept ++ t) l (snd (ConsumeCurrentToken clearPrevious l))
      /\ past_literal t kept l (snd (SkipCurrentToken clearPrevious l)))
  /\ (matches_here t l = true ->
      tokenBuffer (snd (ConsumeCurrentToken clearPrevious l)) = kept ++ t
      /\ tokenBuffer (snd (SkipCurrentToken clearPrevious l)) = kept
      /\ no_capture (snd (ConsumeCurrentToken clearPrevious l)) = no_capture l
      /\ no_capture (snd (SkipCurrentToken clearPrevious l)) = no_capture l)
  /\ (matches_here t l = true -> ignores_peek_free l ->
      let rest := drop_trailing (AutoEatWhitespace l) (ignored l)
                    (skipn (length t - 1) (pending l)) in
      currentRune (snd (ConsumeCurrentToken clearPrevious l)) = hd RuneEOF rest
      /\ pending (snd (ConsumeCurrentToken clearPrevious l)) = tl rest
      /\ currentRune (snd (SkipCurrentToken clearPrevious l)) = hd RuneEOF rest
      /\ pending (snd (SkipCurrentToken clearPrevious l)) = tl rest).
Proof.
  intros Hfit t kept.
  assert (Hsucc : matches_here t l = true ->
            (exists l1, past_literal t (kept ++ t) l l1
               /\ snd (ConsumeCurrentToken clearPrevious l) = eat_trailing l1)
            /\ (exists l1, past_literal t kept l l1
               /\ snd (SkipCurrentToken clearPrevious l) = eat_trailing l1)).
  { intros Hm.
    destruct (consume_skip_hit clearPrevious l Hfit Hm)
      as ((_ & lc & C2 & C3) & (_ & ls & S2 & S3)).
    split; [exists lc | exists ls]; auto. }
  (* where a state past the literal is taken by [eat_trailing] *)
  assert (Hrest : forall buf l1, past_literal t buf l l1 ->
            tokenBuffer (eat_trailing l1) = buf
            /\ no_capture (eat_trailing l1) = no_capture l
            /\ (matches_here t l = true -> ignores_peek_free l ->
                currentRune (eat_trailing l1)
                = hd RuneEOF (drop_trailing (AutoEatWhitespace l) (ignored l)
                                (skipn (length t - 1) (pending l)))
                /\ pending (eat_trailing l1)
                   = tl (drop_trailing (AutoEatWhitespace l) (ignored l)
                           (skipn (length t - 1) (pending l))))).
  { intros buf l1 (P1 & P2 & P3 & P4).
    split; [rewrite eat_trailing_tokenBuffer; exact P2|].
    split.
    { rewrite <- P1. apply no_cursor_capture, eat_trailing_frame. }
    intros Hm Hig.
    pose proof (no_capture_fields _ _ P1) as (_ & Hat & Hit & _).
    destruct (matches_here_true _ _ Hm) as (_ & Ht & _).
    assert (Hlen : S (length t - 1) = length t)
      by (rewrite Ht; cbn [length]; lia).
    destruct (hd_skipn_nth (length t - 1) (pending l)) as (E1 & E2).
    rewrite Hlen in E2.
    destruct (eat_trailing_stream l1 (skipn (length t - 1) (pending l))
                (ignores_peek_free_ext l l1 Hit Hig)) as (H1 & H2);
      [congruence | congruence |].
    rewrite Hat, (drop_trailing_ext _ l l1 _ Hit) in H1, H2. auto. }
  split; [|split; [|split; [|split; [|split; [|split]]]]].
  - unfold ConsumeCurrentToken. fold t.
    destruct (is_blank t) eqn:Hb.
    + unfold matches_here. rewrite Hb, andb_false_r. reflexivity.
    + destruct (CurrentTokenIs_spec t l Hfit) as [Hs _].
      pose proof (CurrentTokenIs_currentRune t l) as Hc.
      destruct (CurrentTokenIs t l) as [hit l1]; cbn [fst snd] in *.
      rewrite <- Hs. destruct hit; cbn [negb fst]; [|reflexivity].
      symmetry in Hs. apply matches_here_true in Hs. destruct Hs as (Hne & _).
      rewrite Hc. apply Z.eqb_neq in Hne. rewrite Hne. reflexivity.
  - unfold SkipCurrentToken. fold t.
    destruct (CurrentTokenIs_spec t l Hfit) as [Hs _].
    destruct (CurrentTokenIs_frame t l) as [Hf _].
    destruct (CurrentTokenIs t l) as [hit l1]; cbn [fst snd] in *.
    pose proof (no_lookahead_fields _ _ Hf) as (Hc & _ & Hk).
    rewrite Hk. fold t. rewrite <- Hs. destruct hit; cbn [negb orb].
    + symmetry in Hs. pose proof (matches_here_true _ _ Hs) as (Hne & Ht & _).
      assert (Hnb : is_blank t = false) by (rewrite Ht; reflexivity).
      rewrite Hnb, Hc. apply Z.eqb_neq in Hne. rewrite Hne. reflexivity.
    + rewrite orb_true_r. reflexivity.
  - intros Hm. unfold untouched, ConsumeCurrentToken, SkipCurrentToken. fold t.
    destruct (CurrentTokenIs_spec t l Hfit) as [Hs Hp].
    destruct (CurrentTokenIs_frame t l) as [Hf _].
    destruct (CurrentTokenIs t l) as [hit l1]; cbn [fst snd] in *.
    rewrite Hm in Hs. subst hit. cbn [negb]. rewrite orb_true_r. cbn [orb snd].
    destruct (is_blank t); auto.
  - exact Hsucc.
  - intros Hm Ha Hi. destruct (Hsucc Hm) as [(l1 & Hp1 & E1) (l2 & Hp2 & E2)].
    rewrite E1, E2.
    pose proof Hp1 as (Hn1 & _). pose proof Hp2 as (Hn2 & _).
    apply no_capture_fields in Hn1, Hn2.
    destruct Hn1 as (_ & Ha1 & Hi1 & _). destruct Hn2 as (_ & Ha2 & Hi2 & _).
    rewrite !eat_trailing_nothing by congruence. auto.
  - intros Hm. destruct (Hsucc Hm) as [(l1 & Hp1 & E1) (l2 & Hp2 & E2)].
    rewrite E1, E2.
    destruct (Hrest _ _ Hp1) as (B1 & F1 & _).
    destruct (Hrest _ _ Hp2) as (B2 & F2 & _). auto.
  - intros Hm Hig rest. destruct (Hsucc Hm) as [(l1 & Hp1 & E1) (l2 & Hp2 & E2)].
    rewrite E1, E2.
    destruct (Hrest _ _ Hp1) as (_ & _ & R1).
    destruct (Hrest _ _ Hp2) as (_ & _ & R2).
    destruct (R1 Hm Hig) as [R11 R12]. destruct (R2 Hm Hig) as [R21 R22].
    auto.
Qed.

Lemma consume_skip_current_token_instance :
  let l := snd (CaptureUntil false (runes "{{")
                  (primed [] (runes "a {{  template}}"))) in
  lookahead_fits (lastKnownToken l) l
  /\ matches_here (lastKnownToken l) l = true
  /\ ignores_peek_free l
  /\ fst (ConsumeCurrentToken true l) = true
  /\ fst (SkipCurrentToken true l) = true
  /\ tokenBuffer (snd (ConsumeCurrentToken true l)) = runes "{{"
  /\ tokenBuffer (snd (SkipCurrentToken true l)) = []
  /\ currentRune (snd (ConsumeCurrentToken true l)) = 116%Z
  /\ pending (snd (ConsumeCurrentToken true l)) = runes "emplate}}"
  /\ currentRune (snd (SkipCurrentToken true l)) = 116%Z.
Proof.
  intros l.
  assert (Hfit : lookahead_fits (lastKnownToken l) l)
    by (right; vm_compute; lia).
  assert (Hm : matches_here (lastKnownToken l) l = true) by reflexivity.
  assert (Hig : ignores_peek_free l) by constructor.
  destruct (consume_skip_current_token true l Hfit)
    as (H1 & H2 & _ & _ & _ & H6 & H7).
  destruct (H6 Hm) as (B1 & B2 & _). destruct (H7 Hm Hig) as (R1 & R2 & R3 & _).
  split; [exact Hfit|]. split; [exact Hm|]. split; [exact Hig|].
  split; [rewrite H1; exact Hm|]. split; [rewrite H2; exact Hm|].
  split; [exact B1|]. split; [exact B2|].
  split; [exact R1|]. split; [exact R2 | exact R3].
Defined.

(** The condition on the cache cannot be dropped.  On the input [abXYZ],
    after [CaptureUntil(false, "ab")] has found the literal and
    [CurrentTokenIs("abc")] has left [b], [X] in the cache, the literal
    [ab] still stands at the cursor and [ConsumeCurrentToken] returns
    true, but what it buffers is [aX]. *)
Lemma consume_after_a_longer_peek :
  let l0 := primed [] (runes "abXYZ") in
  let l := snd (CurrentTokenIs (runes "abc")
                  (snd (CaptureUntil false (runes "ab") l0))) in
  lastKnownToken l = runes "ab"
  /\ runeCache l = runes "bX"
  /\ ~ lookahead_fits (lastKnownToken l) l
  /\ matches_here (lastKnownToken l) l = true
  /\ fst (ConsumeCurrentToken false l) = true
  /\ tokenBuffer (snd (ConsumeCurrentToken false l)) = runes "aX".
Proof.
  vm_compute. repeat split. intros [H|H]; lia.
Qed.

(** ** Flushing and emitting *)

(** X13. [Emit] completes exactly when the channel is open and holds
    fewer than three tokens, and exactly when [Flush] followed by
    [EmitToken] of the flushed value completes, with the same lexer
    afterwards.  The token queued carries the capture buffer, the buffer
    is empty afterwards and the cursor is where it was; the calls of
    [NextEmittedToken] that follow return the tokens queued before and
    then that token, without running a step. *)
Theorem Emit_is_Flush_then_EmitToken (LexFn : Type)
  (call : LexFn -> Lexer -> Outcome (option LexFn * Lexer)) (fuel : nat)
  (ty : TokenType) (l : Lexer) (st bg : option LexFn) :
  (forall l',
      Emit ty l = Done l'
      <-> EmitToken (defaultToken ty (fst (Flush l))) (snd (Flush l)) = Done l')
  /\ ((exists l', Emit ty l = Done l')
      <-> tokensClosed l = false /\ length (tokens l) < tokensCap)
  /\ (forall l', Emit ty l = Done l' ->
      tokens l' = tokens l ++ [defaultToken ty (tokenBuffer l)]
      /\ tokenBuffer l' = []
      /\ currentRune l' = currentRune l /\ pending l' = pending l
      /\ receive call fuel (length (tokens l')) (mkDriver l' st bg)
         = Some (map Some (tokens l ++ [defaultToken ty (tokenBuffer l)]),
                 mkDriver (with_tokens [] l') st bg)).
Proof.
  assert (E : Emit ty l
              = if tokensClosed l then Panicked
                else if length (tokens l) <? tokensCap
                     then Done (Reset (with_tokens
                                  (tokens l ++ [defaultToken ty (tokenBuffer l)])
                                  l))
                     else Blocked).
  { unfold Emit. rewrite send_spec.
    destruct (tokensClosed l); [reflexivity|].
    destruct (length (tokens l) <? tokensCap); reflexivity. }
  split; [|split].
  - intros l'. rewrite E. unfold EmitToken, Flush. cbn [fst snd].
    rewrite send_spec. cbn [tokensClosed tokens Reset with_tokenBuffer].
    destruct (tokensClosed l); [split; discriminate|].
    destruct (length (tokens l) <? tokensCap); [|split; discriminate].
    split; intros [= <-]; reflexivity.
  - rewrite E. destruct (tokensClosed l).
    + split; [intros (l' & H); discriminate H | intros [H _]; discriminate H].
    + destruct (length (tokens l) <? tokensCap) eqn:Hl.
      * apply Nat.ltb_lt in Hl. split; [auto | intros _; eexists; reflexivity].
      * apply Nat.ltb_ge in Hl.
        split; [intros (l' & H); discriminate H | intros [_ H]; lia].
  - intros l'. rewrite E.
    destruct (tokensClosed l); [discriminate|].
    destruct (length (tokens l) <? tokensCap); [|discriminate].
    intros [= <-].
    cbn [tokens tokenBuffer currentRune Reset with_tokens with_tokenBuffer].
    do 4 (split; [reflexivity|]).
    apply receive_queued. reflexivity.
Qed.

Lemma Emit_is_Flush_then_EmitToken_instance :
  let l := snd (CaptureUntil true (runes "!") (primed [] (runes "some text!"))) in
  let l' := with_tokens [defaultToken chars (runes "sometext")] (Reset l) in
  Emit chars l = Done l'
  /\ EmitToken (defaultToken chars (fst (Flush l))) (snd (Flush l)) = Done l'
  /\ receive example_call 0 1 (mkDriver l' (Some return_nil) None)
     = Some ([Some (defaultToken chars (runes "sometext"))],
             mkDriver (with_tokens [] l') (Some return_nil) None).
Proof.
  intros l l'.
  assert (H : Emit chars l = Done l') by reflexivity.
  destruct (Emit_is_Flush_then_EmitToken ExampleFn example_call 0 chars l
              (Some return_nil) None) as (H1 & _ & H3).
  split; [exact H|]. split; [exact (proj1 (H1 l') H)|].
  exact (proj2 (proj2 (proj2 (proj2 (H3 l' H))))).
Defined.
